(** * Robo AI illustration generator: batch orchestration and result collection

    A shallow embedding of the orchestration logic of [App.tsx] and of the
    selection / focus logic of [components/OutputArea.tsx], with the
    properties of the batch pipeline proved over it.

    Conventions of the embedding.
    - A JavaScript string is its sequence of UTF-16 code units ([list N]).
    - A React state slot is a record field, a state setter is a function on
      the record, and an event handler is a function from the state in which
      it is invoked to the state it leaves behind.
    - An [async] handler threads an explicit [World] through the remote
      calls it awaits, and records every call it issues.
    - An array held in React state carries the address of the array object,
      because [useEffect] compares its dependencies by identity. *)

From Stdlib Require Import ZArith NArith Ascii String.
From stdpp Require Import base decidable option numbers list gmap pretty.

Local Open Scope list_scope.
Local Open Scope nat_scope.

(** ** JavaScript strings and arrays *)

Module JS.

Definition jsstring := list N.

(** An ASCII literal of the source, as code units. *)
Definition lit (s : string) : jsstring :=
  (fun a => N_of_ascii a) <$> list_ascii_of_string s.

Definition LF : N := 10%N.
Definition COMMA : N := 44%N.
Definition COLON : N := 58%N.
Definition SEMICOLON : N := 59%N.
Definition DQUOTE : N := 34%N.
Definition HYPHEN : N := 45%N.

(** ECMAScript LineTerminator: LF, CR, LS, PS. *)
Definition isLineTerminator (c : N) : bool :=
  bool_decide (c ∈ [10; 13; 8232; 8233]%N).

(** What [String.prototype.trim] strips: WhiteSpace (TAB, VT, FF, ZWNBSP and
    the Unicode space separators) and LineTerminator. *)
Definition isWhiteSpace (c : N) : bool :=
  bool_decide (c ∈ [9; 11; 12; 32; 160; 5760;
                    8192; 8193; 8194; 8195; 8196; 8197; 8198; 8199; 8200;
                    8201; 8202; 8239; 8287; 12288; 65279]%N)
  || isLineTerminator c.

Fixpoint trimStart (s : jsstring) : jsstring :=
  match s with
  | [] => []
  | c :: s' => if isWhiteSpace c then trimStart s' else s
  end.

Definition trimEnd (s : jsstring) : jsstring :=
  reverse (trimStart (reverse s)).

Definition trim (s : jsstring) : jsstring := trimEnd (trimStart s).

(** [s.split(sep)] for a separator of one code unit (the source only splits
    on a line feed and on a comma). The result is never empty. *)
Fixpoint split (sep : N) (s : jsstring) : list jsstring :=
  match s with
  | [] => [[]]
  | c :: s' =>
      if bool_decide (c = sep) then [] :: split sep s'
      else match split sep s' with
           | [] => [[c]]
           | seg :: segs => (c :: seg) :: segs
           end
  end.

(** [segs.join(sep)], the inverse of [split]. *)
Fixpoint join (sep : N) (segs : list jsstring) : jsstring :=
  match segs with
  | [] => []
  | [seg] => seg
  | seg :: segs' => seg ++ sep :: join sep segs'
  end.

(** [xs.includes(x)] on an array of strings. *)
Definition includes (xs : list jsstring) (x : jsstring) : bool :=
  bool_decide (x ∈ xs).

(** [[...new Set(xs)]]: a [Set] keeps the first occurrence of each value
    and iterates in insertion order. *)
Fixpoint addAll (seen xs : list jsstring) : list jsstring :=
  match xs with
  | [] => seen
  | x :: xs' =>
      if includes seen x then addAll seen xs' else addAll (seen ++ [x]) xs'
  end.

Definition spreadSet (xs : list jsstring) : list jsstring := addAll [] xs.

(** Template-literal conversion of a number that holds an integer (below
    1e21 in magnitude, which covers array indices and [Date.now()]). *)
Definition ofZ (z : Z) : jsstring := lit (pretty z).
Definition ofNat (n : nat) : jsstring := lit (pretty n).

(** [s.includes(t)] on strings: [t] occurs as a substring of [s]. *)
Definition substring_of (t s : jsstring) : Prop :=
  ∃ pre post, s = pre ++ t ++ post.

End JS.

Import JS.

(** ** Data model ([types.ts]) *)

(** Of a [File] object the code only reads [type]. *)
Module File.
Record t := mk { type : jsstring }.
End File.

Module BaseImage.
Record t := mk { file : File.t; base64 : jsstring }.
End BaseImage.

Module GeneratedImage.
Record t := mk { id : jsstring; prompt : jsstring; base64 : jsstring }.
End GeneratedImage.

Module ConsistencyLocks.
Record t := mk {
  headAndFaceShape : bool;
  eyesStyle : bool;
  mouthStyle : bool;
  outlineThickness : bool;
  shadingStyle : bool
}.
End ConsistencyLocks.

Module PromptTuning.
Record t := mk { expressionIntensity : Z; propSize : Z }.
End PromptTuning.

(** ** The generation client's interface ([services/geminiService.ts]) *)

(** [data] is [base64.split(',')[1]], which is [undefined] ([None]) when the
    string holds no comma. *)
Module ImageInput.
Record t := mk { data : option jsstring; mimeType : jsstring }.
End ImageInput.

Module Colors.
Record t := mk { primary : jsstring; secondary : jsstring }.
End Colors.

Module GenerateVariationParams.
Record t := mk {
  baseImage : ImageInput.t;
  prompt : jsstring;
  colors : Colors.t;
  useStrictPalette : bool;
  consistencyLocks : ConsistencyLocks.t;
  promptTuning : PromptTuning.t
}.
End GenerateVariationParams.

(** How an awaited promise settles. *)
Inductive Settled :=
| Resolved (value : jsstring)
| Rejected (reason : jsstring).

Definition is_resolved (r : Settled) : bool :=
  match r with Resolved _ => true | Rejected _ => false end.

(** How a call completes: with a value, or by throwing. *)
Inductive Completion (A : Type) :=
| Returns (a : A)
| Throws.
Arguments Returns {A} a.
Arguments Throws {A}.

(** Everything outside the repository's own logic: the three operations of
    the generation client, whose answers depend on the remote model and may
    change the world, the clock behind [Date.now()], and two browser
    built-ins used by [base64ToFile]. *)
Class Platform (World : Type) := {
  generateVariation : GenerateVariationParams.t → World → World * Settled;
  removeBackground : ImageInput.t → World → World * Settled;
  addOutline : ImageInput.t → jsstring → Z → World → World * Settled;
  (** [Date.now()], in milliseconds *)
  Date_now : World → Z;
  (** whether [atob] accepts its argument rather than throwing *)
  atob_ok : jsstring → bool;
  (** the [type] of [new File(bits, name, {type})] *)
  File_type : jsstring → jsstring
}.

(** ** [utils/fileUtils.ts] *)

Module FileUtils.
Section FileUtils.
Context {World : Type} {P : Platform World}.

(** The regular expression [(.*?);] anchored at the head of [s]: the
    shortest run of code units that are not line terminators, up to the
    first semicolon. *)
Fixpoint lazyUntilSemicolon (s : jsstring) : option jsstring :=
  match s with
  | [] => None
  | c :: s' =>
      if bool_decide (c = SEMICOLON) then Some []
      else if isLineTerminator c then None
      else (fun m => c :: m) <$> lazyUntilSemicolon s'
  end.

(** Group 1 of the leftmost match of [/:(.*?);/] in [s]. *)
Fixpoint matchMime (s : jsstring) : option jsstring :=
  match s with
  | [] => None
  | c :: s' =>
      if bool_decide (c = COLON) then
        match lazyUntilSemicolon s' with
        | Some m => Some m
        | None => matchMime s'
        end
      else matchMime s'
  end.

Definition base64ToFile (dataUrl filename : jsstring)
  : Completion (option File.t) :=
  let arr := split COMMA dataUrl in
  if bool_decide (length arr < 2) then Returns None
  else
    match matchMime (default [] (arr !! 0)) with
    | None => Returns None
    | Some mime =>
        if atob_ok (default [] (arr !! 1))
        then Returns (Some (File.mk (File_type mime)))
        else Throws
    end.

End FileUtils.
End FileUtils.

(** ** Application state ([App.tsx]) *)

(** An array object held in React state: where it lives and what it holds. *)
Module ImageArray.
Record t := mk { addr : nat; items : list GeneratedImage.t }.
End ImageArray.

Module Progress.
Record t := mk { current : nat; total : nat }.
End Progress.

(** The [useState] slots of [App], and [allocated], the number of array
    objects created so far (the next free address). *)
Record AppState := mkAppState {
  baseImage : option BaseImage.t;
  variations : jsstring;
  primaryColor : jsstring;
  secondaryColor : jsstring;
  useStrictPalette : bool;
  consistencyLocks : ConsistencyLocks.t;
  promptTuning : PromptTuning.t;
  generatedImages : ImageArray.t;
  isLoading : bool;
  progress : option Progress.t;
  error : option jsstring;
  presets : list jsstring;
  savePresetsConfirmation : option (list jsstring);
  allocated : nat
}.

Definition INITIAL_PRESETS : list jsstring :=
  lit <$> [ "happy grin"; "shocked"; "crying tears of joy"; "winking";
            "reading a book"; "using a laptop"; "holding a coffee mug";
            "giving a thumbs-up"; "in a superhero pose";
            "wearing a party hat with confetti"; "wearing a Santa hat";
            "holding a pumpkin" ]%string.

(** *** State setters *)

(** Every [setGeneratedImages] of the source is handed an array that the
    call site has just created ([[]], [[...newImages]], the result of
    [filter] or of [map]); the setter below creates it at a fresh address. *)
Definition setGeneratedImages (xs : list GeneratedImage.t) (st : AppState)
  : AppState :=
  mkAppState (baseImage st) (variations st) (primaryColor st)
    (secondaryColor st) (useStrictPalette st) (consistencyLocks st)
    (promptTuning st) (ImageArray.mk (allocated st) xs) (isLoading st)
    (progress st) (error st) (presets st) (savePresetsConfirmation st)
    (S (allocated st)).

Definition setIsLoading (v : bool) (st : AppState) : AppState :=
  mkAppState (baseImage st) (variations st) (primaryColor st)
    (secondaryColor st) (useStrictPalette st) (consistencyLocks st)
    (promptTuning st) (generatedImages st) v
    (progress st) (error st) (presets st) (savePresetsConfirmation st)
    (allocated st).

Definition setProgress (v : option Progress.t) (st : AppState) : AppState :=
  mkAppState (baseImage st) (variations st) (primaryColor st)
    (secondaryColor st) (useStrictPalette st) (consistencyLocks st)
    (promptTuning st) (generatedImages st) (isLoading st)
    v (error st) (presets st) (savePresetsConfirmation st)
    (allocated st).

Definition setError (v : option jsstring) (st : AppState) : AppState :=
  mkAppState (baseImage st) (variations st) (primaryColor st)
    (secondaryColor st) (useStrictPalette st) (consistencyLocks st)
    (promptTuning st) (generatedImages st) (isLoading st)
    (progress st) v (presets st) (savePresetsConfirmation st)
    (allocated st).

Definition setPresets (v : list jsstring) (st : AppState) : AppState :=
  mkAppState (baseImage st) (variations st) (primaryColor st)
    (secondaryColor st) (useStrictPalette st) (consistencyLocks st)
    (promptTuning st) (generatedImages st) (isLoading st)
    (progress st) (error st) v (savePresetsConfirmation st)
    (allocated st).

Definition setSavePresetsConfirmation (v : option (list jsstring))
  (st : AppState) : AppState :=
  mkAppState (baseImage st) (variations st) (primaryColor st)
    (secondaryColor st) (useStrictPalette st) (consistencyLocks st)
    (promptTuning st) (generatedImages st) (isLoading st)
    (progress st) (error st) (presets st) v
    (allocated st).

(** The images currently in the collection. *)
Definition images (st : AppState) : list GeneratedImage.t :=
  ImageArray.items (generatedImages st).

(** The state of a freshly mounted [App] with nothing in local storage. *)
Definition initialState : AppState :=
  mkAppState None [] (lit "#4F46E5") (lit "#10B981") true
    (ConsistencyLocks.mk true true true true true)
    (PromptTuning.mk 50 50) (ImageArray.mk 0 []) false None None
    INITIAL_PRESETS None 1.

(** *** User-facing messages *)

Definition MSG_NO_BASE_IMAGE : jsstring :=
  lit "Please upload a base image first.".
Definition MSG_NO_VARIATIONS : jsstring :=
  lit "Please enter at least one variation prompt.".
Definition MSG_BATCH_TOO_LARGE : jsstring :=
  lit "Batch mode supports up to 30 variations per run.".
Definition MSG_NOT_FOUND : jsstring :=
  lit "Could not find the image to modify.".
Definition MSG_BAD_FILE : jsstring :=
  lit "Could not process the image file.".
Definition MSG_REMOVE_BACKGROUND_FAILED : jsstring :=
  lit "Sorry, the background could not be removed. This can happen with complex images. Please try again.".
Definition MSG_OUTLINE_FAILED : jsstring :=
  lit "Sorry, the outline could not be added. Please try different settings or another image.".

(** [`Failed to generate variation for: "${prompt}". Please try again.`] *)
Definition generationFailedMessage (prompt : jsstring) : jsstring :=
  lit "Failed to generate variation for: " ++ [DQUOTE] ++ prompt
    ++ [DQUOTE] ++ lit ". Please try again.".

Definition PNG_DATA_URL_PREFIX : jsstring := lit "data:image/png;base64,".

(** [variations.split('\n').map(p => p.trim()).filter(p => p.length > 0)] *)
Definition variationPrompts (variations : jsstring) : list jsstring :=
  filter (fun p => 0 < length p) (trim <$> split LF variations).

(** [`${Date.now()}-${i}`] *)
Definition imageId (now : Z) (i : nat) : jsstring :=
  ofZ now ++ [HYPHEN] ++ ofNat i.

(** ** Handlers of [App.tsx] *)

(** One awaited call to [generateVariation]: the state React shows while the
    call is in flight, the world it was issued in, the request, how it
    settled, and the world it left. *)
Module Call.
Record t (World : Type) := mk {
  shown : AppState;
  before : World;
  request : GenerateVariationParams.t;
  settled : Settled;
  after : World
}.
Arguments mk {World}.
Arguments shown {World}.
Arguments before {World}.
Arguments request {World}.
Arguments settled {World}.
Arguments after {World}.
End Call.

(** What a handler that may start a batch leaves behind. *)
Module Run.
Record t (World : Type) := mk {
  final : AppState;
  world : World;
  calls : list (Call.t World)
}.
Arguments mk {World}.
Arguments final {World}.
Arguments world {World}.
Arguments calls {World}.
End Run.

(** Whether the promise returned by an [async] handler is fulfilled or
    rejected. *)
Inductive Outcome := Fulfilled | Failed.

(** What a post-hoc edit handler leaves behind; [requests] are the images it
    sent to the generation client. *)
Module Edit.
Record t (World : Type) := mk {
  final : AppState;
  world : World;
  outcome : Outcome;
  requests : list ImageInput.t
}.
Arguments mk {World}.
Arguments final {World}.
Arguments world {World}.
Arguments outcome {World}.
Arguments requests {World}.
End Edit.

(** An edit handler up to its [await]: either it has already returned, or it
    is waiting for the generation client's answer to [input]. *)
Inductive EditStart :=
| Finished (st : AppState) (o : Outcome)
| Awaiting (input : ImageInput.t).

Section App.
Context {World : Type} {P : Platform World}.

(** The argument of [generateVariation] built in the loop body. [cl] is the
    render whose values the [useCallback] closure captured. *)
Definition requestFor (b : BaseImage.t) (cl : AppState) (prompt : jsstring)
  : GenerateVariationParams.t :=
  GenerateVariationParams.mk
    (ImageInput.mk (split COMMA (BaseImage.base64 b) !! 1)
                   (File.type (BaseImage.file b)))
    prompt
    (Colors.mk (primaryColor cl) (secondaryColor cl))
    (useStrictPalette cl) (consistencyLocks cl) (promptTuning cl).

(** The [for] loop of [executeGeneration], entered at index [i] with [rest]
    the prompts from index [i] on and [newImages] the local accumulator. *)
Fixpoint generationLoop (b : BaseImage.t) (cl : AppState) (total i : nat)
  (rest : list jsstring) (newImages : list GeneratedImage.t)
  (st : AppState) (w : World) : Run.t World :=
  match rest with
  | [] => Run.mk (setProgress None (setIsLoading false st)) w []
  | prompt :: rest' =>
      let st1 := setProgress (Some (Progress.mk (i + 1) total)) st in
      let req := requestFor b cl prompt in
      let answer := generateVariation req w in
      let call := Call.mk st1 w req answer.2 answer.1 in
      match answer.2 with
      | Resolved resultBase64 =>
          let newImages' :=
            newImages ++
            [GeneratedImage.mk (imageId (Date_now answer.1) i) prompt
               (PNG_DATA_URL_PREFIX ++ resultBase64)] in
          let st2 := setGeneratedImages newImages' st1 in
          let run :=
            generationLoop b cl total (S i) rest' newImages' st2 answer.1 in
          Run.mk (Run.final run) (Run.world run) (call :: Run.calls run)
      | Rejected _ =>
          Run.mk
            (setProgress None
               (setIsLoading false
                  (setError (Some (generationFailedMessage prompt)) st1)))
            answer.1 [call]
      end
  end.

(** [executeGeneration], called from the render [cl] when the pending state
    is [st]. *)
Definition executeGeneration (cl st : AppState) (w : World) : Run.t World :=
  match baseImage cl with
  | None => Run.mk (setError (Some MSG_NO_BASE_IMAGE) st) w []
  | Some b =>
      let prompts := variationPrompts (variations cl) in
      if bool_decide (length prompts = 0)
      then Run.mk (setError (Some MSG_NO_VARIATIONS) st) w []
      else
        let st1 :=
          setProgress (Some (Progress.mk 0 (length prompts)))
            (setGeneratedImages []
               (setError None (setIsLoading true st))) in
        generationLoop b cl (length prompts) 0 prompts [] st1 w
  end.

(** [[...new Set(variationPrompts.filter(v => !presets.includes(v)))]] *)
Definition newVariations (prompts presets : list jsstring) : list jsstring :=
  spreadSet (filter (fun v => includes presets v = false) prompts).

Definition handleGenerate (st : AppState) (w : World) : Run.t World :=
  match baseImage st with
  | None => Run.mk (setError (Some MSG_NO_BASE_IMAGE) st) w []
  | Some _ =>
      let prompts := variationPrompts (variations st) in
      if bool_decide (length prompts = 0)
      then Run.mk (setError (Some MSG_NO_VARIATIONS) st) w []
      else if bool_decide (30 < length prompts)
      then Run.mk (setError (Some MSG_BATCH_TOO_LARGE) st) w []
      else
        let news := newVariations prompts (presets st) in
        if bool_decide (0 < length news)
        then Run.mk (setSavePresetsConfirmation (Some news) st) w []
        else executeGeneration st st w
  end.

Definition handleConfirmSavePresets (st : AppState) (w : World)
  : Run.t World :=
  let st1 :=
    match savePresetsConfirmation st with
    | Some news => setPresets (spreadSet (presets st ++ news)) st
    | None => st
    end in
  executeGeneration st (setSavePresetsConfirmation None st1) w.

Definition handleDeclineSavePresets (st : AppState) (w : World)
  : Run.t World :=
  executeGeneration st (setSavePresetsConfirmation None st) w.

(** What the effect on [presets] writes to local storage (before
    [JSON.stringify]). *)
Definition customPresets (st : AppState) : list jsstring :=
  filter (fun p => includes INITIAL_PRESETS p = false) (presets st).

Definition handleDeleteImage (id : jsstring) (st : AppState) : AppState :=
  setGeneratedImages
    (filter (fun img => GeneratedImage.id img ≠ id) (images st)) st.

(** [{ ...img, base64 }] for the image called [id], [img] otherwise. *)
Definition replaceBase64 (id newBase64 : jsstring) (img : GeneratedImage.t)
  : GeneratedImage.t :=
  if bool_decide (GeneratedImage.id img = id)
  then GeneratedImage.mk (GeneratedImage.id img) (GeneratedImage.prompt img)
         newBase64
  else img.

Definition handleUpdateImageBase64 (id newBase64 : jsstring) (st : AppState)
  : AppState :=
  setGeneratedImages (replaceBase64 id newBase64 <$> images st) st.

(** The part that [handleRemoveBackground] and [handleAddOutline] share, up
    to their [await]: look the image up in the rendered collection and turn
    it into a file. A throwing [atob] rejects the handler's promise. *)
Definition editStart (id : jsstring) (st : AppState) : EditStart :=
  match find (fun img => bool_decide (GeneratedImage.id img = id)) (images st)
  with
  | None => Finished (setError (Some MSG_NOT_FOUND) st) Fulfilled
  | Some imageToUpdate =>
      match FileUtils.base64ToFile (GeneratedImage.base64 imageToUpdate)
              (lit "image.png") with
      | Throws => Finished st Failed
      | Returns None => Finished (setError (Some MSG_BAD_FILE) st) Fulfilled
      | Returns (Some imageFile) =>
          Awaiting
            (ImageInput.mk
               (split COMMA (GeneratedImage.base64 imageToUpdate) !! 1)
               (File.type imageFile))
      end
  end.

(** The rest of an edit handler, run on the state current when the remote
    call settles: commit the new image, or report [failed] and rethrow. *)
Definition editSettle (failed : jsstring) (id : jsstring) (r : Settled)
  (st : AppState) : AppState * Outcome :=
  match r with
  | Resolved resultBase64 =>
      (setGeneratedImages
         (replaceBase64 id (PNG_DATA_URL_PREFIX ++ resultBase64)
            <$> images st) st,
       Fulfilled)
  | Rejected _ => (setError (Some failed) st, Failed)
  end.

Definition handleRemoveBackground (id : jsstring) (st : AppState) (w : World)
  : Edit.t World :=
  match editStart id st with
  | Finished st' o => Edit.mk st' w o []
  | Awaiting input =>
      let answer := removeBackground input w in
      let done := editSettle MSG_REMOVE_BACKGROUND_FAILED id answer.2 st in
      Edit.mk done.1 answer.1 done.2 [input]
  end.

Definition handleAddOutline (id color : jsstring) (width : Z)
  (st : AppState) (w : World) : Edit.t World :=
  match editStart id st with
  | Finished st' o => Edit.mk st' w o []
  | Awaiting input =>
      let answer := addOutline input color width w in
      let done := editSettle MSG_OUTLINE_FAILED id answer.2 st in
      Edit.mk done.1 answer.1 done.2 [input]
  end.

End App.

(** ** Selection and focus ([components/OutputArea.tsx]) *)

Module OutputArea.

(** The [useState] slots of [OutputArea], and [effectDeps]: the address of
    the [generatedImages] array for which the selection effect last ran
    ([None] before the first render). *)
Record State := mk {
  selectedImages : gset jsstring;
  modalImageIndex : option Z;
  effectDeps : option nat
}.

Definition initial : State := mk ∅ None None.

Definition setSelectedImages (v : gset jsstring) (s : State) : State :=
  mk v (modalImageIndex s) (effectDeps s).

Definition setModalImageIndex (v : option Z) (s : State) : State :=
  mk (selectedImages s) v (effectDeps s).

(** [new Set(generatedImages.map(img => img.id))] *)
Definition allIds (imgs : list GeneratedImage.t) : gset jsstring :=
  list_to_set (GeneratedImage.id <$> imgs).

(** [useEffect(() => setSelectedImages(...), [generatedImages])], run after
    a render in which the prop is the array [arr]: the effect fires on the
    first render and whenever [arr] is not the array it last ran for. *)
Definition selectionEffect (arr : ImageArray.t) (s : State) : State :=
  if bool_decide (effectDeps s = Some (ImageArray.addr arr)) then s
  else mk (allIds (ImageArray.items arr)) (modalImageIndex s)
          (Some (ImageArray.addr arr)).

(** A render of [OutputArea] with the props of the application state. *)
Definition render (app : AppState) (s : State) : State :=
  selectionEffect (generatedImages app) s.

(** The successive renders of a batch run: one while each call is in
    flight, and one when the handler has returned. *)
Definition rendersOf {World : Type} (run : Run.t World) : list AppState :=
  (Call.shown <$> Run.calls run) ++ [Run.final run].

(** The component states after each of the renders [apps], in order. *)
Fixpoint renderEach (apps : list AppState) (s : State) : list State :=
  match apps with
  | [] => []
  | app :: apps' => render app s :: renderEach apps' (render app s)
  end.

Definition handleSelectImage (id : jsstring) (s : State) : State :=
  setSelectedImages
    (if bool_decide (id ∈ selectedImages s)
     then selectedImages s ∖ {[ id ]}
     else selectedImages s ∪ {[ id ]}) s.

(** [generatedImages.filter(img => selectedImages.has(img.id))] *)
Definition selectedImageData (app : AppState) (s : State)
  : list GeneratedImage.t :=
  filter (fun img => GeneratedImage.id img ∈ selectedImages s) (images app).

(** [generatedImages[i]], [undefined] outside the array. *)
Definition at_index (imgs : list GeneratedImage.t) (i : Z)
  : option GeneratedImage.t :=
  if bool_decide (0 ≤ i)%Z then imgs !! Z.to_nat i else None.

(** [currentImage]: the image shown in the detail view, if any. *)
Definition currentImage (app : AppState) (s : State)
  : option GeneratedImage.t :=
  match modalImageIndex s with
  | Some i => at_index (images app) i
  | None => None
  end.

(** The focus index designates an entry of the collection. *)
Definition focusInRange (app : AppState) (s : State) : Prop :=
  match modalImageIndex s with
  | Some i => (0 ≤ i < Z.of_nat (length (images app)))%Z
  | None => True
  end.

Definition handleDeleteFromModal (idToDelete : jsstring)
  (app : AppState) (s : State) : AppState * State :=
  let currentTotal := length (images app) in
  let app' := handleDeleteImage idToDelete app in
  if bool_decide (currentTotal ≤ 1) then (app', setModalImageIndex None s)
  else
    match modalImageIndex s with
    | Some i =>
        if bool_decide (Z.of_nat currentTotal - 1 ≤ i)%Z
        then (app', setModalImageIndex (Some (i - 1)%Z) s)
        else (app', s)
    | None => (app', s)
    end.

(** The delete button of the detail view: [onDelete(image.id)], where
    [image] is [currentImage]; the view is not mounted without one. *)
Definition deleteCurrent (app : AppState) (s : State) : AppState * State :=
  match currentImage app s with
  | Some image => handleDeleteFromModal (GeneratedImage.id image) app s
  | None => (app, s)
  end.

End OutputArea.

(** ** Vocabulary of the properties *)

(** [segs] are the lines of [s]: gluing them with line feeds gives [s] back
    and no line holds a line feed. *)
Definition linesOf (s : jsstring) (segs : list jsstring) : Prop :=
  segs ≠ [] ∧ join LF segs = s ∧ Forall (fun seg => LF ∉ seg) segs.

(** [t] is [line] without its leading and trailing white space. *)
Definition trimmedOf (line t : jsstring) : Prop :=
  ∃ pre post,
    line = pre ++ t ++ post
    ∧ Forall (fun c => isWhiteSpace c = true) pre
    ∧ Forall (fun c => isWhiteSpace c = true) post
    ∧ (∀ c, head t = Some c → isWhiteSpace c = false)
    ∧ (∀ c, last t = Some c → isWhiteSpace c = false).

Section Traces.
Context {World : Type} {P : Platform World}.

(** The calls [cs] were issued one after the other: each one in the world
    the previous one left, from [w] to [w']; and each is settled the way the
    generation client answered it. *)
Fixpoint sequential (w : World) (cs : list (Call.t World)) (w' : World)
  : Prop :=
  match cs with
  | [] => w = w'
  | c :: cs' =>
      Call.before c = w
      ∧ generateVariation (Call.request c) w = (Call.after c, Call.settled c)
      ∧ sequential (Call.after c) cs' w'
  end.

(** The image the loop builds at index [i] from a call that resolved. *)
Definition imageOf (i : nat) (c : Call.t World) : option GeneratedImage.t :=
  match Call.settled c with
  | Resolved resultBase64 =>
      Some (GeneratedImage.mk
              (imageId (Date_now (Call.after c)) i)
              (GenerateVariationParams.prompt (Call.request c))
              (PNG_DATA_URL_PREFIX ++ resultBase64))
  | Rejected _ => None
  end.

End Traces.

(** The images built from the calls [cs], the first of which has index
    [i]. *)
Fixpoint producedBy {World : Type} {P : Platform World} (i : nat)
  (cs : list (Call.t World)) : list GeneratedImage.t :=
  match cs with
  | [] => []
  | c :: cs' => option_list (imageOf i c) ++ producedBy (S i) cs'
  end.

Definition resolved {World : Type} (c : Call.t World) : Prop :=
  is_resolved (Call.settled c) = true.

Definition rejected {World : Type} (c : Call.t World) : Prop :=
  is_resolved (Call.settled c) = false.

(** The state in which [executeGeneration] enters its loop. *)
Definition loopEntry (total : nat) (st : AppState) : AppState :=
  setProgress (Some (Progress.mk 0 total))
    (setGeneratedImages [] (setError None (setIsLoading true st))).

(** [f] applied to every application state a run went through. *)
Definition onShown {World : Type} (f : AppState → AppState)
  (c : Call.t World) : Call.t World :=
  Call.mk (f (Call.shown c)) (Call.before c) (Call.request c)
    (Call.settled c) (Call.after c).

Definition onStates {World : Type} (f : AppState → AppState)
  (run : Run.t World) : Run.t World :=
  Run.mk (f (Run.final run)) (Run.world run) (onShown f <$> Run.calls run).

(** [st'] has the inputs of a batch that [st] has: base image, variations
    text and style constraints. *)
Definition sameInputs (st st' : AppState) : Prop :=
  baseImage st' = baseImage st
  ∧ variations st' = variations st
  ∧ primaryColor st' = primaryColor st
  ∧ secondaryColor st' = secondaryColor st
  ∧ useStrictPalette st' = useStrictPalette st
  ∧ consistencyLocks st' = consistencyLocks st
  ∧ promptTuning st' = promptTuning st.

(** The array in state was created before the next free address. *)
Definition wellFormed (st : AppState) : Prop :=
  ImageArray.addr (generatedImages st) < allocated st.

(** The selection effect has run for the array in state. *)
Definition synced (app : AppState) (s : OutputArea.State) : Prop :=
  OutputArea.effectDeps s = Some (ImageArray.addr (generatedImages app)).

(** The selection effect has run for the array in state and nothing has
    touched the selection since. *)
Definition inStep (app : AppState) (s : OutputArea.State) : Prop :=
  wellFormed app ∧ synced app s
  ∧ OutputArea.selectedImages s = OutputArea.allIds (images app).

(** The component is about to render [app]: the array it last ran its
    effect for, if any, is an array of the past, and if it is the array in
    state, the selection is the one the effect computed. *)
Definition viewReady (app : AppState) (s : OutputArea.State) : Prop :=
  wellFormed app
  ∧ match OutputArea.effectDeps s with
    | None => True
    | Some a =>
        a < allocated app
        ∧ (a = ImageArray.addr (generatedImages app) →
           OutputArea.selectedImages s = OutputArea.allIds (images app))
    end.

(** The component state after the renders [apps], in order. *)
Definition renderAll (apps : list AppState) (s : OutputArea.State)
  : OutputArea.State :=
  foldl (fun s' app => OutputArea.render app s') s apps.

(** The user toggling the selection of the entries [ids], last one first. *)
Definition toggled (ids : list jsstring) (s : OutputArea.State)
  : OutputArea.State :=
  foldr OutputArea.handleSelectImage s ids.

(** An edit that left [st] as it was, showed nothing and raised nothing. *)
Definition silentNoOp {World : Type} (st : AppState) (e : Edit.t World)
  : Prop :=
  images (Edit.final e) = images st
  ∧ error (Edit.final e) = error st
  ∧ Edit.outcome e = Fulfilled.

(** No two entries of the collection share an identifier. *)
Definition uniqueIds (st : AppState) : Prop :=
  NoDup (GeneratedImage.id <$> images st).

Section Reachable.
Context {World : Type} {P : Platform World}.

(** The application states that the handlers can produce from the initial
    one. [reach_other] stands for every setter that leaves the collection
    alone (typing in the variations box, picking colours, uploading a base
    image, ...) and [reach_cleared] for the upload handler's
    [setGeneratedImages([])]. *)
Inductive reachable : AppState → Prop :=
| reach_initial : reachable initialState
| reach_other st st' :
    reachable st →
    generatedImages st' = generatedImages st →
    allocated st' = allocated st →
    reachable st'
| reach_cleared st :
    reachable st → reachable (setGeneratedImages [] st)
| reach_run cl st w :
    reachable st → reachable (Run.final (executeGeneration cl st w))
| reach_delete id st :
    reachable st → reachable (handleDeleteImage id st)
| reach_update id newBase64 st :
    reachable st → reachable (handleUpdateImageBase64 id newBase64 st).

End Reachable.

(** ** A scripted platform, for examples *)

Module Scripted.

(** The world is the number of calls answered so far. A prompt that
    starts with the letter [x] is rejected, any other prompt resolves.
    The clock advances by one millisecond per call. *)
Definition answer (prompt : jsstring) : Settled :=
  match prompt with
  | 120%N :: _ => Rejected (lit "Failed to generate image.")
  | _ => Resolved (lit "iVBORw0KGgo=")
  end.

Definition platform : Platform nat := {|
  generateVariation := fun req w =>
    (S w, answer (GenerateVariationParams.prompt req));
  removeBackground := fun _ w => (S w, Resolved (lit "UklGRg=="));
  addOutline := fun _ _ _ w => (S w, Resolved (lit "R0lGODlh"));
  Date_now := fun w => (1762128000000 + Z.of_nat w)%Z;
  atob_ok := fun _ => true;
  File_type := fun t => t
|}.

Definition base : BaseImage.t :=
  BaseImage.mk (File.mk (lit "image/png"))
    (lit "data:image/png;base64,iVBORw0KGgo=").

(** A mounted application with a base image and [text] in the variations
    box. *)
Definition ready (text : jsstring) : AppState :=
  mkAppState (Some base) text (lit "#4F46E5") (lit "#10B981") true
    (ConsistencyLocks.mk true true true true true)
    (PromptTuning.mk 50 50) (ImageArray.mk 0 []) false None None
    INITIAL_PRESETS None 1.


(** A state whose collection holds [imgs]. *)
Definition holding (imgs : list GeneratedImage.t) : AppState :=
  setGeneratedImages imgs (ready []).

Definition img (id prompt : string) : GeneratedImage.t :=
  GeneratedImage.mk (lit id) (lit prompt)
    (lit "data:image/png;base64,iVBORw0KGgo=").

(** [n] copies of [line], each followed by a line feed. *)
Fixpoint repeatLine (n : nat) (line : jsstring) : jsstring :=
  match n with
  | 0 => []
  | S n' => line ++ LF :: repeatLine n' line
  end.

(** Three lines of which the second is rejected. *)
Definition secondFails : jsstring :=
  lit "happy grin" ++ [LF] ++ lit "xylophone solo" ++ [LF] ++ lit "winking".

(** Two lines around a blank one. *)
Definition blankMiddle : jsstring :=
  lit "happy grin" ++ [LF; LF] ++ lit "winking".

(** One line that is not a preset. *)
Definition newPhrase : jsstring := lit "juggling three oranges".

Definition first : GeneratedImage.t := img "1762128000001-0" "happy grin".
Definition second : GeneratedImage.t := img "1762128000002-1" "winking".
Definition third : GeneratedImage.t := img "1762128000003-2" "shocked".

Definition firstId : jsstring := lit "1762128000001-0".
Definition secondId : jsstring := lit "1762128000002-1".

(** Thirty-one lines. *)
Definition tooMany : jsstring := repeatLine 31 (lit "waving").

(** The detail view open on the entry at index [i], everything selected. *)
Definition focused (app : AppState) (i : Z) : OutputArea.State :=
  OutputArea.setModalImageIndex (Some i)
    (OutputArea.render app OutputArea.initial).

End Scripted.

(** Literals stay folded when handler bodies are simplified. *)
Arguments imageId : simpl never.
Arguments generationFailedMessage : simpl never.
Arguments requestFor : simpl never.
Arguments variationPrompts : simpl never.
Arguments ofZ : simpl never.
Arguments ofNat : simpl never.
Opaque lit PNG_DATA_URL_PREFIX INITIAL_PRESETS.
Opaque MSG_NO_BASE_IMAGE MSG_NO_VARIATIONS MSG_BATCH_TOO_LARGE.
Opaque MSG_NOT_FOUND MSG_BAD_FILE.
Opaque MSG_REMOVE_BACKGROUND_FAILED MSG_OUTLINE_FAILED.

(** ** Edits whose remote call is in flight while other handlers run *)

(** A background removal or an outline is invoked in one render and
    settles later. [cl] is the state of the render in which the handler
    was invoked: its closure holds that render's [generatedImages]. [st] is
    the state when the remote call settles: the functional update after a
    resolve, and the [setError] of the [catch] block, act on it. Anything
    may have happened in between, since the detail view keeps its delete
    button enabled while the call is in flight. *)
Section InFlight.
Context {World : Type} {P : Platform World}.

Definition removeBackgroundAcross (id : jsstring) (cl st : AppState)
  (w : World) : Edit.t World :=
  match editStart id cl with
  | Finished st' o => Edit.mk st' w o []
  | Awaiting input =>
      let answer := removeBackground input w in
      let done := editSettle MSG_REMOVE_BACKGROUND_FAILED id answer.2 st in
      Edit.mk done.1 answer.1 done.2 [input]
  end.

Definition addOutlineAcross (id color : jsstring) (width : Z)
  (cl st : AppState) (w : World) : Edit.t World :=
  match editStart id cl with
  | Finished st' o => Edit.mk st' w o []
  | Awaiting input =>
      let answer := addOutline input color width w in
      let done := editSettle MSG_OUTLINE_FAILED id answer.2 st in
      Edit.mk done.1 answer.1 done.2 [input]
  end.

End InFlight.

(** ** A platform whose generation client is out of reach, for examples *)

Module Offline.

(** Every call of the generation client is rejected with the message the
    client throws; the rest is as on the scripted platform. *)
Definition platform : Platform nat := {|
  generateVariation := fun _ w =>
    (S w,
     Rejected
       (lit "Failed to generate image. Please check your prompt or API key."));
  removeBackground := fun _ w =>
    (S w, Rejected (lit "Failed to remove background via API."));
  addOutline := fun _ _ _ w =>
    (S w, Rejected (lit "Failed to add outline via API."));
  Date_now := fun w => (1762128000000 + Z.of_nat w)%Z;
  atob_ok := fun _ => true;
  File_type := fun t => t
|}.

End Offline.

(** ** More of [App.tsx]: upload and persisted presets *)

Definition setBaseImage (v : option BaseImage.t) (st : AppState) : AppState :=
  mkAppState v (variations st) (primaryColor st)
    (secondaryColor st) (useStrictPalette st) (consistencyLocks st)
    (promptTuning st) (generatedImages st) (isLoading st)
    (progress st) (error st) (presets st) (savePresetsConfirmation st)
    (allocated st).

Definition setVariations (v : jsstring) (st : AppState) : AppState :=
  mkAppState (baseImage st) v (primaryColor st)
    (secondaryColor st) (useStrictPalette st) (consistencyLocks st)
    (promptTuning st) (generatedImages st) (isLoading st)
    (progress st) (error st) (presets st) (savePresetsConfirmation st)
    (allocated st).

Definition setPrimaryColor (v : jsstring) (st : AppState) : AppState :=
  mkAppState (baseImage st) (variations st) v
    (secondaryColor st) (useStrictPalette st) (consistencyLocks st)
    (promptTuning st) (generatedImages st) (isLoading st)
    (progress st) (error st) (presets st) (savePresetsConfirmation st)
    (allocated st).

Definition setSecondaryColor (v : jsstring) (st : AppState) : AppState :=
  mkAppState (baseImage st) (variations st) (primaryColor st)
    v (useStrictPalette st) (consistencyLocks st)
    (promptTuning st) (generatedImages st) (isLoading st)
    (progress st) (error st) (presets st) (savePresetsConfirmation st)
    (allocated st).

(** The initialiser of the [presets] slot. [stored] is what
    [JSON.parse(localStorage.getItem('roboAiPresets'))] yields when the key
    holds the JSON of an array of strings, and [None] when the key is
    absent or empty or when reading or parsing it throws. *)
Definition loadPresets (stored : option (list jsstring)) : list jsstring :=
  match stored with
  | Some parsed => spreadSet (INITIAL_PRESETS ++ parsed)
  | None => INITIAL_PRESETS
  end.

(** Regular expressions of the form [/(w1|w2|...)/i] whose words are ASCII
    letters. Without the [u] flag a code unit matches a pattern letter when
    their canonical forms agree, and the canonical form of a code unit
    outside ASCII is never an ASCII letter. *)
Module RegExp.

Definition toUpperAscii (c : N) : N :=
  if bool_decide (97 ≤ c ≤ 122)%N then (c - 32)%N else c.

Definition sameLetter (p c : N) : bool :=
  bool_decide (toUpperAscii c = toUpperAscii p).

(** [word] matches at the head of [s]. *)
Fixpoint matchesAt (word s : jsstring) : bool :=
  match word, s with
  | [], _ => true
  | _ :: _, [] => false
  | p :: word', c :: s' => sameLetter p c && matchesAt word' s'
  end.

(** [/(w1|w2|...)/i.test(s)]: some word matches at some position. *)
Fixpoint test (words : list jsstring) (s : jsstring) : bool :=
  existsb (fun word => matchesAt word s) words
  || match s with
     | [] => false
     | _ :: s' => test words s'
     end.

End RegExp.

(** The [File] handed to the upload handler: its [name], and the part of
    it that the rest of the code reads. *)
Module Upload.
Record t := mk { name : jsstring; file : File.t }.
End Upload.

(** What the upload handler leaves behind; [read] tells whether the file
    was handed to the file reader. *)
Module UploadRun.
Record t (World : Type) := mk {
  final : AppState;
  world : World;
  outcome : Outcome;
  read : bool
}.
Arguments mk {World}.
Arguments final {World}.
Arguments world {World}.
Arguments outcome {World}.
Arguments read {World}.
End UploadRun.

Definition ACCEPTED_TYPES : list jsstring :=
  lit <$> [ "image/png"; "image/jpeg"; "image/webp" ]%string.

Definition PHOTO_WORDS : list jsstring :=
  lit <$> [ "person"; "photo"; "selfie"; "portrait" ]%string.

Definition MSG_INVALID_FILE_TYPE : jsstring :=
  lit "Invalid file type. Please upload a PNG, JPG, or WebP file.".
Definition MSG_REAL_PERSON : jsstring :=
  lit "Real person photos are not supported. Please use an illustrated avatar or mascot.".

(** The browser facilities behind the remaining handlers: the file reader
    wrapped by [fileToBase64], [String.prototype.toLowerCase], and whether
    [localStorage.setItem] returns rather than throws. *)
Class Browser (World : Type) := {
  readAsDataURL : Upload.t → World → World * Settled;
  toLowerCase : jsstring → jsstring;
  setItem_ok : World → bool
}.

Section UploadHandler.
Context {World : Type} {B : Browser World}.

(** [fileToBase64]: the promise settles as the reader does. *)
Definition fileToBase64 (file : Upload.t) (w : World) : World * Settled :=
  readAsDataURL file w.

Definition handleImageUpload (file : Upload.t) (st : AppState) (w : World)
  : UploadRun.t World :=
  if negb (includes ACCEPTED_TYPES (File.type (Upload.file file)))
  then UploadRun.mk (setError (Some MSG_INVALID_FILE_TYPE) st) w
         Fulfilled false
  else if RegExp.test PHOTO_WORDS (Upload.name file)
  then UploadRun.mk (setError (Some MSG_REAL_PERSON) st) w Fulfilled false
  else
    let st1 := setError None st in
    let answer := fileToBase64 file w in
    match answer.2 with
    | Resolved base64 =>
        UploadRun.mk
          (setGeneratedImages []
             (setBaseImage (Some (BaseImage.mk (Upload.file file) base64))
                st1))
          answer.1 Fulfilled true
    | Rejected _ => UploadRun.mk st1 answer.1 Failed true
    end.

End UploadHandler.

(** ** More of [components/OutputArea.tsx]: next and previous *)

(** A JavaScript number that is an integer or [NaN]. *)
Module JsNumber.

Inductive t := Int (z : Z) | NaN.

(** [a % b] on integers: the remainder takes the sign of [a], and a zero
    divisor gives [NaN]. *)
Definition remainder (a b : Z) : t :=
  if bool_decide (b = 0)%Z then NaN else Int (Z.rem a b).

End JsNumber.

Module Navigation.

(** The updater of [handleNext]: [(prevIndex + 1) % length]. *)
Definition next (len : nat) (prev : JsNumber.t) : JsNumber.t :=
  match prev with
  | JsNumber.Int p => JsNumber.remainder (p + 1) (Z.of_nat len)
  | JsNumber.NaN => JsNumber.NaN
  end.

(** The updater of [handlePrevious]: [(prevIndex - 1 + length) % length]. *)
Definition previous (len : nat) (prev : JsNumber.t) : JsNumber.t :=
  match prev with
  | JsNumber.Int p => JsNumber.remainder (p - 1 + Z.of_nat len) (Z.of_nat len)
  | JsNumber.NaN => JsNumber.NaN
  end.

(** [handleNext] and [handlePrevious] on the [modalImageIndex] slot, with
    [len] the length of the collection in the render of the handler. *)
Definition handleNext (len : nat) (modalImageIndex : option JsNumber.t)
  : option JsNumber.t :=
  match modalImageIndex with
  | Some prev => Some (next len prev)
  | None => None
  end.

Definition handlePrevious (len : nat) (modalImageIndex : option JsNumber.t)
  : option JsNumber.t :=
  match modalImageIndex with
  | Some prev => Some (previous len prev)
  | None => None
  end.

(** The index designates an entry of a collection of [len] images. *)
Definition inRange (len : nat) (i : JsNumber.t) : Prop :=
  match i with
  | JsNumber.Int z => (0 ≤ z < Z.of_nat len)%Z
  | JsNumber.NaN => False
  end.

End Navigation.

(** ** More vocabulary *)

(** A request as the batch takes it: not empty, on one line, and with no
    white space at either end. *)
Definition cleanLine (p : jsstring) : Prop :=
  p ≠ [] ∧ (LF ∉ p)
  ∧ (∀ c, head p = Some c → isWhiteSpace c = false)
  ∧ (∀ c, last p = Some c → isWhiteSpace c = false).

(** A code unit that can stand in the media type of a data URL: not a
    semicolon, not a comma, not a line terminator. *)
Definition mediaTypeUnit (c : N) : Prop :=
  c ≠ SEMICOLON ∧ c ≠ COMMA ∧ isLineTerminator c = false.

(** [u] is [word] up to the case of its ASCII letters. *)
Definition sameWord (word u : jsstring) : Prop :=
  RegExp.toUpperAscii <$> u = RegExp.toUpperAscii <$> word.

(** The preset list starts with the built-in presets and repeats none. *)
Definition presetsShape (ps : list jsstring) : Prop :=
  (∃ custom, ps = INITIAL_PRESETS ++ custom) ∧ NoDup ps.

(** ** Sprite-sheet layout ([utils/fileUtils.ts], [createSpriteSheet]) *)

(** The numbers of the layout are integers; [Math.floor(a / b)] is then
    [a / b] rounded down, [Math.ceil(a / b)] is [a / b] rounded up, and
    [a % b] is the remainder with the sign of [a]. *)
Module SpriteSheet.

Record Frame := mkFrame { x : Z; y : Z; w : Z; h : Z }.

(** The size given to the canvas and the frame map, in insertion order. *)
Record Sheet := mk {
  sheetWidth : Z;
  sheetHeight : Z;
  map : list (jsstring * Frame)
}.

Definition DEFAULT_MAX_SHEET_WIDTH : Z := 4096.

(** [Math.ceil(a / b)] *)
Definition ceilQuot (a b : Z) : Z := (- ((- a) / b))%Z.

(** The body of the [forEach]: the key and the frame of image [index]. *)
Definition frameOf (framesPer_row frameWidth frameHeight : Z) (index : nat)
  : jsstring * Frame :=
  let col := Z.rem (Z.of_nat index) framesPer_row in
  let row := (Z.of_nat index / framesPer_row)%Z in
  (lit "frame_" ++ ofNat index,
   mkFrame (col * frameWidth) (row * frameHeight) frameWidth frameHeight).

(** The layout computed for [n] images. A zero [frameWidth], or one wider
    than the sheet, makes the source divide by zero; the layout is then not
    made of integers ([None]). *)
Definition createSpriteSheet (n : nat)
  (frameWidth frameHeight maxSheetWidth : Z) : option Sheet :=
  if bool_decide (frameWidth = 0)%Z then None
  else
    let framesPer_row := (maxSheetWidth / frameWidth)%Z in
    if bool_decide (framesPer_row = 0)%Z then None
    else
      let numRows := ceilQuot (Z.of_nat n) framesPer_row in
      Some (mk (framesPer_row * frameWidth) (numRows * frameHeight)
              (frameOf framesPer_row frameWidth frameHeight <$> seq 0 n)).

(** The layout asked for by the sprite-sheet view of [OutputArea.tsx]:
    [createSpriteSheet(images, 2048, 2048)]. *)
Definition viewSheet (n : nat) : option Sheet :=
  createSpriteSheet n 2048 2048 DEFAULT_MAX_SHEET_WIDTH.



End SpriteSheet.

(** ** The controls panel: preset toggles and templates *)

Module SavedTemplate.
Record t := mk {
  id : jsstring;
  name : jsstring;
  variations : jsstring;
  primaryColor : jsstring;
  secondaryColor : jsstring
}.
End SavedTemplate.

Module ControlsPanel.

(** [xs.indexOf(x)], [None] for [-1]. *)
Fixpoint indexOf (xs : list jsstring) (x : jsstring) : option nat :=
  match xs with
  | [] => None
  | y :: xs' => if bool_decide (y = x) then Some 0 else S <$> indexOf xs' x
  end.

(** [variations.split('\n').map(l => l.trim()).filter(Boolean)]: of
    strings, [Boolean] keeps the non-empty ones. *)
Definition linesOfBox (variations : jsstring) : list jsstring :=
  filter (fun l => l ≠ []) (trim <$> split LF variations).

(** The new value of the variations box after a click on [preset]. *)
Definition togglePreset (preset variations : jsstring) : jsstring :=
  let lines := linesOfBox variations in
  join LF
    match indexOf lines preset with
    | Some index => delete index lines
    | None => lines ++ [preset]
    end.


(** The [useState] slots of [ControlsPanel], and [stored], the templates
    last written under the key [roboAiTemplates] of local storage. *)
Record State := mk {
  savedTemplates : list SavedTemplate.t;
  isLoadModalOpen : bool;
  isSaveModalOpen : bool;
  stored : option (list SavedTemplate.t)
}.

Definition setIsLoadModalOpen (v : bool) (s : State) : State :=
  mk (savedTemplates s) v (isSaveModalOpen s) (stored s).

Definition setIsSaveModalOpen (v : bool) (s : State) : State :=
  mk (savedTemplates s) (isLoadModalOpen s) v (stored s).

Section Handlers.
Context {World : Type} {P : Platform World} {B : Browser World}.

(** [localStorage.setItem] then [setSavedTemplates]; a throwing [setItem]
    ends the handler. *)
Definition updateTemplatesInStorage (templates : list SavedTemplate.t)
  (s : State) (w : World) : Completion State :=
  if setItem_ok w
  then Returns (mk templates (isLoadModalOpen s) (isSaveModalOpen s)
                  (Some templates))
  else Throws.

(** [{ ...t, ...newTemplateData, name: trimmedName }] *)
Definition overwrite (trimmedName : jsstring) (app : AppState)
  (t : SavedTemplate.t) : SavedTemplate.t :=
  SavedTemplate.mk (SavedTemplate.id t) trimmedName (variations app)
    (primaryColor app) (secondaryColor app).

Definition sameName (trimmedName : jsstring) (t : SavedTemplate.t) : bool :=
  bool_decide (toLowerCase (SavedTemplate.name t) = toLowerCase trimmedName).

Definition handleSaveTemplate (name : jsstring) (app : AppState) (s : State)
  (w : World) : Completion State :=
  if bool_decide (name = []) || bool_decide (trim name = []) then Returns s
  else
    let trimmedName := trim name in
    let currentTemplates := savedTemplates s in
    let updated :=
      match find (sameName trimmedName) currentTemplates with
      | Some existingTemplate =>
          (fun t =>
             if bool_decide (SavedTemplate.id t
                             = SavedTemplate.id existingTemplate)
             then overwrite trimmedName app t else t) <$> currentTemplates
      | None =>
          currentTemplates ++
          [SavedTemplate.mk (ofZ (Date_now w)) trimmedName (variations app)
             (primaryColor app) (secondaryColor app)]
      end in
    match updateTemplatesInStorage updated s w with
    | Returns s' => Returns (setIsSaveModalOpen false s')
    | Throws => Throws
    end.

Definition handleLoadTemplate (template : SavedTemplate.t)
  (app : AppState) (s : State) : AppState * State :=
  (setSecondaryColor (SavedTemplate.secondaryColor template)
     (setPrimaryColor (SavedTemplate.primaryColor template)
        (setVariations (SavedTemplate.variations template) app)),
   setIsLoadModalOpen false s).

(** [confirmed] is the answer to the browser's [confirm] dialog. *)
Definition handleDeleteTemplate (templateId : jsstring) (confirmed : bool)
  (s : State) (w : World) : Completion State :=
  if confirmed
  then updateTemplatesInStorage
         (filter (fun t => SavedTemplate.id t ≠ templateId)
            (savedTemplates s)) s w
  else Returns s.

Definition handleClearVariations (app : AppState) : AppState :=
  setVariations [] app.

(** [nameExists] as [handleNameChange] of the save dialog computes it. *)
Definition nameExists (newName : jsstring)
  (templates : list SavedTemplate.t) : bool :=
  if bool_decide (trim newName = []) then false
  else existsb (sameName (trim newName)) templates.

End Handlers.

(** No two templates have names that agree up to letter case. *)
Definition uniqueNames {World : Type} {B : Browser World}
  (templates : list SavedTemplate.t) : Prop :=
  NoDup ((fun t => toLowerCase (SavedTemplate.name t)) <$> templates).

End ControlsPanel.

(** ** The generation client ([services/geminiService.ts]) *)

(** What the client touches of the [@google/genai] SDK. Every field of a
    response may be missing ([undefined]). *)
Module GenAI.

Record Blob := mkBlob { data : option jsstring; mimeType : option jsstring }.
Record Part := mkPart { inlineData : option Blob; text : option jsstring }.
Record Content := mkContent { parts : option (list Part) }.
Record Candidate := mkCandidate { content : option Content }.
Record Response := mkResponse { candidates : option (list Candidate) }.

Inductive Modality := TEXT | IMAGE | AUDIO.

Inductive RequestPart :=
| InlineData (data : option jsstring) (mimeType : jsstring)
| Text (text : jsstring).

Record Request := mkRequest {
  model : jsstring;
  contents : list RequestPart;
  responseModalities : list Modality
}.

End GenAI.

(** [ai.models.generateContent]: the remote model answers with a response,
    or the promise is rejected ([None]). *)
Class Models (World : Type) := {
  generateContent : GenAI.Request → World → World * option GenAI.Response
}.

Module Service.
Import GenAI.

(** What a [try] block can throw here. *)
Inductive Thrown :=
| TypeError
| Error (message : jsstring)
| Rejection.

Inductive Try (A : Type) :=
| Done (a : A)
| Raised (e : Thrown).
Arguments Done {A} a.
Arguments Raised {A} e.

(** How the promise of a client function settles; the value is
    [part.inlineData.data], which may be [undefined]. *)
Inductive Answer :=
| Resolves (value : option jsstring)
| Rejects (reason : jsstring).

Definition MODEL : jsstring := lit "gemini-2.5-flash-image".

Definition MSG_NO_IMAGE_VARIATION : jsstring :=
  lit "No image data found in the API response.".
Definition MSG_VARIATION_FAILED : jsstring :=
  lit "Failed to generate image. Please check your prompt or API key.".
Definition MSG_NO_IMAGE_BACKGROUND : jsstring :=
  lit "No image data found in API response for background removal.".
Definition MSG_BACKGROUND_FAILED : jsstring :=
  lit "Failed to remove background via API.".
Definition MSG_NO_IMAGE_OUTLINE : jsstring :=
  lit "No image data found in API response for adding outline.".
Definition MSG_OUTLINE_FAILED : jsstring :=
  lit "Failed to add outline via API.".

Definition getIntensityString (value : Z) : jsstring :=
  if bool_decide (value < 33)%Z then lit "subtle"
  else if bool_decide (value < 66)%Z then lit "moderate"
  else lit "exaggerated".

Definition getPropSizeString (value : Z) : jsstring :=
  if bool_decide (value < 33)%Z then lit "small"
  else if bool_decide (value < 66)%Z then lit "medium"
  else lit "large".

(** The texts sent to the model, code unit for code unit. *)

Definition strictPalette (colors : Colors.t) : jsstring :=
  List.concat [
    lit "- STRICTLY use ONLY the provided brand colors: Primary: ";
    Colors.primary colors;
    lit ", Secondary: ";
    Colors.secondary colors;
    lit ". Map all new elements and color accents to these colors." ].

Definition loosePalette (colors : Colors.t) : jsstring :=
  List.concat [
    lit "- HEAVILY FAVOR the brand colors (Primary: ";
    Colors.primary colors;
    lit ", Secondary: ";
    Colors.secondary colors;
    lit "), but allow for subtle, harmonious additions ONLY if absolutely ";
    lit "necessary for the requested variation." ].

Definition fullPrompt (params : GenerateVariationParams.t) : jsstring :=
  let prompt := GenerateVariationParams.prompt params in
  let colors := GenerateVariationParams.colors params in
  let useStrictPalette := GenerateVariationParams.useStrictPalette params in
  let consistencyLocks := GenerateVariationParams.consistencyLocks params in
  let promptTuning := GenerateVariationParams.promptTuning params in
  List.concat [
    [LF];
    lit "You are an expert illustrator's assistant. Your task is to ";
    lit "generate a variation of the provided base image based on a ";
    lit "specific request.";
    [LF];
    [LF];
    lit "**CRITICAL RULES:**";
    [LF];
    lit "1.  **Preserve Core Identity:** The output MUST be stylistically ";
    lit "identical to the base image. Maintain the exact character, art ";
    lit "style (e.g., flat, 3D, cel-shaded), line weight, proportions, and ";
    lit "overall feel. The output must look like it was drawn by the same ";
    lit "artist moments after the original.";
    [LF];
    lit "2.  **Apply ONLY the requested change.** Do not add, remove, or ";
    lit "change any other elements unless they are a direct consequence of ";
    lit "the main request (e.g., hand position changing when holding a ";
    lit "prop).";
    [LF];
    lit "3.  **Maintain Consistency Locks:** The following attributes MUST ";
    lit "remain IDENTICAL to the base image:";
    [LF];
    lit "    ";
    (if ConsistencyLocks.headAndFaceShape consistencyLocks
     then lit "- Head and Face Shape" else []);
    [LF];
    lit "    ";
    (if ConsistencyLocks.eyesStyle consistencyLocks
     then lit "- Eye Style (shape, color, pupils)" else []);
    [LF];
    lit "    ";
    (if ConsistencyLocks.mouthStyle consistencyLocks
     then lit "- Mouth Style (when in a neutral state)" else []);
    [LF];
    lit "    ";
    (if ConsistencyLocks.outlineThickness consistencyLocks
     then lit "- Outline Thickness and Style" else []);
    [LF];
    lit "    ";
    (if ConsistencyLocks.shadingStyle consistencyLocks
     then lit "- Shading and Highlight Style" else []);
    [LF];
    lit "4.  **Color Palette:**";
    [LF];
    lit "    ";
    (if useStrictPalette then strictPalette colors
     else loosePalette colors);
    [LF];
    lit "5.  **Output Format:** Generate a 2048x2048 PNG image. The ";
    lit "background MUST be transparent unless a background is explicitly ";
    lit "requested in the prompt with ";
    [DQUOTE];
    lit "Background:";
    [DQUOTE];
    lit ".";
    [LF];
    lit "6.  **No Text:** Do not generate any text, letters, or numbers ";
    lit "inside the illustration unless explicitly requested with ";
    [DQUOTE];
    lit "Text:";
    [DQUOTE];
    lit ".";
    [LF];
    lit "7.  **Quality:** Ensure crisp, clean edges. Avoid JPEG artifacts ";
    lit "or blurriness.";
    [LF];
    [LF];
    lit "**PROMPT TUNING:**";
    [LF];
    lit "- Expression Intensity: ";
    getIntensityString (PromptTuning.expressionIntensity promptTuning);
    [LF];
    lit "- Prop Size (if applicable): ";
    getPropSizeString (PromptTuning.propSize promptTuning);
    [LF];
    [LF];
    lit "**REQUESTED VARIATION:**";
    [LF];
    [DQUOTE];
    prompt;
    [DQUOTE];
    [LF] ].

Definition removeBackgroundPrompt : jsstring :=
  List.concat [
    lit "Please remove the background from this image. The new background ";
    lit "must be transparent. Preserve all details and edges of the ";
    lit "foreground subject." ].

Definition addOutlinePrompt (outlineColor : jsstring) (outlineWidth : Z)
  : jsstring :=
  List.concat [
    [LF];
    lit "You are an expert illustrator's assistant. Your task is to add a ";
    lit "clean, solid outline to the main subject of the provided image.";
    [LF];
    [LF];
    lit "**CRITICAL RULES:**";
    [LF];
    lit "1.  **Subject:** Add the outline ONLY to the main ";
    lit "character/subject in the image.";
    [LF];
    lit "2.  **Outline Color:** The outline color MUST be exactly ";
    outlineColor;
    lit ". Do not use any other color for the outline.";
    [LF];
    lit "3.  **Outline Thickness:** The outline should be a consistent ";
    ofZ outlineWidth;
    lit "px thick.";
    [LF];
    lit "4.  **Background:** The background MUST remain transparent. Do ";
    lit "not add any new background elements.";
    [LF];
    lit "5.  **Preserve Original:** Do not alter the original ";
    lit "illustration's colors, shading, or details in any way. Simply add ";
    lit "the outline around it.";
    [LF];
    lit "6.  **Output Format:** The output must be a PNG image with a ";
    lit "transparent background.";
    [LF] ].

(** [response.candidates[0].content.parts]; reading a property of
    [undefined] throws a [TypeError], and so does iterating over it. *)
Definition partsOf (response : Response) : Try (list Part) :=
  match candidates response with
  | None => Raised TypeError
  | Some cs =>
      match cs !! 0 with
      | None => Raised TypeError
      | Some candidate =>
          match content candidate with
          | None => Raised TypeError
          | Some c =>
              match parts c with
              | None => Raised TypeError
              | Some ps => Done ps
              end
          end
      end
  end.

(** The [for ... of] loop over the parts and the [throw] behind it. *)
Fixpoint forParts (noImage : jsstring) (ps : list Part)
  : Try (option jsstring) :=
  match ps with
  | [] => Raised (Error noImage)
  | part :: rest =>
      match inlineData part with
      | Some blob => Done (data blob)
      | None => forParts noImage rest
      end
  end.

(** The body of the [try] block once the request is built. *)
Definition tryBody (noImage : jsstring) (answer : option Response)
  : Try (option jsstring) :=
  match answer with
  | None => Raised Rejection
  | Some response =>
      match partsOf response with
      | Done ps => forParts noImage ps
      | Raised e => Raised e
      end
  end.

(** [catch (error) { console.error(...); throw new Error(failed) }] *)
Definition catchAll (failed : jsstring) (t : Try (option jsstring)) : Answer :=
  match t with
  | Done value => Resolves value
  | Raised _ => Rejects failed
  end.

Definition requestWith (image : ImageInput.t) (prompt : jsstring) : Request :=
  mkRequest MODEL
    [InlineData (ImageInput.data image) (ImageInput.mimeType image);
     Text prompt]
    [IMAGE].

Section Client.
Context {World : Type} {M : Models World}.

Definition generateVariation (params : GenerateVariationParams.t) (w : World)
  : World * Answer :=
  let request :=
    requestWith (GenerateVariationParams.baseImage params)
      (fullPrompt params) in
  let (w', answer) := generateContent request w in
  (w', catchAll MSG_VARIATION_FAILED (tryBody MSG_NO_IMAGE_VARIATION answer)).

Definition removeBackground (image : ImageInput.t) (w : World)
  : World * Answer :=
  let request := requestWith image removeBackgroundPrompt in
  let (w', answer) := generateContent request w in
  (w', catchAll MSG_BACKGROUND_FAILED
         (tryBody MSG_NO_IMAGE_BACKGROUND answer)).

Definition addOutline (image : ImageInput.t) (outlineColor : jsstring)
  (outlineWidth : Z) (w : World) : World * Answer :=
  let request :=
    requestWith image (addOutlinePrompt outlineColor outlineWidth) in
  let (w', answer) := generateContent request w in
  (w', catchAll MSG_OUTLINE_FAILED (tryBody MSG_NO_IMAGE_OUTLINE answer)).

End Client.

(** [value] is the data of the first part with inline data among the
    parts of the first candidate of [response]. *)
Definition firstImage (response : Response) (value : option jsstring) : Prop :=
  ∃ candidate others c ps k part blob,
    candidates response = Some (candidate :: others)
    ∧ content candidate = Some c
    ∧ parts c = Some ps
    ∧ ps !! k = Some part
    ∧ inlineData part = Some blob
    ∧ data blob = value
    ∧ ∀ j earlier, j < k → ps !! j = Some earlier → inlineData earlier = None.

(** How [result], the outcome of a client function in world [w], relates
    to the model's answer to [request] in [w]. *)
Definition answersTo {World : Type} {M : Models World} (request : Request)
  (failed : jsstring) (w : World) (result : World * Answer) : Prop :=
  result.1 = (generateContent request w).1
  ∧ match result.2 with
    | Resolves value =>
        ∃ response,
          (generateContent request w).2 = Some response
          ∧ firstImage response value
    | Rejects reason =>
        reason = failed
        ∧ ∀ response value,
            (generateContent request w).2 = Some response →
            ¬ firstImage response value
    end.

End Service.

(** ** Downloads ([components/OutputArea.tsx], [utils/fileUtils.ts]) *)

(** What a download handler does: nothing, one call of [downloadFile], or
    one call of [createZip] with an array of named payloads. The archive
    that [createZip] has JSZip build from that array is not modelled: JSZip
    files what it is given by name, so the array and the archive differ as
    soon as two items carry one name. *)
Module Download.
Record Item := mkItem { name : jsstring; data : option jsstring }.
Inductive t :=
| NoCall
| DownloadFile (dataUrl filename : jsstring)
| CreateZip (images : list Item).
End Download.

Module Downloads.

(** [`${img.prompt}.png`] *)
Definition pngName (img : GeneratedImage.t) : jsstring :=
  GeneratedImage.prompt img ++ lit ".png".

(** [{ name: `${img.prompt}.png`, data: img.base64.split(',')[1] }] *)
Definition zipItem (img : GeneratedImage.t) : Download.Item :=
  Download.mkItem (pngName img)
    (split COMMA (GeneratedImage.base64 img) !! 1).

Definition handleDownloadSelected (app : AppState) (s : OutputArea.State)
  : Download.t :=
  let selectedImageData := OutputArea.selectedImageData app s in
  if bool_decide (length selectedImageData = 0) then Download.NoCall
  else if bool_decide (length selectedImageData = 1) then
    match selectedImageData !! 0 with
    | Some img =>
        Download.DownloadFile (GeneratedImage.base64 img) (pngName img)
    | None => Download.NoCall
    end
  else Download.CreateZip (zipItem <$> selectedImageData).

Definition handleDownloadAll (app : AppState) : Download.t :=
  if bool_decide (length (images app) = 0) then Download.NoCall
  else Download.CreateZip (zipItem <$> images app).

End Downloads.

(** ** A scripted browser, for examples *)

Module Staged.

(** Lower case of the ASCII letters. *)
Definition lowerAscii (c : N) : N :=
  if ((65 <=? c) && (c <=? 90))%N then (c + 32)%N else c.

(** The world counts the reads. A file whose name starts with the letter
    [x] cannot be read; storage always has room. *)
Definition browser : Browser nat := {|
  readAsDataURL := fun file w =>
    (S w,
     match Upload.name file with
     | 120%N :: _ => Rejected (lit "NotReadableError")
     | _ => Resolved (lit "data:image/png;base64,iVBORw0KGgo=")
     end);
  toLowerCase := fmap lowerAscii;
  setItem_ok := fun _ => true
|}.

Definition mascot : Upload.t :=
  Upload.mk (lit "mascot.png") (File.mk (lit "image/png")).

Definition animation : Upload.t :=
  Upload.mk (lit "mascot.gif") (File.mk (lit "image/gif")).

Definition holiday : SavedTemplate.t :=
  SavedTemplate.mk (lit "1762041600000") (lit "Holiday")
    (lit "wearing a Santa hat") (lit "#B91C1C") (lit "#15803D").

Definition office : SavedTemplate.t :=
  SavedTemplate.mk (lit "1762041660000") (lit "Office")
    (lit "using a laptop") (lit "#4F46E5") (lit "#10B981").

(** The controls panel with its save dialog open. *)
Definition panel (templates : list SavedTemplate.t) : ControlsPanel.State :=
  ControlsPanel.mk templates false true (Some templates).

(** Lines of white space only. *)
Definition blankLines : jsstring := lit "   " ++ [LF] ++ lit "  ".

End Staged.

(** * Properties *)

(** ** Strings *)

Section StringFacts.

Lemma split_not_nil sep s : split sep s ≠ [].
Proof.
  destruct s as [|c s]; simpl; [done|].
  case_bool_decide; [done|]. by destruct (split sep s).
Qed.

Lemma join_cons sep seg segs :
  segs ≠ [] → join sep (seg :: segs) = seg ++ sep :: join sep segs.
Proof. by destruct segs. Qed.

Lemma join_split sep s : join sep (split sep s) = s.
Proof.
  induction s as [|c s IH]; [done|]. simpl.
  case_bool_decide as Hc.
  - subst c. rewrite join_cons by apply split_not_nil. by rewrite IH.
  - pose proof (split_not_nil sep s) as Hne.
    destruct (split sep s) as [|seg segs]; [done|].
    destruct segs as [|seg' segs].
    + simpl in *. by rewrite IH.
    + rewrite join_cons by done. rewrite join_cons in IH by done.
      rewrite <-IH. by rewrite <-app_comm_cons.
Qed.

Lemma split_no_sep sep s : Forall (fun seg => sep ∉ seg) (split sep s).
Proof.
  induction s as [|c s IH]; simpl.
  - repeat constructor. set_solver.
  - case_bool_decide as Hc.
    + constructor; [set_solver | done].
    + destruct (split sep s) as [|seg segs].
      * repeat constructor. set_solver.
      * inversion IH; subst. constructor; [|done]. set_solver.
Qed.

Lemma lines_split s : linesOf s (split LF s).
Proof.
  split; [apply split_not_nil|].
  split; [apply join_split | apply split_no_sep].
Qed.

(** The lines of a text are determined by it. *)
Lemma linesOf_unique s segs1 segs2 :
  linesOf s segs1 → linesOf s segs2 → segs1 = segs2.
Proof.
  intros (Hne1 & Hj1 & Hs1) (Hne2 & Hj2 & Hs2). subst s.
  revert segs2 Hne1 Hne2 Hj2 Hs2.
  induction Hs1 as [|seg1 rest1 Hseg1 Hrest1 IH]; [done|].
  intros segs2 _ Hne2 Hj Hs2.
  destruct Hs2 as [|seg2 rest2 Hseg2 Hrest2]; [done|].
  assert (Hhead : ∀ (a b : jsstring) (x y : list N),
             LF ∉ a → LF ∉ b → a ++ x = b ++ y →
             (x = [] ∨ ∃ x', x = LF :: x') → (y = [] ∨ ∃ y', y = LF :: y') →
             a = b ∧ x = y).
  { clear. induction a as [|c a IHa]; intros [|d b] x y Ha Hb Heq Hx Hy;
      simpl in *.
    - done.
    - subst x. destruct Hx as [?|[x' ?]]; [done|]. simplify_eq. set_solver.
    - subst y. destruct Hy as [?|[y' ?]]; [done|]. simplify_eq. set_solver.
    - simplify_eq. destruct (IHa b x y) as [-> ->]; auto; set_solver. }
  destruct rest1 as [|r1 rest1], rest2 as [|r2 rest2].
  - simpl in Hj. by subst.
  - rewrite join_cons in Hj by done. simpl in Hj.
    destruct (Hhead seg2 seg1 (LF :: join LF (r2 :: rest2)) []) as [_ ?];
      rewrite ?app_nil_r; eauto.
    done.
  - rewrite (join_cons _ seg1) in Hj by done. simpl in Hj.
    destruct (Hhead seg2 seg1 [] (LF :: join LF (r1 :: rest1))) as [_ ?];
      rewrite ?app_nil_r; eauto.
    done.
  - rewrite !join_cons in Hj by done.
    destruct (Hhead seg2 seg1 (LF :: join LF (r2 :: rest2))
                (LF :: join LF (r1 :: rest1))) as [-> Hrest]; eauto.
    f_equal. apply IH; [done|done|congruence|done].
Qed.

Lemma trimStart_prefix s :
  ∃ pre, s = pre ++ trimStart s ∧ Forall (fun c => isWhiteSpace c = true) pre.
Proof.
  induction s as [|c s (pre & Hs & Hpre)]; [by exists []|]. simpl.
  destruct (isWhiteSpace c) eqn:Hc.
  - exists (c :: pre). split; [by rewrite Hs at 1 | by constructor].
  - by exists [].
Qed.

Lemma trimStart_head s c :
  head (trimStart s) = Some c → isWhiteSpace c = false.
Proof.
  induction s as [|d s IH]; [done|]. simpl.
  destruct (isWhiteSpace d) eqn:Hd; [done|]. simpl. congruence.
Qed.

Lemma trim_trimmedOf line : trimmedOf line (trim line).
Proof.
  destruct (trimStart_prefix line) as (pre & Hline & Hpre).
  destruct (trimStart_prefix (reverse (trimStart line)))
    as (post & Hrev & Hpost).
  assert (Hmid : trimStart line = trim line ++ reverse post).
  { unfold trim, trimEnd. rewrite <-reverse_app, <-Hrev.
    by rewrite reverse_involutive. }
  exists pre, (reverse post). repeat split.
  - by rewrite <-Hmid.
  - done.
  - by apply Forall_reverse.
  - intros c Hc. apply (trimStart_head line).
    rewrite Hmid. by destruct (trim line).
  - intros c Hc. unfold trim, trimEnd in Hc. rewrite last_reverse in Hc.
    by apply trimStart_head in Hc.
Qed.

(** What remains of a line once trimmed is determined by the line. *)
Lemma trimmedOf_unique line t1 t2 :
  trimmedOf line t1 → trimmedOf line t2 → t1 = t2.
Proof.
  assert (Hfront : ∀ (pre1 pre2 r1 r2 : jsstring),
             Forall (fun c => isWhiteSpace c = true) pre1 →
             Forall (fun c => isWhiteSpace c = true) pre2 →
             (∀ c, head r1 = Some c → isWhiteSpace c = false) →
             (∀ c, head r2 = Some c → isWhiteSpace c = false) →
             r1 ≠ [] → r2 ≠ [] →
             pre1 ++ r1 = pre2 ++ r2 → r1 = r2).
  { induction pre1 as [|c pre1 IH]; intros [|d pre2] r1 r2 H1 H2 Hr1 Hr2 N1 N2 Heq;
      simpl in *.
    - done.
    - destruct r1 as [|c r1]; [done|]. simplify_eq.
      inversion H2; subst. specialize (Hr1 _ eq_refl). congruence.
    - destruct r2 as [|d r2]; [done|]. simplify_eq.
      inversion H1; subst. specialize (Hr2 _ eq_refl). congruence.
    - simplify_eq. inversion H1; inversion H2; subst. eauto. }
  intros (pre1 & post1 & E1 & Hpre1 & Hpost1 & Hh1 & Hl1)
         (pre2 & post2 & E2 & Hpre2 & Hpost2 & Hh2 & Hl2).
  assert (Hall : ∀ (t pre post : jsstring),
             line = pre ++ t ++ post →
             Forall (fun c => isWhiteSpace c = true) pre →
             Forall (fun c => isWhiteSpace c = true) post →
             t = [] → Forall (fun c => isWhiteSpace c = true) line).
  { intros t pre post -> ? ? ->. simpl. by apply Forall_app. }
  assert (Hnot : ∀ (t pre post : jsstring),
             line = pre ++ t ++ post →
             (∀ c, head t = Some c → isWhiteSpace c = false) →
             t ≠ [] → ¬ Forall (fun c => isWhiteSpace c = true) line).
  { intros [|c t] pre post -> Hh Hne Hf; [done|].
    apply Forall_app in Hf as [_ Hf]. inversion Hf; subst.
    specialize (Hh _ eq_refl). congruence. }
  destruct (decide (t1 = [])) as [Ht1|Ht1], (decide (t2 = [])) as [Ht2|Ht2].
  - congruence.
  - destruct (Hnot t2 pre2 post2); eauto.
  - destruct (Hnot t1 pre1 post1); eauto.
  - assert (Hr : t1 ++ post1 = t2 ++ post2).
    { apply (Hfront pre1 pre2); try done.
      + intros c. destruct t1; [done|]. apply Hh1.
      + intros c. destruct t2; [done|]. apply Hh2.
      + by destruct t1.
      + by destruct t2.
      + congruence. }
    apply (f_equal reverse) in Hr. rewrite !reverse_app in Hr.
    apply (inj reverse).
    apply (Hfront (reverse post1) (reverse post2)); try done.
    + by apply Forall_reverse.
    + by apply Forall_reverse.
    + intros c. rewrite head_reverse. apply Hl1.
    + intros c. rewrite head_reverse. apply Hl2.
    + intros E. apply (f_equal reverse) in E.
      by rewrite reverse_involutive in E.
    + intros E. apply (f_equal reverse) in E.
      by rewrite reverse_involutive in E.
Qed.

End StringFacts.

(** ** The generation loop *)

Section LoopFacts.
Context {World : Type} {P : Platform World}.
Implicit Types (b : BaseImage.t) (cl st : AppState) (w : World).
Implicit Types (rest : list jsstring) (acc : list GeneratedImage.t).

Local Ltac loop_step w1 :=
  simpl;
  match goal with
  | |- context [generateVariation ?req ?w] =>
      let d := fresh "resultBase64" in
      let e := fresh "reason" in
      let E := fresh "Eanswer" in
      destruct (generateVariation req w) as [w1 [d|e]] eqn:E; simpl
  end.

(** The loop never issues more calls than there are prompts left. *)
Lemma loop_calls_length b cl total rest : ∀ i acc st w,
  length (Run.calls (generationLoop b cl total i rest acc st w))
  ≤ length rest.
Proof.
  induction rest as [|prompt rest IH]; intros i acc st w; [done|].
  loop_step w1; [|lia]. apply le_n_S, IH.
Qed.

(** The requests issued are those of the prompts, in order. *)
Lemma loop_requests b cl total rest : ∀ i acc st w,
  Call.request <$> Run.calls (generationLoop b cl total i rest acc st w)
  = take (length (Run.calls (generationLoop b cl total i rest acc st w)))
      (requestFor b cl <$> rest).
Proof.
  induction rest as [|prompt rest IH]; intros i acc st w; [done|].
  loop_step w1; [|done]. f_equal. apply IH.
Qed.

(** Each call is issued in the world the previous one left. *)
Lemma loop_sequential b cl total rest : ∀ i acc st w,
  sequential w (Run.calls (generationLoop b cl total i rest acc st w))
    (Run.world (generationLoop b cl total i rest acc st w)).
Proof.
  induction rest as [|prompt rest IH]; intros i acc st w; [done|].
  loop_step w1; [|done]. split; [done|]. split; [done|]. apply IH.
Qed.

(** Either every call resolved and every prompt was tried, or the last call
    issued is the only one that was rejected. *)
Lemma loop_shape b cl total rest : ∀ i acc st w,
  let cs := Run.calls (generationLoop b cl total i rest acc st w) in
  (Forall resolved cs ∧ length cs = length rest)
  ∨ (∃ cs' c, cs = cs' ++ [c] ∧ Forall resolved cs' ∧ rejected c).
Proof.
  induction rest as [|prompt rest IH]; intros i acc st w.
  { left. by split. }
  loop_step w1.
  - match goal with
    | |- context [generationLoop b cl total (S i) rest ?a ?s ?w'] =>
        destruct (IH (S i) a s w')
          as [[Hall Hlen]|(cs' & c & Hcs & Hall & Hrej)]
    end.
    + left. split; [|by rewrite Hlen]. by constructor.
    + right. eexists (_ :: cs'), c. rewrite Hcs. split; [done|].
      split; [by constructor | done].
  - right. eexists [], _. split; [done|]. by split.
Qed.

(** The collection ends up holding what the loop accumulated. *)
Lemma loop_images b cl total rest : ∀ i acc st w,
  images st = acc →
  images (Run.final (generationLoop b cl total i rest acc st w))
  = acc ++ producedBy i
             (Run.calls (generationLoop b cl total i rest acc st w)).
Proof.
  induction rest as [|prompt rest IH]; intros i acc st w Hacc.
  { simpl. by rewrite app_nil_r. }
  loop_step w1.
  - rewrite IH by done. unfold imageOf. simpl.
    by rewrite <-app_assoc.
  - unfold imageOf. simpl. by rewrite app_nil_r.
Qed.

(** While call number [k] of the loop is in flight, the progress shown is
    [(i + k + 1, total)] and the collection shown holds what the earlier
    calls produced. *)
Lemma loop_shown b cl total rest : ∀ i acc st w k c,
  images st = acc →
  Run.calls (generationLoop b cl total i rest acc st w) !! k = Some c →
  progress (Call.shown c) = Some (Progress.mk (i + k + 1) total)
  ∧ images (Call.shown c)
    = acc ++ producedBy i
               (take k (Run.calls
                          (generationLoop b cl total i rest acc st w))).
Proof.
  induction rest as [|prompt rest IH]; intros i acc st w k c Hacc; [done|].
  loop_step w1.
  - destruct k as [|k]; simpl.
    + intros [= <-]. simpl. rewrite app_nil_r.
      split; [do 2 f_equal; lia | done].
    + intros Hk. eapply IH in Hk as [Hp Hi]; [|done].
      rewrite Hp, Hi. unfold imageOf. simpl. rewrite <-app_assoc.
      split; [do 2 f_equal; lia | done].
  - destruct k as [|k]; simpl; [|done].
    intros [= <-]. simpl. rewrite app_nil_r.
    split; [do 2 f_equal; lia | done].
Qed.

(** When every call resolved, the loop leaves the error slot as it found it
    and clears the loading state. *)
Lemma loop_final_resolved b cl total rest : ∀ i acc st w,
  Forall resolved (Run.calls (generationLoop b cl total i rest acc st w)) →
  error (Run.final (generationLoop b cl total i rest acc st w)) = error st
  ∧ progress (Run.final (generationLoop b cl total i rest acc st w)) = None
  ∧ isLoading (Run.final (generationLoop b cl total i rest acc st w)) = false.
Proof.
  induction rest as [|prompt rest IH]; intros i acc st w; [done|].
  loop_step w1.
  - intros Hall. inversion Hall; subst. by apply IH in H2.
  - intros Hall. inversion Hall; subst. done.
Qed.

(** When the last call was rejected, the loop names its prompt in the error,
    clears the loading state, and leaves the collection as it was shown
    while that call was in flight. *)
Lemma loop_final_rejected b cl total rest : ∀ i acc st w cs' c,
  Run.calls (generationLoop b cl total i rest acc st w) = cs' ++ [c] →
  rejected c →
  error (Run.final (generationLoop b cl total i rest acc st w))
  = Some (generationFailedMessage
            (GenerateVariationParams.prompt (Call.request c)))
  ∧ progress (Run.final (generationLoop b cl total i rest acc st w)) = None
  ∧ isLoading (Run.final (generationLoop b cl total i rest acc st w)) = false
  ∧ generatedImages (Run.final (generationLoop b cl total i rest acc st w))
    = generatedImages (Call.shown c).
Proof.
  induction rest as [|prompt rest IH]; intros i acc st w cs' c.
  { simpl. by destruct cs'. }
  loop_step w1.
  - intros Hcs Hrej. destruct cs' as [|c' cs'].
    + simplify_eq/=. unfold rejected in Hrej. simpl in Hrej. done.
    + simplify_eq/=. by eapply IH.
  - intros Hcs Hrej. destruct cs' as [|c' cs'].
    + by simplify_eq/=.
    + simplify_eq/=. by destruct cs'.
Qed.

End LoopFacts.

(** ** Batch runs *)

Section BatchFacts.
Context {World : Type} {P : Platform World}.
Implicit Types (b : BaseImage.t) (cl st : AppState) (w : World).

Lemma executeGeneration_loop b cl st w :
  baseImage cl = Some b →
  variationPrompts (variations cl) ≠ [] →
  executeGeneration cl st w
  = generationLoop b cl (length (variationPrompts (variations cl))) 0
      (variationPrompts (variations cl)) []
      (loopEntry (length (variationPrompts (variations cl))) st) w.
Proof.
  intros Hb Hne. unfold executeGeneration. rewrite Hb.
  case_bool_decide as Hlen; [|done].
  by destruct (variationPrompts (variations cl)).
Qed.

Lemma executeGeneration_no_prompts b cl st w :
  baseImage cl = Some b →
  variationPrompts (variations cl) = [] →
  executeGeneration cl st w
  = Run.mk (setError (Some MSG_NO_VARIATIONS) st) w [].
Proof.
  intros Hb Hnil. unfold executeGeneration. rewrite Hb, Hnil.
  by case_bool_decide.
Qed.

Lemma executeGeneration_no_base cl st w :
  baseImage cl = None →
  executeGeneration cl st w
  = Run.mk (setError (Some MSG_NO_BASE_IMAGE) st) w [].
Proof. intros Hb. unfold executeGeneration. by rewrite Hb. Qed.

(** A call that resolved produces exactly one image, with the prompt of its
    request. *)
Lemma producedBy_resolved (cs : list (Call.t World)) : ∀ i,
  Forall resolved cs →
  GeneratedImage.prompt <$> producedBy i cs
  = (fun c => GenerateVariationParams.prompt (Call.request c)) <$> cs.
Proof.
  induction cs as [|c cs IH]; intros i Hall; [done|].
  inversion Hall as [|? ? Hc Hcs]; subst. simpl.
  unfold imageOf. unfold resolved in Hc.
  destruct (Call.settled c); [|done]. simpl. f_equal. by apply IH.
Qed.

Lemma producedBy_length (cs : list (Call.t World)) i :
  Forall resolved cs → length (producedBy i cs) = length cs.
Proof.
  intros Hall. rewrite <-(length_fmap GeneratedImage.prompt).
  rewrite producedBy_resolved by done. by rewrite length_fmap.
Qed.

Lemma producedBy_app (cs1 cs2 : list (Call.t World)) : ∀ i,
  producedBy i (cs1 ++ cs2)
  = producedBy i cs1 ++ producedBy (i + length cs1) cs2.
Proof.
  induction cs1 as [|c cs1 IH]; intros i; simpl.
  - by rewrite Nat.add_0_r.
  - rewrite IH, <-app_assoc. do 3 f_equal. lia.
Qed.

Lemma producedBy_rejected i (c : Call.t World) :
  rejected c → producedBy i [c] = [].
Proof.
  unfold rejected. simpl. unfold imageOf. by destruct (Call.settled c).
Qed.

(** In a run, a rejected call is the last one and all earlier ones
    resolved. *)
Lemma rejected_is_last (cs : list (Call.t World)) i c :
  (Forall resolved cs
   ∨ ∃ cs' c', cs = cs' ++ [c'] ∧ Forall resolved cs' ∧ rejected c') →
  cs !! i = Some c → rejected c →
  cs = take i cs ++ [c] ∧ Forall resolved (take i cs) ∧ length cs = i + 1.
Proof.
  unfold rejected, resolved. intros [Hall|(cs' & c' & -> & Hall & Hrej)] Hi Hc.
  - rewrite Forall_lookup in Hall. specialize (Hall _ _ Hi). congruence.
  - destruct (decide (i < length cs')) as [Hlt|Hge].
    + rewrite lookup_app_l in Hi by done.
      rewrite Forall_lookup in Hall. specialize (Hall _ _ Hi). congruence.
    + apply lookup_lt_Some in Hi as Hlen. rewrite length_app in Hlen.
      simpl in Hlen. assert (i = length cs') as -> by lia.
      rewrite lookup_app_r, Nat.sub_diag in Hi by done. simplify_eq/=.
      rewrite take_app_length. rewrite length_app. simpl. done.
Qed.

(** The prompts of the requests issued are the leading prompts. *)
Lemma requests_prompts b cl (prompts : list jsstring)
  (cs : list (Call.t World)) :
  Call.request <$> cs = take (length cs) (requestFor b cl <$> prompts) →
  (fun c => GenerateVariationParams.prompt (Call.request c)) <$> cs
  = take (length cs) prompts.
Proof.
  intros Hreq.
  transitivity (GenerateVariationParams.prompt <$> (Call.request <$> cs)).
  { by rewrite <-list_fmap_compose. }
  rewrite Hreq, <-fmap_take, <-list_fmap_compose.
  by rewrite list_fmap_id.
Qed.

End BatchFacts.

Section BatchClaims.
Context {World : Type} {P : Platform World}.
Implicit Types (b : BaseImage.t) (cl st : AppState) (w : World).

Lemma executeGeneration_requests b cl st w :
  baseImage cl = Some b →
  Call.request <$> Run.calls (executeGeneration cl st w)
  = take (length (Run.calls (executeGeneration cl st w)))
      (requestFor b cl <$> variationPrompts (variations cl)).
Proof.
  intros Hb. destruct (decide (variationPrompts (variations cl) = [])) as [E|E].
  - by rewrite (executeGeneration_no_prompts b).
  - rewrite (executeGeneration_loop b) by done. apply loop_requests.
Qed.

Lemma executeGeneration_sequential cl st w :
  sequential w (Run.calls (executeGeneration cl st w))
    (Run.world (executeGeneration cl st w)).
Proof.
  destruct (baseImage cl) as [b|] eqn:Hb.
  - destruct (decide (variationPrompts (variations cl) = [])) as [E|E].
    + by rewrite (executeGeneration_no_prompts b).
    + rewrite (executeGeneration_loop b) by done. apply loop_sequential.
  - by rewrite executeGeneration_no_base.
Qed.

Lemma executeGeneration_shape b cl st w :
  baseImage cl = Some b →
  let cs := Run.calls (executeGeneration cl st w) in
  (Forall resolved cs ∧ length cs = length (variationPrompts (variations cl)))
  ∨ (∃ cs' c, cs = cs' ++ [c] ∧ Forall resolved cs' ∧ rejected c).
Proof.
  intros Hb. destruct (decide (variationPrompts (variations cl) = [])) as [E|E].
  - rewrite (executeGeneration_no_prompts b) by done. rewrite E. by left.
  - rewrite (executeGeneration_loop b) by done. apply loop_shape.
Qed.

Lemma executeGeneration_calls_length cl st w :
  length (Run.calls (executeGeneration cl st w))
  ≤ length (variationPrompts (variations cl)).
Proof.
  destruct (baseImage cl) as [b|] eqn:Hb.
  - destruct (decide (variationPrompts (variations cl) = [])) as [E|E].
    + rewrite (executeGeneration_no_prompts b) by done. simpl. lia.
    + rewrite (executeGeneration_loop b) by done. apply loop_calls_length.
  - rewrite executeGeneration_no_base by done. simpl. lia.
Qed.

(** C1. With a base image present and [K] prompts left after the split,
    trim and filter (whatever [K] is, so in particular for 1 <= K <= 30), a
    batch run issues its generation calls one at a time and in list order:
    the requests issued are the leading requests of the list, each call
    starts in the world the previous one left, there are exactly [K] calls
    when all of them resolve, and exactly [i + 1] when call [i] is rejected
    (every earlier call having resolved), so that no request after index
    [i] is attempted. *)
Theorem C1_calls_sequential_in_list_order b cl st w :
  baseImage cl = Some b →
  let prompts := variationPrompts (variations cl) in
  let cs := Run.calls (executeGeneration cl st w) in
  Call.request <$> cs = take (length cs) (requestFor b cl <$> prompts)
  ∧ sequential w cs (Run.world (executeGeneration cl st w))
  ∧ (Forall resolved cs → length cs = length prompts)
  ∧ (∀ i c, cs !! i = Some c → rejected c →
       length cs = i + 1 ∧ i < length prompts
       ∧ Forall resolved (take i cs))
  ∧ (length cs = length prompts ∨ ∃ c, last cs = Some c ∧ rejected c).
Proof.
  intros Hb prompts cs.
  pose proof (executeGeneration_shape b cl st w Hb) as Hshape.
  pose proof (executeGeneration_calls_length cl st w) as Hle.
  fold cs prompts in Hshape, Hle. simpl in Hshape.
  split; [by apply executeGeneration_requests|].
  split; [apply executeGeneration_sequential|].
  split; [|split].
  - intros Hall. destruct Hshape as [[_ ?]|(cs' & c & Hcs & _ & Hrej)]; [done|].
    rewrite Hcs in Hall. apply Forall_app in Hall as [_ Hc].
    inversion Hc; subst. unfold resolved, rejected in *. congruence.
  - intros i c Hi Hrej.
    destruct (rejected_is_last cs i c) as (_ & Hres & Hlen); try done.
    { destruct Hshape as [[? _]|?]; [by left | by right]. }
    split; [done|]. split; [lia | done].
  - destruct Hshape as [[_ ?]|(cs' & c & Hcs & _ & Hrej)]; [by left|].
    right. exists c. split; [|done]. rewrite Hcs. apply last_snoc.
Qed.


Lemma generationFailedMessage_names prompt :
  substring_of prompt (generationFailedMessage prompt).
Proof.
  exists (lit "Failed to generate variation for: " ++ [DQUOTE]),
         ([DQUOTE] ++ lit ". Please try again.").
  unfold generationFailedMessage. by rewrite <-!app_assoc.
Qed.

Lemma loopEntry_images total st : images (loopEntry total st) = [].
Proof. done. Qed.

(** C2. When call [i] of a batch run is rejected, the run stops there: the
    call was for prompt [i] of the list and is the last one issued, the
    error shown is the failure message built around that prompt (which
    therefore contains the prompt text), progress is cleared and loading is
    over, and the collection is the very array that was shown while the call
    was in flight, holding the [i] images of the earlier calls. *)
Theorem C2_rejected_call_aborts_and_keeps_results b cl st w i c :
  baseImage cl = Some b →
  Run.calls (executeGeneration cl st w) !! i = Some c →
  rejected c →
  let run := executeGeneration cl st w in
  let prompt := GenerateVariationParams.prompt (Call.request c) in
  variationPrompts (variations cl) !! i = Some prompt
  ∧ length (Run.calls run) = i + 1
  ∧ error (Run.final run) = Some (generationFailedMessage prompt)
  ∧ substring_of prompt (generationFailedMessage prompt)
  ∧ progress (Run.final run) = None
  ∧ isLoading (Run.final run) = false
  ∧ generatedImages (Run.final run) = generatedImages (Call.shown c)
  ∧ images (Run.final run) = producedBy 0 (take i (Run.calls run))
  ∧ length (images (Run.final run)) = i.
Proof.
  intros Hb Hi Hrej run prompt.
  pose proof (executeGeneration_shape b cl st w Hb) as Hshape.
  pose proof (executeGeneration_requests b cl st w Hb) as Hreq.
  simpl in Hshape. fold run in Hshape, Hreq, Hi.
  destruct (rejected_is_last (Run.calls run) i c) as (Hcs & Hres & Hlen);
    try done.
  { destruct Hshape as [[? _]|?]; [by left | by right]. }
  assert (Hne : variationPrompts (variations cl) ≠ []).
  { intros E. unfold run in Hi.
    by rewrite (executeGeneration_no_prompts b) in Hi. }
  apply requests_prompts in Hreq.
  assert (Hprompt : variationPrompts (variations cl) !! i = Some prompt).
  { apply (f_equal (fun l => l !! i)) in Hreq.
    rewrite list_lookup_fmap, Hi in Hreq. simpl in Hreq.
    rewrite lookup_take_lt in Hreq by lia. done. }
  assert (Himgs : images (Run.final run)
                  = producedBy 0 (take i (Run.calls run))).
  { unfold run at 1. rewrite (executeGeneration_loop b) by done.
    rewrite (loop_images _ _ _ _ _ []) by apply loopEntry_images.
    rewrite <-(executeGeneration_loop b) by done. fold run.
    rewrite Hcs at 1. rewrite producedBy_app, producedBy_rejected by done.
    by rewrite app_nil_r. }
  unfold run in Hcs. rewrite (executeGeneration_loop b) in Hcs by done.
  destruct (loop_final_rejected _ _ _ _ _ _ _ _ _ _ Hcs Hrej)
    as (Herr & Hprog & Hload & Harr).
  rewrite <-(executeGeneration_loop b) in Herr, Hprog, Hload, Harr by done.
  fold run in Herr, Hprog, Hload, Harr.
  repeat split; try done.
  - apply generationFailedMessage_names.
  - rewrite Himgs, producedBy_length by done.
    rewrite length_take. lia.
Qed.

(** C3. The request list is the input split into lines, each line trimmed,
    the empty ones dropped; and after a run of [K] prompts ([K] at least 1)
    in which every call resolved, the collection holds [K] images of which
    the one at index [i] was generated from the non-blank trimmed line at
    index [i]. *)
Theorem C3_results_follow_nonblank_lines :
  (∀ text : jsstring,
     ∃ lines trimmed,
       linesOf text lines
       ∧ Forall2 trimmedOf lines trimmed
       ∧ variationPrompts text = filter (fun p => p ≠ []) trimmed)
  ∧ (∀ b cl st w,
       baseImage cl = Some b →
       1 ≤ length (variationPrompts (variations cl)) ≤ 30 →
       Forall resolved (Run.calls (executeGeneration cl st w)) →
       let after := Run.final (executeGeneration cl st w) in
       length (images after) = length (variationPrompts (variations cl))
       ∧ (∀ i prompt,
            variationPrompts (variations cl) !! i = Some prompt →
            GeneratedImage.prompt <$> images after !! i = Some prompt)
       ∧ error after = None).
Proof.
  split.
  - intros text. exists (split LF text), (trim <$> split LF text).
    split; [apply lines_split|]. split.
    + apply Forall2_fmap_r, Forall_Forall2_diag, Forall_forall.
      intros line _. apply trim_trimmedOf.
    + unfold variationPrompts. apply list_filter_iff.
      intros [|c p]; simpl; split; (done || lia).
  - intros b cl st w Hb [Hk _] Hall after.
    assert (Hne : variationPrompts (variations cl) ≠ []).
    { intros E. rewrite E in Hk. simpl in Hk. lia. }
    pose proof (executeGeneration_shape b cl st w Hb) as Hshape.
    pose proof (executeGeneration_requests b cl st w Hb) as Hreq.
    simpl in Hshape. apply requests_prompts in Hreq.
    assert (Hlen : length (Run.calls (executeGeneration cl st w))
                   = length (variationPrompts (variations cl))).
    { destruct Hshape as [[_ ?]|(cs' & c & Hcs & _ & Hrej)]; [done|].
      rewrite Hcs in Hall. apply Forall_app in Hall as [_ Hc].
      inversion Hc; subst. unfold resolved, rejected in *. congruence. }
    rewrite Hlen, firstn_all in Hreq.
    assert (Hprompts : GeneratedImage.prompt <$> images after
                       = variationPrompts (variations cl)).
    { unfold after. rewrite (executeGeneration_loop b) by done.
      rewrite (loop_images _ _ _ _ _ []) by apply loopEntry_images.
      rewrite <-(executeGeneration_loop b) by done. simpl.
      by rewrite producedBy_resolved. }
    split; [|split].
    + by rewrite <-Hprompts, length_fmap.
    + intros i prompt Hi. by rewrite <-list_lookup_fmap, Hprompts.
    + unfold after. rewrite (executeGeneration_loop b) in * by done.
      by destruct (loop_final_resolved _ _ _ _ _ _ _ _ Hall) as (-> & _).
Qed.


(** The three messages of the validation are told apart. *)
Lemma validation_messages_distinct :
  MSG_NO_BASE_IMAGE ≠ MSG_NO_VARIATIONS
  ∧ MSG_NO_BASE_IMAGE ≠ MSG_BATCH_TOO_LARGE
  ∧ MSG_NO_VARIATIONS ≠ MSG_BATCH_TOO_LARGE.
Proof. repeat split; intros E; vm_compute in E; discriminate. Qed.


Lemma handleGenerate_asks b st w :
  baseImage st = Some b →
  1 ≤ length (variationPrompts (variations st)) ≤ 30 →
  newVariations (variationPrompts (variations st)) (presets st) ≠ [] →
  handleGenerate st w
  = Run.mk
      (setSavePresetsConfirmation
         (Some (newVariations (variationPrompts (variations st))
                  (presets st))) st) w [].
Proof.
  intros Hb Hk Hnew. unfold handleGenerate. rewrite Hb.
  rewrite bool_decide_eq_false_2 by lia.
  rewrite bool_decide_eq_false_2 by lia.
  rewrite bool_decide_eq_true_2; [done|].
  destruct (newVariations _ _); [done | simpl; lia].
Qed.

Lemma handleGenerate_starts b st w :
  baseImage st = Some b →
  1 ≤ length (variationPrompts (variations st)) ≤ 30 →
  newVariations (variationPrompts (variations st)) (presets st) = [] →
  handleGenerate st w = executeGeneration st st w.
Proof.
  intros Hb Hk Hnew. unfold handleGenerate. rewrite Hb.
  rewrite bool_decide_eq_false_2 by lia.
  rewrite bool_decide_eq_false_2 by lia.
  rewrite Hnew. done.
Qed.

End BatchClaims.

(** ** The preset confirmation gate *)

Section GateFacts.
Context {World : Type} {P : Platform World}.
Implicit Types (b : BaseImage.t) (cl st : AppState) (w : World).

(** The preset list is carried through the loop untouched: running the loop
    from a state with other presets gives the same run with those presets in
    every state. *)
Lemma loop_presets ps b cl total rest : ∀ i acc st w,
  generationLoop b cl total i rest acc (setPresets ps st) w
  = onStates (setPresets ps) (generationLoop b cl total i rest acc st w).
Proof.
  induction rest as [|prompt rest IH]; intros i acc st w; [done|].
  simpl. destruct (generateVariation (requestFor b cl prompt) w)
    as [w1 [resultBase64|reason]]; simpl; [|done].
  match goal with
  | |- context [setGeneratedImages ?a (setProgress ?p (setPresets ps st))] =>
      change (setGeneratedImages a (setProgress p (setPresets ps st)))
        with (setPresets ps (setGeneratedImages a (setProgress p st)))
  end.
  by rewrite IH.
Qed.

Lemma executeGeneration_presets ps cl st w :
  executeGeneration cl (setPresets ps st) w
  = onStates (setPresets ps) (executeGeneration cl st w).
Proof.
  unfold executeGeneration. destruct (baseImage cl) as [b|]; [|done].
  case_bool_decide; [done|].
  change (setProgress ?p (setGeneratedImages [] (setError None
            (setIsLoading true (setPresets ps st)))))
    with (setPresets ps (setProgress p (setGeneratedImages [] (setError None
            (setIsLoading true st))))).
  apply loop_presets.
Qed.

(** The loop and [executeGeneration] leave the inputs of a batch, the
    presets and the pending confirmation as they are. *)
Lemma loop_frame b cl total rest : ∀ i acc st w,
  let st' := Run.final (generationLoop b cl total i rest acc st w) in
  sameInputs st st'
  ∧ presets st' = presets st
  ∧ savePresetsConfirmation st' = savePresetsConfirmation st.
Proof.
  induction rest as [|prompt rest IH]; intros i acc st w.
  { by repeat split. }
  simpl. destruct (generateVariation (requestFor b cl prompt) w)
    as [w1 [resultBase64|reason]]; simpl; [|by repeat split].
  match goal with
  | |- context [generationLoop b cl total (S i) rest ?a ?s w1] =>
      destruct (IH (S i) a s w1) as ((?&?&?&?&?&?&?) & ? & ?)
  end.
  repeat split; (etrans; [eassumption | done]).
Qed.

Lemma executeGeneration_frame cl st w :
  let st' := Run.final (executeGeneration cl st w) in
  sameInputs st st'
  ∧ presets st' = presets st
  ∧ savePresetsConfirmation st' = savePresetsConfirmation st.
Proof.
  unfold executeGeneration. destruct (baseImage cl) as [b|];
    [|by repeat split].
  case_bool_decide; [by repeat split|].
  match goal with
  | |- context [generationLoop b cl ?t 0 ?r [] ?s w] =>
      destruct (loop_frame b cl t r 0 [] s w) as ((?&?&?&?&?&?&?) & ? & ?)
  end.
  repeat split; (etrans; [eassumption | done]).
Qed.

Lemma elem_of_addAll (x : jsstring) xs : ∀ seen,
  x ∈ addAll seen xs ↔ x ∈ seen ∨ x ∈ xs.
Proof.
  induction xs as [|y xs IH]; intros seen; simpl.
  - set_solver.
  - unfold includes. case_bool_decide; rewrite IH; set_solver.
Qed.

Lemma elem_of_spreadSet (x : jsstring) xs : x ∈ spreadSet xs ↔ x ∈ xs.
Proof. unfold spreadSet. rewrite elem_of_addAll. set_solver. Qed.

Lemma NoDup_addAll xs : ∀ seen, NoDup seen → NoDup (addAll seen xs).
Proof.
  induction xs as [|y xs IH]; intros seen Hseen; simpl; [done|].
  unfold includes. case_bool_decide; apply IH; [done|].
  apply NoDup_app. split; [done|]. split; [set_solver|].
  apply NoDup_singleton.
Qed.

(** C6. When the prompts of a valid request list include phrases that are
    not presets, [handleGenerate] only records the question: it issues no
    call and leaves the variations text, the presets and everything else as
    they are. Answering yes and answering no then run the same batch: the
    same requests in the same order, carrying the same constraints, settled
    the same way, from the same request list, leaving the same world; the
    states the two runs go through and end in differ in the preset list
    alone, which after a yes holds the former presets and the new phrases
    and after a no is unchanged; so does what is then written to local
    storage. Both runs do submit the list: at least one call is issued,
    each call in the world the previous one left; when every call resolves
    the requests issued are the whole request list, in order; and when call
    [i] is rejected, exactly the first [i + 1] requests were issued. *)
Theorem C6_confirm_and_decline_run_the_same_batch b st w :
  baseImage st = Some b →
  1 ≤ length (variationPrompts (variations st)) ≤ 30 →
  newVariations (variationPrompts (variations st)) (presets st) ≠ [] →
  let news := newVariations (variationPrompts (variations st)) (presets st) in
  let asked := handleGenerate st w in
  let yes := handleConfirmSavePresets (Run.final asked) (Run.world asked) in
  let no := handleDeclineSavePresets (Run.final asked) (Run.world asked) in
  asked = Run.mk (setSavePresetsConfirmation (Some news) st) w []
  ∧ yes = onStates (setPresets (spreadSet (presets st ++ news))) no
  ∧ Call.request <$> Run.calls yes = Call.request <$> Run.calls no
  ∧ Call.settled <$> Run.calls yes = Call.settled <$> Run.calls no
  ∧ Call.request <$> Run.calls no
    = take (length (Run.calls no))
        (requestFor b st <$> variationPrompts (variations st))
  ∧ Run.world yes = Run.world no
  ∧ sameInputs st (Run.final yes)
  ∧ sameInputs st (Run.final no)
  ∧ presets (Run.final no) = presets st
  ∧ (∀ v, v ∈ presets (Run.final yes) ↔ v ∈ presets st ∨ v ∈ news)
  ∧ customPresets (Run.final no) = customPresets st
  ∧ (∀ v, v ∈ customPresets (Run.final yes)
          ↔ (v ∈ presets st ∨ v ∈ news) ∧ v ∉ INITIAL_PRESETS)
  ∧ Run.calls yes ≠ []
  ∧ Run.calls no ≠ []
  ∧ sequential w (Run.calls no) (Run.world no)
  ∧ (Forall resolved (Run.calls no) →
     Call.request <$> Run.calls no
     = requestFor b st <$> variationPrompts (variations st)
     ∧ Call.request <$> Run.calls yes
       = requestFor b st <$> variationPrompts (variations st))
  ∧ (∀ i c,
       Run.calls no !! i = Some c → rejected c →
       length (Run.calls no) = i + 1
       ∧ length (Run.calls yes) = i + 1
       ∧ Forall resolved (take i (Run.calls no))).
Proof.
  intros Hb Hk Hnew news asked yes no.
  assert (Hasked : asked
                   = Run.mk (setSavePresetsConfirmation (Some news) st) w []).
  { by apply (handleGenerate_asks b). }
  assert (Hyes : yes
                 = onStates (setPresets (spreadSet (presets st ++ news))) no).
  { unfold yes, no, handleConfirmSavePresets, handleDeclineSavePresets.
    rewrite Hasked. simpl.
    change (setSavePresetsConfirmation None (setPresets ?ps ?s))
      with (setPresets ps (setSavePresetsConfirmation None s)).
    apply executeGeneration_presets. }
  assert (Hframe : sameInputs st (Run.final no)
                   ∧ presets (Run.final no) = presets st).
  { unfold no, handleDeclineSavePresets. rewrite Hasked. simpl.
    match goal with
    | |- context [executeGeneration ?c ?s w] =>
        destruct (executeGeneration_frame c s w) as (Hin & Hps & _)
    end.
    split; [|by rewrite Hps]. done. }
  destruct Hframe as [Hin Hps].
  split; [done|]. split; [done|].
  split. { rewrite Hyes. simpl. by rewrite <-list_fmap_compose. }
  split. { rewrite Hyes. simpl. by rewrite <-list_fmap_compose. }
  split.
  { unfold no, handleDeclineSavePresets. rewrite Hasked. simpl.
    etrans; [by apply (executeGeneration_requests b)|]. reflexivity. }
  split. { by rewrite Hyes. }
  split. { rewrite Hyes. simpl. exact Hin. }
  split; [done|]. split; [done|].
  assert (Hnew_presets : ∀ v, v ∈ presets (Run.final yes)
                              ↔ v ∈ presets st ∨ v ∈ news).
  { intros v. rewrite Hyes. simpl. rewrite elem_of_spreadSet. set_solver. }
  split; [done|].
  split. { unfold customPresets. by rewrite Hps. }
  split.
  { intros v. unfold customPresets, includes.
    rewrite list_elem_of_filter, bool_decide_eq_false, Hnew_presets.
    tauto. }
  assert (Hsame : length (Run.calls yes) = length (Run.calls no)).
  { rewrite Hyes. simpl. by rewrite length_fmap. }
  assert (Hrequests : Call.request <$> Run.calls yes
                      = Call.request <$> Run.calls no).
  { rewrite Hyes. simpl. by rewrite <-list_fmap_compose. }
  set (cl := setSavePresetsConfirmation (Some news) st).
  assert (Hno : no = executeGeneration cl (setSavePresetsConfirmation None cl) w).
  { unfold no, handleDeclineSavePresets. by rewrite Hasked. }
  assert (Hbase : baseImage cl = Some b) by done.
  pose proof (executeGeneration_shape b cl
                (setSavePresetsConfirmation None cl) w Hbase) as Hshape.
  pose proof (executeGeneration_requests b cl
                (setSavePresetsConfirmation None cl) w Hbase) as Hprefix.
  pose proof (executeGeneration_sequential cl
                (setSavePresetsConfirmation None cl) w) as Hseq.
  rewrite <-Hno in Hshape, Hprefix, Hseq. simpl in Hshape.
  change (variations cl) with (variations st) in Hshape, Hprefix.
  assert (Hissued : Run.calls no ≠ []).
  { destruct Hshape as [[_ Hlen]|(cs' & c & Hcs & _)].
    - intros E. rewrite E in Hlen. simpl in Hlen. lia.
    - rewrite Hcs. by destruct cs'. }
  split. { intros E. apply Hissued. destruct (Run.calls no); [done|].
           rewrite E in Hsame. simpl in Hsame. lia. }
  split; [done|]. split; [done|]. split.
  - intros Hall.
    assert (Hlen : length (Run.calls no)
                   = length (variationPrompts (variations st))).
    { destruct Hshape as [[_ ?]|(cs' & c & Hcs & _ & Hrej)]; [done|].
      rewrite Hcs in Hall. apply Forall_app in Hall as [_ Hc].
      inversion Hc; subst. unfold resolved, rejected in *. congruence. }
    assert (Hfull : Call.request <$> Run.calls no
                    = requestFor b st <$> variationPrompts (variations st)).
    { etrans; [exact Hprefix|]. rewrite Hlen.
      etrans; [|apply (take_ge _ (length (variationPrompts (variations st))))].
      - reflexivity.
      - by rewrite length_fmap. }
    split; [done|]. by rewrite Hrequests.
  - intros i c Hi Hrej.
    destruct (rejected_is_last (Run.calls no) i c) as (_ & Hres & Hlen);
      try done.
    { destruct Hshape as [[? _]|?]; [by left | by right]. }
    split; [done|]. split; [by rewrite Hsame | done].
Qed.

End GateFacts.

(** ** Identifiers *)

Section IdFacts.
Context {World : Type} {P : Platform World}.

Local Transparent lit.

Lemma lit_inj s1 s2 : lit s1 = lit s2 → s1 = s2.
Proof.
  unfold lit. intros E.
  assert (Hinj : Inj (=) (=) (fun a => N_of_ascii a)).
  { intros a1 a2 Ea. by rewrite <-(ascii_N_embedding a1),
      <-(ascii_N_embedding a2), Ea. }
  apply (inj (fmap _)) in E.
  by rewrite <-(string_of_list_ascii_of_string s1),
    <-(string_of_list_ascii_of_string s2), E.
Qed.

(** The decimal digits of a natural number hold no hyphen. *)
Lemma pretty_N_go_no_hyphen (x : N) : ∀ s,
  HYPHEN ∉ lit s → HYPHEN ∉ lit (pretty_N_go x s).
Proof.
  induction (N.lt_wf_0 x) as [x _ IH]; intros s Hs.
  destruct (decide (x = 0)%N) as [->|Hx].
  - by rewrite pretty_N_go_0.
  - rewrite pretty_N_go_step by lia. apply IH.
    + apply N.div_lt; lia.
    + unfold lit in *. simpl. intros Hin.
      apply elem_of_cons in Hin as [Hc|Hin]; [|done].
      unfold pretty_N_char in Hc.
      by repeat (case_match; try discriminate).
Qed.

Lemma ofNat_no_hyphen n : HYPHEN ∉ ofNat n.
Proof.
  unfold ofNat, pretty, pretty_nat, pretty, pretty_N.
  case_decide.
  - unfold lit. simpl. set_solver.
  - apply pretty_N_go_no_hyphen. unfold lit. simpl. set_solver.
Qed.

Lemma ofNat_inj n m : ofNat n = ofNat m → n = m.
Proof. unfold ofNat. intros E%lit_inj. by apply (inj pretty). Qed.

(** Two strings that agree up to and including the first [x] of each. *)
Lemma app_cons_first_inj (x : N) (a a' b b' : list N) :
  x ∉ a → x ∉ a' → a ++ x :: b = a' ++ x :: b' → a = a'.
Proof.
  revert a'. induction a as [|c a IH]; intros [|c' a'] Ha Ha' E;
    simpl in *; simplify_eq.
  - done.
  - set_solver.
  - set_solver.
  - f_equal. apply IH; set_solver.
Qed.

(** The index is read off an identifier after its last hyphen. *)
Lemma imageId_index now now' i j : imageId now i = imageId now' j → i = j.
Proof.
  unfold imageId. intros E. apply (f_equal reverse) in E.
  rewrite !reverse_app in E. simpl in E. rewrite <-!app_assoc in E.
  apply ofNat_inj, (inj reverse).
  apply (app_cons_first_inj HYPHEN _ _ (reverse (ofZ now))
           (reverse (ofZ now'))).
  - rewrite elem_of_reverse. apply ofNat_no_hyphen.
  - rewrite elem_of_reverse. apply ofNat_no_hyphen.
  - exact E.
Qed.

(** The images built from calls numbered from [i] on carry the indices from
    [i] on. *)
Lemma producedBy_ids (cs : list (Call.t World)) : ∀ i id,
  id ∈ GeneratedImage.id <$> producedBy i cs →
  ∃ now j, id = imageId now j ∧ i ≤ j.
Proof.
  induction cs as [|c cs IH]; intros i id; simpl; [set_solver|].
  rewrite fmap_app, elem_of_app. intros [Hin|Hin].
  - unfold imageOf in Hin. destruct (Call.settled c); simpl in Hin;
      [|set_solver].
    apply list_elem_of_singleton in Hin. by eexists _, i.
  - apply IH in Hin as (now & j & -> & Hj). exists now, j. split; [done|lia].
Qed.

Lemma producedBy_NoDup (cs : list (Call.t World)) : ∀ i,
  NoDup (GeneratedImage.id <$> producedBy i cs).
Proof.
  induction cs as [|c cs IH]; intros i; simpl; [constructor|].
  rewrite fmap_app. apply NoDup_app. split; [|split].
  - unfold imageOf. destruct (Call.settled c); simpl;
      [apply NoDup_singleton | constructor].
  - intros id Hid Hin. apply producedBy_ids in Hin as (now & j & -> & Hj).
    unfold imageOf in Hid. destruct (Call.settled c); simpl in Hid;
      [|set_solver].
    apply list_elem_of_singleton in Hid. apply imageId_index in Hid. lia.
  - apply IH.
Qed.

End IdFacts.

(** ** The result collection *)

Section CollectionFacts.
Context {World : Type} {P : Platform World}.
Implicit Types (st app : AppState) (w : World) (id : jsstring).
Implicit Types (imgs : list GeneratedImage.t).

Lemma replaceBase64_id id newBase64 img :
  GeneratedImage.id (replaceBase64 id newBase64 img) = GeneratedImage.id img.
Proof. unfold replaceBase64. by case_bool_decide. Qed.

Lemma replaceBase64_prompt id newBase64 img :
  GeneratedImage.prompt (replaceBase64 id newBase64 img)
  = GeneratedImage.prompt img.
Proof. unfold replaceBase64. by case_bool_decide. Qed.

Lemma replaceBase64_other id newBase64 img :
  GeneratedImage.id img ≠ id → replaceBase64 id newBase64 img = img.
Proof. intros Hne. unfold replaceBase64. by case_bool_decide. Qed.

Lemma replaceBase64_same id newBase64 img :
  GeneratedImage.id img = id →
  replaceBase64 id newBase64 img
  = GeneratedImage.mk id (GeneratedImage.prompt img) newBase64.
Proof. intros <-. unfold replaceBase64. by case_bool_decide. Qed.

(** Where no image is called [id], the update maps every image to itself. *)
Lemma replaceBase64_absent id newBase64 imgs :
  id ∉ GeneratedImage.id <$> imgs →
  replaceBase64 id newBase64 <$> imgs = imgs.
Proof.
  induction imgs as [|img imgs IH]; [done|]. simpl. intros Hnot.
  rewrite replaceBase64_other by set_solver. f_equal. apply IH. set_solver.
Qed.

(** With unique identifiers the update rewrites one position of the list. *)
Lemma replaceBase64_insert id newBase64 imgs i img :
  NoDup (GeneratedImage.id <$> imgs) →
  imgs !! i = Some img → GeneratedImage.id img = id →
  replaceBase64 id newBase64 <$> imgs
  = <[i := GeneratedImage.mk id (GeneratedImage.prompt img) newBase64]> imgs.
Proof.
  revert i. induction imgs as [|x imgs IH]; intros i Hnd Hi Hid; [done|].
  simpl in Hnd. apply NoDup_cons in Hnd as [Hx Hnd].
  destruct i as [|i]; simpl in *.
  - simplify_eq. rewrite replaceBase64_same by done. f_equal.
    by apply replaceBase64_absent.
  - rewrite replaceBase64_other.
    + f_equal. by apply IH.
    + intros E. apply Hx. rewrite E, <-Hid.
      apply list_elem_of_fmap. exists img. split; [done|].
      by eapply list_elem_of_lookup_2.
Qed.

(** After a delete no image is called [id]. *)
Lemma handleDeleteImage_absent id st :
  id ∉ GeneratedImage.id <$> images (handleDeleteImage id st).
Proof.
  unfold handleDeleteImage, images. simpl.
  intros (img & -> & Hin)%list_elem_of_fmap.
  by apply list_elem_of_filter in Hin as [? _].
Qed.

Lemma filter_keeps_all id imgs :
  id ∉ GeneratedImage.id <$> imgs →
  filter (fun x => GeneratedImage.id x ≠ id) imgs = imgs.
Proof.
  induction imgs as [|x imgs IH]; [done|]. simpl. intros Hnot.
  rewrite filter_cons_True by set_solver. f_equal. apply IH. set_solver.
Qed.

(** With unique identifiers a delete removes one position of the list. *)
Lemma filter_id_delete id imgs i img :
  NoDup (GeneratedImage.id <$> imgs) →
  imgs !! i = Some img → GeneratedImage.id img = id →
  filter (fun x => GeneratedImage.id x ≠ id) imgs = delete i imgs.
Proof.
  revert i. induction imgs as [|x imgs IH]; intros i Hnd Hi Hid; [done|].
  simpl in Hnd. apply NoDup_cons in Hnd as [Hx Hnd].
  destruct i as [|i]; simpl in *.
  - simplify_eq. rewrite filter_cons_False by (by intros ?).
    by apply filter_keeps_all.
  - rewrite filter_cons_True.
    + f_equal. by apply IH.
    + intros E. apply Hx. rewrite E, <-Hid.
      apply list_elem_of_fmap. exists img. split; [done|].
      by eapply list_elem_of_lookup_2.
Qed.

Lemma find_absent id imgs :
  id ∉ GeneratedImage.id <$> imgs →
  find (fun img => bool_decide (GeneratedImage.id img = id)) imgs = None.
Proof.
  induction imgs as [|img imgs IH]; [done|]. simpl. intros Hnot.
  rewrite bool_decide_eq_false_2 by set_solver. apply IH. set_solver.
Qed.

End CollectionFacts.

Section CollectionClaims.
Context {World : Type} {P : Platform World}.
Implicit Types (st app : AppState) (w : World) (id : jsstring).

(** C7. An in-place update of the image called [id], present in the
    collection, replaces the payload of that image and nothing else: the
    collection keeps its length, its identifiers and its prompts, position
    by position; an entry with another identifier is the same entry and an
    entry called [id] becomes the same entry with the new payload; with
    unique identifiers exactly one position of the list is rewritten. The
    commit of a background removal or an outline is this same update with
    the returned data behind the PNG data-URL prefix. *)
Theorem C7_update_in_place_changes_only_payload id newBase64 st :
  id ∈ GeneratedImage.id <$> images st →
  let st' := handleUpdateImageBase64 id newBase64 st in
  length (images st') = length (images st)
  ∧ GeneratedImage.id <$> images st' = GeneratedImage.id <$> images st
  ∧ GeneratedImage.prompt <$> images st' = GeneratedImage.prompt <$> images st
  ∧ (∀ i img, images st !! i = Some img →
       images st' !! i
       = Some (if bool_decide (GeneratedImage.id img = id)
               then GeneratedImage.mk id (GeneratedImage.prompt img) newBase64
               else img))
  ∧ (NoDup (GeneratedImage.id <$> images st) →
       ∃ i img, images st !! i = Some img ∧ GeneratedImage.id img = id
                ∧ images st'
                  = <[i := GeneratedImage.mk id (GeneratedImage.prompt img)
                             newBase64]> (images st))
  ∧ (∀ failed resultBase64,
       editSettle failed id (Resolved resultBase64) st
       = (handleUpdateImageBase64 id (PNG_DATA_URL_PREFIX ++ resultBase64) st,
          Fulfilled)).
Proof.
  intros Hin st'. unfold st', handleUpdateImageBase64, images. simpl.
  fold (images st).
  split; [by rewrite length_fmap|].
  split.
  { rewrite <-list_fmap_compose. apply list_fmap_ext.
    intros i img _. apply replaceBase64_id. }
  split.
  { rewrite <-list_fmap_compose. apply list_fmap_ext.
    intros i img _. apply replaceBase64_prompt. }
  split.
  { intros i img Hi. rewrite list_lookup_fmap, Hi. simpl. f_equal.
    unfold replaceBase64. case_bool_decide; [|done]. by subst id. }
  split; [|done].
  intros Hnd. apply list_elem_of_fmap in Hin as (img & Hid & Himg).
  apply list_elem_of_lookup in Himg as [i Hi].
  exists i, img. split; [done|]. split; [done|].
  by apply replaceBase64_insert.
Qed.

(** With nothing in between, the handlers of the application are the
    in-flight ones. *)
Lemma across_same_state id color width st w :
  handleRemoveBackground id st w = removeBackgroundAcross id st st w
  ∧ handleAddOutline id color width st w
    = addOutlineAcross id color width st st w.
Proof. done. Qed.

(** What an in-flight edit leaves when its call settles on a collection
    that no longer holds the image. *)
Lemma editSettle_absent failed id r st :
  id ∉ GeneratedImage.id <$> images st →
  images (editSettle failed id r st).1 = images st
  ∧ match r with
    | Resolved _ =>
        error (editSettle failed id r st).1 = error st
        ∧ (editSettle failed id r st).2 = Fulfilled
    | Rejected _ =>
        (editSettle failed id r st).1 = setError (Some failed) st
        ∧ (editSettle failed id r st).2 = Failed
    end.
Proof.
  intros Habs. destruct r as [resultBase64|reason]; simpl; [|done].
  split; [|done]. unfold images at 1. simpl. by rewrite replaceBase64_absent.
Qed.

(** C5, as amended. An edit aimed at an identifier that has since been
    deleted leaves the contents of the collection as they are. The
    text-overlay update shows no error. A background removal or an outline
    that found the image in its render and whose call is in flight when
    the image is deleted has sent its one request; when the call resolves,
    the commit changes nothing, shows no error and the handler returns
    normally; when the call is rejected, the handler shows the failure
    message of the operation and rethrows. *)
Theorem C5_edit_after_delete_keeps_collection id cl st w :
  let gone := handleDeleteImage id st in
  (∀ newBase64,
     images (handleUpdateImageBase64 id newBase64 gone) = images gone
     ∧ error (handleUpdateImageBase64 id newBase64 gone) = error gone)
  ∧ (∀ input,
       editStart id cl = Awaiting input →
       let run := removeBackgroundAcross id cl gone w in
       images (Edit.final run) = images gone
       ∧ Edit.requests run = [input]
       ∧ Edit.world run = (removeBackground input w).1
       ∧ match (removeBackground input w).2 with
         | Resolved _ => silentNoOp gone run
         | Rejected _ =>
             Edit.final run
             = setError (Some MSG_REMOVE_BACKGROUND_FAILED) gone
             ∧ Edit.outcome run = Failed
         end)
  ∧ (∀ input color width,
       editStart id cl = Awaiting input →
       let run := addOutlineAcross id color width cl gone w in
       images (Edit.final run) = images gone
       ∧ Edit.requests run = [input]
       ∧ Edit.world run = (addOutline input color width w).1
       ∧ match (addOutline input color width w).2 with
         | Resolved _ => silentNoOp gone run
         | Rejected _ =>
             Edit.final run = setError (Some MSG_OUTLINE_FAILED) gone
             ∧ Edit.outcome run = Failed
         end).
Proof.
  intros gone.
  pose proof (handleDeleteImage_absent id st) as Habs. fold gone in Habs.
  split.
  { intros newBase64. unfold handleUpdateImageBase64, images at 1. simpl.
    by rewrite replaceBase64_absent. }
  split.
  - intros input Hstart run. unfold run, removeBackgroundAcross.
    rewrite Hstart. cbv zeta. cbn [Edit.final Edit.requests Edit.world
                                   Edit.outcome].
    destruct (editSettle_absent MSG_REMOVE_BACKGROUND_FAILED id
                (removeBackground input w).2 gone Habs) as [Himgs Hrest].
    split; [done|]. split; [done|]. split; [done|].
    destruct ((removeBackground input w).2) as [resultBase64|reason].
    + destruct Hrest as [Herr Hout]. by split; [|split].
    + done.
  - intros input color width Hstart run. unfold run, addOutlineAcross.
    rewrite Hstart. cbv zeta. cbn [Edit.final Edit.requests Edit.world
                                   Edit.outcome].
    destruct (editSettle_absent MSG_OUTLINE_FAILED id
                (addOutline input color width w).2 gone Habs)
      as [Himgs Hrest].
    split; [done|]. split; [done|]. split; [done|].
    destruct ((addOutline input color width w).2) as [resultBase64|reason].
    + destruct Hrest as [Herr Hout]. by split; [|split].
    + done.
Qed.

(** C8. With unique identifiers and the detail view open on entry [k], the
    delete button removes that entry and leaves the focus on an entry of the
    collection, or closes the view. When the entry was the last one, the
    view closes if it was also the only one, and otherwise the focus is the
    new last index. *)
Theorem C8_delete_focused_keeps_focus_in_range app s k :
  NoDup (GeneratedImage.id <$> images app) →
  OutputArea.modalImageIndex s = Some (Z.of_nat k) →
  k < length (images app) →
  let after := OutputArea.deleteCurrent app s in
  images after.1 = delete k (images app)
  ∧ length (images after.1) = length (images app) - 1
  ∧ OutputArea.focusInRange after.1 after.2
  ∧ (S k = length (images app) →
       (k = 0 → OutputArea.modalImageIndex after.2 = None
                ∧ images after.1 = [])
       ∧ (0 < k →
            OutputArea.modalImageIndex after.2
            = Some (Z.of_nat (length (images after.1)) - 1)%Z)).
Proof.
  intros Hnd Hfocus Hk after.
  destruct (lookup_lt_is_Some_2 (images app) k Hk) as [img Himg].
  assert (Hcur : OutputArea.currentImage app s = Some img).
  { unfold OutputArea.currentImage, OutputArea.at_index. rewrite Hfocus.
    rewrite bool_decide_eq_true_2 by lia. by rewrite Nat2Z.id. }
  assert (Hdel : images (handleDeleteImage (GeneratedImage.id img) app)
                 = delete k (images app)).
  { unfold handleDeleteImage, images at 1. simpl.
    by apply (filter_id_delete _ _ k img). }
  assert (Hlen : length (delete k (images app)) = length (images app) - 1).
  { rewrite length_delete by done. lia. }
  unfold after, OutputArea.deleteCurrent. rewrite Hcur.
  unfold OutputArea.handleDeleteFromModal. rewrite Hfocus.
  case_bool_decide as Hone; simpl.
  - rewrite Hdel, Hlen. split; [done|]. split; [done|]. split; [done|].
    intros HS. split; [|lia].
    intros ->. split; [done|].
    destruct (images app) as [|x [|y l]]; simpl in *; (done || lia).
  - case_bool_decide as Hlast; simpl.
    + rewrite Hdel, Hlen. split; [done|]. split; [done|]. split.
      * unfold OutputArea.focusInRange. simpl. rewrite Hdel, Hlen. lia.
      * intros HS. split; [lia|]. intros _. f_equal. lia.
    + rewrite Hdel, Hlen. split; [done|]. split; [done|]. split.
      * unfold OutputArea.focusInRange. rewrite Hfocus, Hdel, Hlen. lia.
      * intros HS. lia.
Qed.

End CollectionClaims.

(** ** Selection *)

Section SelectionFacts.
Context {World : Type} {P : Platform World}.
Implicit Types (st app : AppState) (w : World) (s : OutputArea.State).

Lemma elem_of_allIds id imgs :
  id ∈ OutputArea.allIds imgs ↔ id ∈ GeneratedImage.id <$> imgs.
Proof. unfold OutputArea.allIds. by rewrite elem_of_list_to_set. Qed.

(** A render puts the component in step with the application. *)
Lemma render_inStep app s : viewReady app s → inStep app (OutputArea.render app s).
Proof.
  intros [Hwf Hdeps]. unfold OutputArea.render, OutputArea.selectionEffect.
  case_bool_decide as Hsame.
  - rewrite Hsame in Hdeps. destruct Hdeps as [_ Hsel].
    split; [done|]. split; [done|]. by apply Hsel.
  - by repeat split.
Qed.

(** A state with the same array is as ready to be rendered. *)
Lemma viewReady_same_array app app' s :
  generatedImages app' = generatedImages app →
  allocated app' = allocated app →
  viewReady app s → viewReady app' s.
Proof.
  unfold viewReady, wellFormed, images. intros -> ->. done.
Qed.

Lemma inStep_viewReady app s : inStep app s → viewReady app s.
Proof.
  intros (Hwf & Hsync & Hsel). split; [done|].
  unfold synced in Hsync. rewrite Hsync. split; [done|]. done.
Qed.

(** Once a new array is in state, the effect is due whatever the selection
    was. *)
Lemma viewReady_fresh app app' xs s :
  generatedImages app' = generatedImages app →
  allocated app' = allocated app →
  wellFormed app → synced app s →
  viewReady (setGeneratedImages xs app') s.
Proof.
  unfold viewReady, wellFormed, synced. simpl. intros Harr Hal Hwf ->.
  rewrite Hal. split; [lia|]. split; [lia|]. lia.
Qed.

(** In step, the export views are handed the whole collection. *)
Lemma inStep_selects_everything app s :
  inStep app s → OutputArea.selectedImageData app s = images app.
Proof.
  intros (_ & _ & Hsel). unfold OutputArea.selectedImageData.
  rewrite Hsel.
  assert (Hall : ∀ imgs' : list GeneratedImage.t,
             imgs' ⊆ images app →
             filter (fun img => GeneratedImage.id img
                                ∈ OutputArea.allIds (images app)) imgs'
             = imgs').
  { induction imgs' as [|img imgs' IH]; intros Hsub; [done|].
    rewrite filter_cons_True.
    - f_equal. apply IH. set_solver.
    - rewrite elem_of_allIds. apply list_elem_of_fmap_2. set_solver. }
  by apply Hall.
Qed.

Lemma toggled_synced app ids s : synced app s → synced app (toggled ids s).
Proof. unfold synced. by induction ids. Qed.

Lemma rendersOf_cons st w (c : Call.t World) cs :
  OutputArea.rendersOf (Run.mk st w (c :: cs))
  = Call.shown c :: OutputArea.rendersOf (Run.mk st w cs).
Proof. done. Qed.

(** Every render of the loop leaves the component in step. *)
Lemma loop_renders_inStep b cl total rest : ∀ i acc st w s,
  viewReady st s →
  Forall2 inStep
    (OutputArea.rendersOf (generationLoop b cl total i rest acc st w))
    (OutputArea.renderEach
       (OutputArea.rendersOf (generationLoop b cl total i rest acc st w)) s).
Proof.
  induction rest as [|prompt rest IH]; intros i acc st w s Hready.
  { constructor; [|constructor]. apply render_inStep.
    by apply (viewReady_same_array st). }
  simpl. destruct (generateVariation (requestFor b cl prompt) w)
    as [w1 [resultBase64|reason]]; simpl.
  - rewrite rendersOf_cons. simpl.
    match goal with
    | |- Forall2 _ (?st1 :: _) _ =>
        assert (Hstep : inStep st1 (OutputArea.render st1 s))
          by (apply render_inStep; by apply (viewReady_same_array st))
    end.
    constructor; [done|].
    destruct Hstep as (Hwf & Hsync & Hsel).
    apply IH. by eapply viewReady_fresh.
  - unfold OutputArea.rendersOf. simpl.
    match goal with
    | |- Forall2 _ (?st1 :: _) _ =>
        assert (Hstep : inStep st1 (OutputArea.render st1 s))
          by (apply render_inStep; by apply (viewReady_same_array st))
    end.
    constructor; [done|]. constructor; [|constructor].
    apply render_inStep. eapply viewReady_same_array;
      [..|by apply inStep_viewReady]; done.
Qed.

End SelectionFacts.

Section SelectionClaims.
Context {World : Type} {P : Platform World}.
Implicit Types (st app : AppState) (w : World) (s : OutputArea.State).

Lemma renderAll_last (R : AppState → OutputArea.State → Prop) apps : ∀ s app,
  Forall2 R apps (OutputArea.renderEach apps s) →
  last apps = Some app → R app (renderAll apps s).
Proof.
  induction apps as [|x apps IH]; intros s app Hall Hlast; [done|].
  simpl in Hall. inversion Hall; subst.
  destruct apps as [|y apps].
  - simpl in *. by simplify_eq.
  - apply (IH (OutputArea.render x s)); [done|]. by rewrite last_cons_cons in Hlast.
Qed.

Lemma rendersOf_last (run : Run.t World) :
  last (OutputArea.rendersOf run) = Some (Run.final run).
Proof. unfold OutputArea.rendersOf. apply last_snoc. Qed.

(** Every render of a batch run that started leaves the component in
    step. *)
Lemma executeGeneration_renders_inStep b cl app w s :
  baseImage cl = Some b →
  variationPrompts (variations cl) ≠ [] →
  wellFormed app → synced app s →
  Forall2 inStep
    (OutputArea.rendersOf (executeGeneration cl app w))
    (OutputArea.renderEach
       (OutputArea.rendersOf (executeGeneration cl app w)) s).
Proof.
  intros Hb Hne Hwf Hsync. rewrite (executeGeneration_loop b) by done.
  apply loop_renders_inStep. unfold loopEntry.
  eapply viewReady_same_array; [| |by apply (viewReady_fresh app app [])];
    done.
Qed.

(** A render after a handler that put a new array in state selects every
    entry of it. *)
Lemma render_fresh_selects app app' xs s :
  generatedImages app' = generatedImages app →
  allocated app' = allocated app →
  wellFormed app → synced app s →
  OutputArea.selectedImages
    (OutputArea.render (setGeneratedImages xs app') s)
  = OutputArea.allIds xs.
Proof.
  intros Harr Hal Hwf Hsync.
  by destruct (render_inStep (setGeneratedImages xs app') s
                 (viewReady_fresh app app' xs s Harr Hal Hwf Hsync))
    as (_ & _ & ->).
Qed.

(** C9. Once a batch run has replaced the collection and the component has
    rendered, the selection is the set of identifiers of all entries of the
    collection, as it is after any wholesale replacement; and after a
    delete of [id] and the render that follows, [id] is not selected. *)
Theorem C9_selection_is_all_entries_and_drops_deleted app s :
  wellFormed app → synced app s →
  (∀ b cl w,
     baseImage cl = Some b →
     variationPrompts (variations cl) ≠ [] →
     let run := executeGeneration cl app w in
     let s' := renderAll (OutputArea.rendersOf run) s in
     OutputArea.selectedImages s' = OutputArea.allIds (images (Run.final run))
     ∧ ∀ id, id ∈ OutputArea.selectedImages s'
             ↔ id ∈ GeneratedImage.id <$> images (Run.final run))
  ∧ (∀ xs,
       OutputArea.selectedImages
         (OutputArea.render (setGeneratedImages xs app) s)
       = OutputArea.allIds xs)
  ∧ (∀ id,
       let app' := handleDeleteImage id app in
       (id ∉ OutputArea.selectedImages (OutputArea.render app' s))
       ∧ OutputArea.selectedImages (OutputArea.render app' s)
         = OutputArea.allIds (images app')).
Proof.
  intros Hwf Hsync. split; [|split].
  - intros b cl w Hb Hne run s'.
    assert (Hstep : inStep (Run.final run) s').
    { apply (renderAll_last inStep); [|apply rendersOf_last].
      by apply (executeGeneration_renders_inStep b). }
    destruct Hstep as (_ & _ & Hsel). split; [done|].
    intros id. by rewrite Hsel, elem_of_allIds.
  - intros xs. by apply (render_fresh_selects app).
  - intros id app'.
    assert (Hsel : OutputArea.selectedImages (OutputArea.render app' s)
                   = OutputArea.allIds (images app'))
      by (by apply (render_fresh_selects app)).
    split; [|done]. rewrite Hsel, elem_of_allIds.
    apply handleDeleteImage_absent.
Qed.

(** C10. Whatever the user has toggled since the last render, the render
    that follows a change of the collection selects exactly the entries the
    collection then holds. This is so after a delete, after an in-place
    update (the text overlay, or the commit of a background removal or an
    outline), after a wholesale replacement, and at every render of a batch
    run, the one while the first call is in flight and the one after each
    image is published. A render without a change of the collection keeps
    the selection the user made. *)
Theorem C10_any_collection_change_resets_selection app s0 ids :
  inStep app s0 →
  let s := toggled ids s0 in
  (∀ id,
     OutputArea.selectedImages
       (OutputArea.render (handleDeleteImage id app) s)
     = OutputArea.allIds (images (handleDeleteImage id app)))
  ∧ (∀ id newBase64,
       OutputArea.selectedImages
         (OutputArea.render (handleUpdateImageBase64 id newBase64 app) s)
       = OutputArea.allIds (images (handleUpdateImageBase64 id newBase64 app)))
  ∧ (∀ failed id resultBase64,
       let app' := (editSettle failed id (Resolved resultBase64) app).1 in
       OutputArea.selectedImages (OutputArea.render app' s)
       = OutputArea.allIds (images app'))
  ∧ (∀ xs,
       OutputArea.selectedImages
         (OutputArea.render (setGeneratedImages xs app) s)
       = OutputArea.allIds xs)
  ∧ (∀ b cl w,
       baseImage cl = Some b →
       variationPrompts (variations cl) ≠ [] →
       let run := executeGeneration cl app w in
       Forall2
         (fun shown s' =>
            OutputArea.selectedImages s' = OutputArea.allIds (images shown))
         (OutputArea.rendersOf run)
         (OutputArea.renderEach (OutputArea.rendersOf run) s))
  ∧ OutputArea.render app s = s.
Proof.
  intros (Hwf & Hsync0 & _) s.
  assert (Hsync : synced app s) by (by apply toggled_synced).
  split. { intros id. by apply (render_fresh_selects app). }
  split. { intros id newBase64. by apply (render_fresh_selects app). }
  split. { intros failed id r. simpl. by apply (render_fresh_selects app). }
  split. { intros xs. by apply (render_fresh_selects app). }
  split.
  - intros b cl w Hb Hne run.
    eapply Forall2_impl; [by apply (executeGeneration_renders_inStep b)|].
    by intros shown s' (_ & _ & ?).
  - unfold OutputArea.render, OutputArea.selectionEffect.
    by rewrite bool_decide_eq_true_2.
Qed.

End SelectionClaims.

(** ** Reachable states *)

Section ReachableFacts.
Context {World : Type} {P : Platform World}.
Implicit Types (st app : AppState) (w : World).

Lemma loop_wellFormed b cl total rest : ∀ i acc st w,
  wellFormed st →
  wellFormed (Run.final (generationLoop b cl total i rest acc st w)).
Proof.
  induction rest as [|prompt rest IH]; intros i acc st w Hwf; [done|].
  simpl. destruct (generateVariation (requestFor b cl prompt) w)
    as [w1 [resultBase64|reason]]; simpl; [|done].
  apply IH. unfold wellFormed. simpl. lia.
Qed.

Lemma executeGeneration_wellFormed cl st w :
  wellFormed st → wellFormed (Run.final (executeGeneration cl st w)).
Proof.
  intros Hwf. unfold executeGeneration.
  destruct (baseImage cl) as [b|]; [|done].
  case_bool_decide; [done|]. apply loop_wellFormed.
  unfold wellFormed. simpl. lia.
Qed.

Lemma executeGeneration_uniqueIds cl st w :
  uniqueIds st → uniqueIds (Run.final (executeGeneration cl st w)).
Proof.
  intros Hu. destruct (baseImage cl) as [b|] eqn:Hb.
  - destruct (decide (variationPrompts (variations cl) = [])) as [E|E].
    + by rewrite (executeGeneration_no_prompts b).
    + rewrite (executeGeneration_loop b) by done. unfold uniqueIds.
      rewrite (loop_images _ _ _ _ _ []) by apply loopEntry_images.
      apply producedBy_NoDup.
  - by rewrite executeGeneration_no_base.
Qed.

Lemma handleDeleteImage_uniqueIds id st :
  uniqueIds st → uniqueIds (handleDeleteImage id st).
Proof.
  unfold uniqueIds, handleDeleteImage, images. simpl. intros Hu.
  eapply sublist_NoDup; [exact Hu|].
  apply fmap_sublist, sublist_filter.
Qed.

Lemma handleUpdateImageBase64_uniqueIds id newBase64 st :
  uniqueIds st → uniqueIds (handleUpdateImageBase64 id newBase64 st).
Proof.
  unfold uniqueIds, handleUpdateImageBase64, images. simpl. intros Hu.
  rewrite <-list_fmap_compose.
  erewrite list_fmap_ext; [exact Hu|].
  intros i img _. apply replaceBase64_id.
Qed.

(** In every reachable state the identifiers of the collection are unique
    and the array in state is an array of the past. *)
Lemma reachable_invariant st :
  reachable st → uniqueIds st ∧ wellFormed st.
Proof.
  induction 1 as [|st st' _ [Hu Hwf] Harr Hal|st _ [Hu Hwf]
                 |cl st w _ [Hu Hwf]|id st _ [Hu Hwf]
                 |id newBase64 st _ [Hu Hwf]].
  - split; [constructor | unfold wellFormed; simpl; lia].
  - unfold uniqueIds, wellFormed, images in *. rewrite Harr, Hal. done.
  - split; [constructor | unfold wellFormed; simpl; lia].
  - split; [by apply executeGeneration_uniqueIds
           | by apply executeGeneration_wellFormed].
  - split; [by apply handleDeleteImage_uniqueIds
           | unfold wellFormed; simpl; lia].
  - split; [by apply handleUpdateImageBase64_uniqueIds
           | unfold wellFormed; simpl; lia].
Qed.

(** The handlers of [App.tsx] stay within the reachable states. *)
Lemma handlers_reachable st w :
  reachable st →
  reachable (Run.final (handleGenerate st w))
  ∧ reachable (Run.final (handleConfirmSavePresets st w))
  ∧ reachable (Run.final (handleDeclineSavePresets st w))
  ∧ (∀ id, reachable (Edit.final (handleRemoveBackground id st w)))
  ∧ (∀ id color width,
       reachable (Edit.final (handleAddOutline id color width st w))).
Proof.
  intros Hr.
  assert (Hset : ∀ st', generatedImages st' = generatedImages st →
                        allocated st' = allocated st → reachable st')
    by (intros st'; by apply reach_other).
  assert (Hstart : ∀ id st' o, editStart id st = Finished st' o →
                               reachable st').
  { intros id st' o. unfold editStart.
    destruct (find _ _); [|intros [= <- _]; by apply Hset].
    destruct (FileUtils.base64ToFile _ _) as [[f|]|]; [done|..];
      intros [= <- _]; by apply Hset. }
  assert (Hsettle : ∀ failed id r,
            reachable (editSettle failed id r st).1).
  { intros failed id [r|e]; simpl; [|by apply Hset].
    by apply (reach_update id (PNG_DATA_URL_PREFIX ++ r)). }
  split; [|split; [|split; [|split]]].
  - unfold handleGenerate. destruct (baseImage st); [|by apply Hset].
    repeat case_bool_decide; try (by apply Hset). by apply reach_run.
  - unfold handleConfirmSavePresets. apply reach_run.
    destruct (savePresetsConfirmation st); by apply Hset.
  - unfold handleDeclineSavePresets. apply reach_run. by apply Hset.
  - intros id. unfold handleRemoveBackground.
    destruct (editStart id st) eqn:E; simpl; [by eapply Hstart|].
    apply Hsettle.
  - intros id color width. unfold handleAddOutline.
    destruct (editStart id st) eqn:E; simpl; [by eapply Hstart|].
    apply Hsettle.
Qed.

End ReachableFacts.

(** ** Examples on the scripted platform *)

Section Examples.
Import Scripted.

Lemma C1_example_second_of_three_rejected :
  length (Run.calls (executeGeneration (P := platform)
                       (ready secondFails) (ready secondFails) 0)) = 1 + 1.
Proof.
  edestruct (C1_calls_sequential_in_list_order (P := platform) base
               (ready secondFails) (ready secondFails) 0 eq_refl)
    as (_ & _ & _ & Hrejected & _).
  edestruct (Hrejected 1) as (Hlen & _); [reflexivity | reflexivity |].
  exact Hlen.
Defined.


Lemma C2_example_second_of_three_rejected :
  error (Run.final (executeGeneration (P := platform)
                      (ready secondFails) (ready secondFails) 0))
  = Some (generationFailedMessage (lit "xylophone solo"))
  ∧ length (images (Run.final (executeGeneration (P := platform)
                                 (ready secondFails) (ready secondFails) 0)))
    = 1.
Proof.
  edestruct (C2_rejected_call_aborts_and_keeps_results (P := platform) base
               (ready secondFails) (ready secondFails) 0 1)
    as (_ & _ & Herror & _ & _ & _ & _ & _ & Hkept);
    [reflexivity | reflexivity | reflexivity |].
  exact (conj Herror Hkept).
Defined.

Lemma C3_example_blank_middle_line :
  length (images (Run.final (executeGeneration (P := platform)
                               (ready blankMiddle) (ready blankMiddle) 0)))
  = 2
  ∧ GeneratedImage.prompt
      <$> images (Run.final (executeGeneration (P := platform)
                               (ready blankMiddle) (ready blankMiddle) 0))
          !! 1
    = Some (lit "winking").
Proof.
  destruct (C3_results_follow_nonblank_lines (P := platform)) as [_ Hrun].
  edestruct (Hrun base (ready blankMiddle) (ready blankMiddle) 0)
    as (Hlen & Hprompt & _).
  - reflexivity.
  - vm_compute. lia.
  - vm_compute. repeat constructor.
  - split; [exact Hlen|]. apply Hprompt. reflexivity.
Defined.


Lemma C6_example_new_phrase :
  Call.request
    <$> Run.calls (handleConfirmSavePresets (P := platform)
                     (Run.final (handleGenerate (P := platform)
                                   (ready newPhrase) 0))
                     (Run.world (handleGenerate (P := platform)
                                   (ready newPhrase) 0)))
  = Call.request
      <$> Run.calls (handleDeclineSavePresets (P := platform)
                       (Run.final (handleGenerate (P := platform)
                                     (ready newPhrase) 0))
                       (Run.world (handleGenerate (P := platform)
                                     (ready newPhrase) 0)))
  ∧ Call.request
      <$> Run.calls (handleDeclineSavePresets (P := platform)
                       (Run.final (handleGenerate (P := platform)
                                     (ready newPhrase) 0))
                       (Run.world (handleGenerate (P := platform)
                                     (ready newPhrase) 0)))
    = requestFor base (ready newPhrase)
        <$> variationPrompts (variations (ready newPhrase))
  ∧ length (variationPrompts (variations (ready newPhrase))) = 1.
Proof.
  edestruct (C6_confirm_and_decline_run_the_same_batch (P := platform) base
               (ready newPhrase) 0)
    as (_ & _ & Hrequests & _ & _ & _ & _ & _ & _ & _ & _ & _ & _ & _ & _
        & Hsubmitted & _).
  - reflexivity.
  - vm_compute. lia.
  - vm_compute. discriminate.
  - split; [exact Hrequests|]. split; [|reflexivity].
    apply Hsubmitted. vm_compute. repeat constructor.
Defined.

Lemma C7_example_update_second :
  GeneratedImage.prompt
    <$> images (handleUpdateImageBase64 secondId (lit "data:image/png;base64,AAAA")
                  (holding [first; second]))
  = GeneratedImage.prompt <$> images (holding [first; second]).
Proof.
  edestruct (C7_update_in_place_changes_only_payload secondId
               (lit "data:image/png;base64,AAAA") (holding [first; second]))
    as (_ & _ & Hprompts & _).
  - apply (bool_decide_unpack _). vm_compute. exact I.
  - exact Hprompts.
Defined.

Lemma C8_example_delete_last_of_three :
  OutputArea.modalImageIndex
    (OutputArea.deleteCurrent (holding [first; second; third])
       (focused (holding [first; second; third]) 2)).2
  = Some 1%Z.
Proof.
  edestruct (C8_delete_focused_keeps_focus_in_range
               (holding [first; second; third])
               (focused (holding [first; second; third]) 2) 2)
    as (_ & _ & _ & Hlast).
  - apply (bool_decide_unpack _). vm_compute. exact I.
  - reflexivity.
  - vm_compute. lia.
  - destruct (Hlast eq_refl) as [_ Hfocus]. rewrite Hfocus by lia.
    reflexivity.
Defined.

Lemma C9_example_deleted_is_deselected :
  firstId ∉ OutputArea.selectedImages
              (OutputArea.render
                 (handleDeleteImage firstId (holding [first; second]))
                 (focused (holding [first; second]) 0)).
Proof.
  edestruct (C9_selection_is_all_entries_and_drops_deleted (P := platform)
               (holding [first; second])
               (focused (holding [first; second]) 0))
    as (_ & _ & Hdelete).
  - vm_compute. lia.
  - reflexivity.
  - destruct (Hdelete firstId) as [Hgone _]. exact Hgone.
Defined.

Lemma C10_example_deselection_is_discarded :
  (firstId ∉ OutputArea.selectedImages
               (toggled [firstId] (focused (holding [first; second]) 0)))
  ∧ OutputArea.selectedImages
      (OutputArea.render
         (handleUpdateImageBase64 secondId (lit "data:image/png;base64,AAAA")
            (holding [first; second]))
         (toggled [firstId] (focused (holding [first; second]) 0)))
    = OutputArea.allIds [first; second].
Proof.
  split.
  - apply (bool_decide_unpack _). vm_compute. exact I.
  - edestruct (C10_any_collection_change_resets_selection (P := platform)
                 (holding [first; second])
                 (focused (holding [first; second]) 0) [firstId])
      as (_ & Hupdate & _).
    + split; [vm_compute; lia|]. split; reflexivity.
    + rewrite Hupdate. reflexivity.
Defined.

Lemma C5_example_deleted_while_in_flight :
  silentNoOp (handleDeleteImage firstId (holding [first; second]))
    (removeBackgroundAcross (P := platform) firstId (holding [first; second])
       (handleDeleteImage firstId (holding [first; second])) 0).
Proof.
  destruct (C5_edit_after_delete_keeps_collection (P := platform) firstId
              (holding [first; second]) (holding [first; second]) 0)
    as (_ & Hremoval & _).
  edestruct Hremoval as (_ & _ & _ & Hsettled); [reflexivity|].
  exact Hsettled.
Defined.

(** C5, as stated, fails. A background removal is started on an image of
    the collection, the image is deleted while the call is in flight, and
    the call is rejected: the failure message is shown and the handler
    rethrows. *)
Lemma C5_counterexample_rejected_in_flight :
  (firstId ∈ GeneratedImage.id <$> images (holding [first]))
  ∧ editStart (P := Offline.platform) firstId (holding [first])
    = Awaiting (ImageInput.mk (Some (lit "iVBORw0KGgo=")) (lit "image/png"))
  ∧ ¬ silentNoOp (handleDeleteImage firstId (holding [first]))
        (removeBackgroundAcross (P := Offline.platform) firstId
           (holding [first])
           (handleDeleteImage firstId (holding [first])) 0)
  ∧ error (Edit.final
             (removeBackgroundAcross (P := Offline.platform) firstId
                (holding [first])
                (handleDeleteImage firstId (holding [first])) 0))
    = Some MSG_REMOVE_BACKGROUND_FAILED
  ∧ Edit.outcome
      (removeBackgroundAcross (P := Offline.platform) firstId
         (holding [first])
         (handleDeleteImage firstId (holding [first])) 0)
    = Failed.
Proof.
  split; [apply (bool_decide_unpack _); vm_compute; exact I|].
  split; [reflexivity|].
  split; [intros (_ & _ & E); vm_compute in E; discriminate|].
  split; reflexivity.
Qed.

End Examples.

(** * Further properties *)

(** ** Request lists and presets *)

Section RequestFacts.

Lemma split_sep_free sep s : sep ∉ s → split sep s = [s].
Proof.
  induction s as [|c s IH]; [done|]. intros Hnot. simpl.
  rewrite bool_decide_eq_false_2 by set_solver.
  rewrite IH by set_solver. done.
Qed.

Lemma split_app_sep sep h r :
  sep ∉ h → split sep (h ++ sep :: r) = h :: split sep r.
Proof.
  induction h as [|c h IH]; intros Hnot; simpl.
  - by rewrite bool_decide_eq_true_2.
  - rewrite bool_decide_eq_false_2 by set_solver.
    rewrite IH by set_solver. done.
Qed.

Lemma split_join_lines segs :
  segs ≠ [] → Forall (fun seg => LF ∉ seg) segs →
  split LF (join LF segs) = segs.
Proof.
  intros Hne Hfree. apply (linesOf_unique (join LF segs)).
  - apply lines_split.
  - by repeat split.
Qed.

Lemma trimmedOf_self p :
  (∀ c, head p = Some c → isWhiteSpace c = false) →
  (∀ c, last p = Some c → isWhiteSpace c = false) →
  trimmedOf p p.
Proof.
  intros Hh Hl. exists [], []. rewrite app_nil_r. by repeat split.
Qed.

Lemma trim_cleanLine p : cleanLine p → trim p = p.
Proof.
  intros (_ & _ & Hh & Hl). apply (trimmedOf_unique p).
  - apply trim_trimmedOf.
  - by apply trimmedOf_self.
Qed.

Lemma variationPrompts_join ls :
  Forall cleanLine ls → variationPrompts (join LF ls) = ls.
Proof.
  intros Hclean. unfold variationPrompts.
  destruct (decide (ls = [])) as [->|Hne]; [done|].
  rewrite split_join_lines; [|done|].
  - induction Hclean as [|p ls Hp Hls IH]; [done|]. simpl.
    rewrite (trim_cleanLine p) by done.
    destruct Hp as (Hp & _). rewrite filter_cons_True.
    + f_equal. destruct (decide (ls = [])) as [->|Hne']; [done|]. by apply IH.
    + destruct p; [done | simpl; lia].
  - eapply Forall_impl; [exact Hclean|]. by intros p (_ & ? & _).
Qed.

Lemma trimmedOf_no_LF line t : LF ∉ line → trimmedOf line t → LF ∉ t.
Proof. intros Hline (pre & post & -> & _). set_solver. Qed.

Lemma variationPrompts_clean text : Forall cleanLine (variationPrompts text).
Proof.
  unfold variationPrompts. apply Forall_forall. intros p Hp.
  apply list_elem_of_filter in Hp as [Hlen Hp].
  apply list_elem_of_fmap in Hp as (line & -> & Hline).
  pose proof (split_no_sep LF text) as Hfree.
  rewrite Forall_forall in Hfree. specialize (Hfree _ Hline).
  pose proof (trim_trimmedOf line) as Htrim.
  split; [by destruct (trim line); [simpl in Hlen; lia|]|].
  split; [by eapply trimmedOf_no_LF|].
  by destruct Htrim as (? & ? & _ & _ & _ & ? & ?).
Qed.

(** X1. Every request taken from the variations text is non-empty, holds
    no line feed and has no white space at either end; a text of blank
    lines gives no request; and the requests, joined by line feeds and read
    again, are the same requests. *)
Theorem variationPrompts_clean_and_stable text :
  Forall cleanLine (variationPrompts text)
  ∧ (Forall (fun c => isWhiteSpace c = true) text →
     variationPrompts text = [])
  ∧ variationPrompts (join LF (variationPrompts text))
    = variationPrompts text.
Proof.
  pose proof (variationPrompts_clean text) as Hclean.
  split; [done|]. split; [|by apply variationPrompts_join].
  intros Hblank. unfold variationPrompts.
  assert (Hall : Forall (fun line => trim line = []) (split LF text)).
  { apply Forall_forall. intros line Hline.
    assert (Hws : Forall (fun c => isWhiteSpace c = true) line).
    { pose proof (join_split LF text) as Hjoin.
      assert (Hsub : ∀ segs : list jsstring,
                 Forall (fun c => isWhiteSpace c = true) (join LF segs) →
                 Forall (Forall (fun c => isWhiteSpace c = true)) segs).
      { clear. induction segs as [|seg segs IH]; [constructor|].
        destruct segs as [|seg' segs].
        - simpl. by repeat constructor.
        - rewrite join_cons by done. intros Hf.
          apply Forall_app in Hf as [Hseg Hf]. inversion Hf; subst.
          constructor; [done|]. by apply IH. }
      rewrite <-Hjoin in Hblank. apply Hsub in Hblank.
      rewrite Forall_forall in Hblank. by apply Hblank. }
    apply (trimmedOf_unique line); [apply trim_trimmedOf|].
    exists line, []. simpl. rewrite app_nil_r.
    split; [done|]. split; [done|]. split; [constructor|].
    split; intros c; done. }
  induction Hall as [|line lines Hline _ IH]; [done|]. simpl.
  rewrite Hline. by rewrite filter_cons_False by (simpl; lia).
Qed.

Lemma addAll_prefix xs : ∀ seen, ∃ r, addAll seen xs = seen ++ r ∧ r `sublist_of` xs.
Proof.
  induction xs as [|x xs IH]; intros seen; simpl.
  - exists []. by rewrite app_nil_r.
  - destruct (includes seen x).
    + destruct (IH seen) as (r & -> & Hr). exists r. split; [done|].
      by apply sublist_cons.
    + destruct (IH (seen ++ [x])) as (r & -> & Hr). exists (x :: r).
      rewrite <-app_assoc. split; [done|]. by apply sublist_skip.
Qed.

Lemma addAll_NoDup_id xs : ∀ seen,
  NoDup (seen ++ xs) → addAll seen xs = seen ++ xs.
Proof.
  induction xs as [|x xs IH]; intros seen Hnd; simpl.
  - by rewrite app_nil_r.
  - unfold includes. rewrite bool_decide_eq_false_2.
    + rewrite IH; rewrite <-app_assoc; done.
    + apply NoDup_app in Hnd as (_ & Hdisj & _). intros Hin.
      apply (Hdisj x Hin). set_solver.
Qed.

Lemma addAll_app xs ys : ∀ seen,
  addAll seen (xs ++ ys) = addAll (addAll seen xs) ys.
Proof.
  induction xs as [|x xs IH]; intros seen; simpl; [done|].
  destruct (includes seen x); apply IH.
Qed.

Lemma spreadSet_NoDup_id xs : NoDup xs → spreadSet xs = xs.
Proof. intros Hnd. unfold spreadSet. by rewrite addAll_NoDup_id. Qed.

Lemma spreadSet_NoDup xs : NoDup (spreadSet xs).
Proof. apply NoDup_addAll. constructor. Qed.

Lemma newVariations_spec prompts presets :
  NoDup (newVariations prompts presets)
  ∧ (∀ v, v ∈ newVariations prompts presets ↔ v ∈ prompts ∧ v ∉ presets)
  ∧ newVariations prompts presets `sublist_of` prompts.
Proof.
  unfold newVariations. split; [apply spreadSet_NoDup|]. split.
  - intros v. rewrite elem_of_spreadSet, list_elem_of_filter.
    unfold includes. rewrite bool_decide_eq_false. tauto.
  - unfold spreadSet.
    destruct (addAll_prefix
                (filter (fun v => includes presets v = false) prompts) [])
      as (r & -> & Hr).
    simpl. etrans; [exact Hr|]. apply sublist_filter.
Qed.

(** Reading one more request: a phrase is put at the end of the question
    when it is no preset and has not been read before. *)
Lemma newVariations_snoc prompts p presets :
  newVariations (prompts ++ [p]) presets
  = newVariations prompts presets
    ++ (if bool_decide (p ∈ presets ∨ p ∈ prompts) then [] else [p]).
Proof.
  unfold newVariations, spreadSet. rewrite filter_app, addAll_app.
  fold (spreadSet (filter (fun v => includes presets v = false) prompts)).
  destruct (decide (p ∈ presets)) as [Hpreset|Hnew].
  - rewrite filter_cons_False, filter_nil.
    + rewrite bool_decide_eq_true_2 by (by left). by rewrite app_nil_r.
    + unfold includes. by rewrite bool_decide_eq_true_2.
  - rewrite filter_cons_True, filter_nil
      by (unfold includes; by rewrite bool_decide_eq_false_2).
    simpl. unfold includes at 1.
    assert (Hseen : p ∈ spreadSet
                          (filter (fun v => includes presets v = false) prompts)
                    ↔ p ∈ prompts).
    { rewrite elem_of_spreadSet, list_elem_of_filter. unfold includes.
      rewrite bool_decide_eq_false. tauto. }
    destruct (decide (p ∈ prompts)) as [Hread|Hfirst].
    + rewrite !bool_decide_eq_true_2 by tauto. by rewrite app_nil_r.
    + rewrite !bool_decide_eq_false_2 by tauto. done.
Qed.

(** A phrase that stands before another one in the question was read
    before any occurrence of the other one. *)
Lemma newVariations_order prompts presets : ∀ i j v v',
  newVariations prompts presets !! i = Some v →
  newVariations prompts presets !! j = Some v' →
  i < j →
  ∃ k, prompts !! k = Some v ∧ v' ∉ take (S k) prompts.
Proof.
  induction prompts as [|p prompts IH] using rev_ind; intros i j v v' Hi Hj Hij.
  { change (newVariations [] presets) with (@nil jsstring) in Hi.
    by rewrite lookup_nil in Hi. }
  assert (Hkeep : ∀ k, prompts !! k = Some v → v' ∉ take (S k) prompts →
                       (prompts ++ [p]) !! k = Some v
                       ∧ v' ∉ take (S k) (prompts ++ [p])).
  { intros k Hk Hnot. split; [by apply lookup_app_l_Some|].
    apply lookup_lt_Some in Hk. by rewrite take_app_le by lia. }
  rewrite newVariations_snoc in Hi, Hj.
  case_bool_decide as Hold.
  - rewrite app_nil_r in Hi, Hj.
    destruct (IH i j v v' Hi Hj Hij) as (k & Hk & Hnot).
    exists k. by apply Hkeep.
  - destruct (decide (j < length (newVariations prompts presets)))
      as [Hin|Hlast].
    + rewrite lookup_app_l in Hi, Hj by lia.
      destruct (IH i j v v' Hi Hj Hij) as (k & Hk & Hnot).
      exists k. by apply Hkeep.
    + apply lookup_lt_Some in Hj as Hlen. rewrite length_app in Hlen.
      simpl in Hlen.
      assert (j = length (newVariations prompts presets)) as -> by lia.
      rewrite lookup_app_r, Nat.sub_diag in Hj by done. simplify_eq/=.
      rewrite lookup_app_l in Hi by lia.
      apply list_elem_of_lookup_2 in Hi.
      destruct (newVariations_spec prompts presets) as (_ & Hmem & _).
      apply Hmem in Hi as [Hv _].
      apply list_elem_of_lookup in Hv as [k Hk].
      exists k. apply Hkeep; [done|].
      intros Hin. apply Hold. right.
      by apply (subseteq_take (S k) prompts).
Qed.

(** X2. The phrases put to the user for saving are the requests that are
    not presets: each of them once, in the order of their first appearance
    in the request list. Reading the request list from the left, a request
    is put at the end of the question exactly when it is no preset and has
    not been read before; hence a phrase that stands before another one in
    the question occurs in the request list before every occurrence of the
    other one. *)
Theorem newVariations_are_the_new_phrases_once prompts presets :
  NoDup (newVariations prompts presets)
  ∧ (∀ v, v ∈ newVariations prompts presets ↔ v ∈ prompts ∧ v ∉ presets)
  ∧ newVariations prompts presets `sublist_of` prompts
  ∧ newVariations [] presets = []
  ∧ (∀ p,
       newVariations (prompts ++ [p]) presets
       = newVariations prompts presets
         ++ (if bool_decide (p ∈ presets ∨ p ∈ prompts) then [] else [p]))
  ∧ (∀ i j v v',
       newVariations prompts presets !! i = Some v →
       newVariations prompts presets !! j = Some v' →
       i < j →
       ∃ k, prompts !! k = Some v ∧ v' ∉ take (S k) prompts).
Proof.
  destruct (newVariations_spec prompts presets) as (Hnd & Hmem & Hsub).
  split; [done|]. split; [done|]. split; [done|]. split; [done|].
  split; [intros p; apply newVariations_snoc | apply newVariations_order].
Qed.

Lemma INITIAL_PRESETS_NoDup : NoDup INITIAL_PRESETS.
Proof. apply (bool_decide_unpack _). vm_compute. exact I. Qed.

Lemma spreadSet_app_NoDup ps xs :
  NoDup ps → ∃ r, spreadSet (ps ++ xs) = ps ++ r.
Proof.
  intros Hnd. unfold spreadSet. rewrite addAll_app.
  rewrite (addAll_NoDup_id ps []) by done. simpl.
  destruct (addAll_prefix xs ps) as (r & -> & _). by exists r.
Qed.

(** X3. The preset list read at start-up begins with the built-in presets,
    in their order, and repeats no phrase; it holds the built-in and the
    stored phrases and no other; with nothing usable in storage it is the
    built-in list. *)
Theorem loadPresets_keeps_builtins_first stored :
  presetsShape (loadPresets stored)
  ∧ (∀ v, v ∈ loadPresets stored
          ↔ v ∈ INITIAL_PRESETS ∨ v ∈ default [] stored)
  ∧ loadPresets None = INITIAL_PRESETS.
Proof.
  destruct stored as [parsed|]; simpl.
  - split; [split|split; [|done]].
    + apply spreadSet_app_NoDup, INITIAL_PRESETS_NoDup.
    + apply spreadSet_NoDup.
    + intros v. rewrite elem_of_spreadSet, elem_of_app. tauto.
  - split; [split|split; [|done]].
    + exists []. by rewrite app_nil_r.
    + apply INITIAL_PRESETS_NoDup.
    + intros v. rewrite elem_of_nil. tauto.
Qed.

Lemma filter_builtins_out (ps : list jsstring) :
  ps ⊆ INITIAL_PRESETS →
  filter (fun p => includes INITIAL_PRESETS p = false) ps = [].
Proof.
  induction ps as [|p ps IH]; intros Hsub; [done|].
  rewrite filter_cons_False.
  - apply IH. set_solver.
  - unfold includes. rewrite bool_decide_eq_false. intros Hnot.
    apply Hnot. set_solver.
Qed.

Lemma filter_customs_in (ps : list jsstring) :
  (∀ p, p ∈ ps → p ∉ INITIAL_PRESETS) →
  filter (fun p => includes INITIAL_PRESETS p = false) ps = ps.
Proof.
  induction ps as [|p ps IH]; intros Hout; [done|].
  rewrite filter_cons_True.
  - f_equal. apply IH. intros q Hq. apply Hout. set_solver.
  - unfold includes. rewrite bool_decide_eq_false. apply Hout. set_solver.
Qed.

(** X4. What the persistence effect writes and what the initialiser reads
    back are inverse on well-shaped preset lists: writing the custom
    presets of a list that starts with the built-ins and repeats nothing,
    then loading, gives the list back. *)
Theorem presets_survive_a_reload st :
  presetsShape (presets st) →
  loadPresets (Some (customPresets st)) = presets st.
Proof.
  intros [[custom Hps] Hnd]. unfold customPresets, loadPresets.
  rewrite Hps in *. rewrite filter_app.
  rewrite filter_builtins_out by done.
  pose proof Hnd as (_ & Hdisj & _)%NoDup_app. simpl.
  rewrite filter_customs_in.
  - by apply spreadSet_NoDup_id.
  - intros p Hp Hin. by apply (Hdisj p).
Qed.

End RequestFacts.

(** ** More on batch runs *)

Section BatchExtras.
Context {World : Type} {P : Platform World}.
Implicit Types (b : BaseImage.t) (cl st : AppState) (w : World).

(** X5. Saving the new phrases appends them: when the preset list repeats
    nothing, confirming a question raised for the request list [prompts]
    leaves every former preset in its place and puts the new phrases after
    them, in the order of the question; a list that starts with the
    built-in presets and repeats nothing stays such a list. *)
Theorem confirm_appends_the_new_phrases prompts st w :
  NoDup (presets st) →
  savePresetsConfirmation st = Some (newVariations prompts (presets st)) →
  presets (Run.final (handleConfirmSavePresets st w))
  = presets st ++ newVariations prompts (presets st)
  ∧ (presetsShape (presets st) →
     presetsShape (presets (Run.final (handleConfirmSavePresets st w)))).
Proof.
  intros Hnd Hasked.
  destruct (newVariations_spec prompts (presets st))
    as (Hnew & Hmem & _).
  assert (Hall : NoDup (presets st ++ newVariations prompts (presets st))).
  { apply NoDup_app. split; [done|]. split; [|done].
    intros v Hv Hin. apply Hmem in Hin as [_ Hnot]. done. }
  assert (Hps : presets (Run.final (handleConfirmSavePresets st w))
                = presets st ++ newVariations prompts (presets st)).
  { unfold handleConfirmSavePresets. rewrite Hasked.
    match goal with
    | |- context [executeGeneration ?c ?s w] =>
        destruct (executeGeneration_frame c s w) as (_ & -> & _)
    end.
    simpl. by apply spreadSet_NoDup_id. }
  split; [done|]. intros [[custom Hshape] _]. rewrite Hps.
  split; [|done]. exists (custom ++ newVariations prompts (presets st)).
  by rewrite Hshape, <-app_assoc.
Qed.

Lemma shape_take_resolved (cs : list (Call.t World)) k :
  (Forall resolved cs
   ∨ ∃ cs' c', cs = cs' ++ [c'] ∧ Forall resolved cs' ∧ rejected c') →
  k < length cs → Forall resolved (take k cs).
Proof.
  intros [Hall|(cs' & c' & -> & Hall & _)] Hk.
  - by apply Forall_take.
  - rewrite length_app in Hk. simpl in Hk.
    rewrite take_app_le by lia. by apply Forall_take.
Qed.

Lemma loop_shown_flags b cl total rest : ∀ i acc st w k c,
  Run.calls (generationLoop b cl total i rest acc st w) !! k = Some c →
  isLoading (Call.shown c) = isLoading st
  ∧ error (Call.shown c) = error st
  ∧ rest !! k = Some (GenerateVariationParams.prompt (Call.request c)).
Proof.
  induction rest as [|prompt rest IH]; intros i acc st w k c; [done|].
  simpl. destruct (generateVariation (requestFor b cl prompt) w)
    as [w1 [resultBase64|reason]]; simpl.
  - destruct k as [|k]; simpl; [by intros [= <-]|].
    intros Hk. by apply IH in Hk.
  - destruct k as [|k]; simpl; [by intros [= <-]|done].
Qed.

(** X6. While call number [k] of a batch run is in flight, the state on
    screen has loading on, no error, progress [k + 1] of the number of
    requests, and a collection of exactly the [k] images of the earlier
    calls; the call is for request [k]. *)
Theorem progress_is_shown_before_each_call b cl st w k c :
  baseImage cl = Some b →
  Run.calls (executeGeneration cl st w) !! k = Some c →
  progress (Call.shown c)
  = Some (Progress.mk (k + 1) (length (variationPrompts (variations cl))))
  ∧ isLoading (Call.shown c) = true
  ∧ error (Call.shown c) = None
  ∧ images (Call.shown c)
    = producedBy 0 (take k (Run.calls (executeGeneration cl st w)))
  ∧ length (images (Call.shown c)) = k
  ∧ variationPrompts (variations cl) !! k
    = Some (GenerateVariationParams.prompt (Call.request c)).
Proof.
  intros Hb Hk.
  assert (Hne : variationPrompts (variations cl) ≠ []).
  { intros E. by rewrite (executeGeneration_no_prompts b) in Hk. }
  pose proof (executeGeneration_shape b cl st w Hb) as Hshape.
  pose proof (executeGeneration_calls_length cl st w) as Hle.
  simpl in Hshape.
  assert (Hres : Forall resolved
                   (take k (Run.calls (executeGeneration cl st w)))).
  { apply shape_take_resolved; [|by eapply lookup_lt_Some].
    destruct Hshape as [[? _]|?]; [by left | by right]. }
  apply lookup_lt_Some in Hk as Hlt.
  rewrite (executeGeneration_loop b) in * by done.
  destruct (loop_shown _ _ _ _ _ _ _ _ _ _ (loopEntry_images _ st) Hk)
    as [Hp Hi].
  destruct (loop_shown_flags _ _ _ _ _ _ _ _ _ _ Hk) as (Hl & He & Hr).
  split; [done|]. split; [done|]. split; [done|]. split; [done|].
  split.
  - rewrite Hi. simpl. rewrite producedBy_length by done.
    rewrite length_take. lia.
  - exact Hr.
Qed.

(** X7. The handlers behind the save-presets dialog start the batch for
    the text that is in the box when they run, and they do not look at the
    ceiling of 30 again: with a base image and every call resolving, there
    is one call and one image per request after a no and after a yes,
    however many requests there are. *)
Theorem dialog_handlers_do_not_recheck_the_ceiling b st w :
  baseImage st = Some b →
  variationPrompts (variations st) ≠ [] →
  Forall resolved (Run.calls (handleDeclineSavePresets st w)) →
  length (Run.calls (handleDeclineSavePresets st w))
  = length (variationPrompts (variations st))
  ∧ length (images (Run.final (handleDeclineSavePresets st w)))
    = length (variationPrompts (variations st))
  ∧ length (Run.calls (handleConfirmSavePresets st w))
    = length (variationPrompts (variations st))
  ∧ length (images (Run.final (handleConfirmSavePresets st w)))
    = length (variationPrompts (variations st)).
Proof.
  intros Hb Hne Hall. unfold handleDeclineSavePresets in *.
  pose proof (executeGeneration_shape b st
                (setSavePresetsConfirmation None st) w Hb) as Hshape.
  simpl in Hshape.
  assert (Hlen : length (Run.calls (executeGeneration st
                                      (setSavePresetsConfirmation None st) w))
                 = length (variationPrompts (variations st))).
  { destruct Hshape as [[_ ?]|(cs' & c & Hcs & _ & Hrej)]; [done|].
    rewrite Hcs in Hall. apply Forall_app in Hall as [_ Hc].
    inversion Hc; subst. unfold resolved, rejected in *. congruence. }
  assert (Himgs : length (images (Run.final
                                    (executeGeneration st
                                       (setSavePresetsConfirmation None st)
                                       w)))
                  = length (variationPrompts (variations st))).
  { rewrite (executeGeneration_loop b) in * by done.
    rewrite (loop_images _ _ _ _ _ []) by apply loopEntry_images.
    simpl. by rewrite producedBy_length. }
  split; [done|]. split; [done|].
  unfold handleConfirmSavePresets.
  destruct (savePresetsConfirmation st) as [news|]; [|by split].
  change (setSavePresetsConfirmation None (setPresets ?ps st))
    with (setPresets ps (setSavePresetsConfirmation None st)).
  rewrite executeGeneration_presets. simpl.
  rewrite length_fmap. by split.
Qed.

(** X8. In every state the handlers can reach, no two images of the
    collection share an identifier, each identifier is a clock reading
    followed by a hyphen and an index, and the array in state is one
    created earlier. *)
Theorem reachable_collections_have_unique_ids st :
  reachable st →
  uniqueIds st
  ∧ wellFormed st
  ∧ ∀ id, id ∈ GeneratedImage.id <$> images st →
          ∃ now i, id = imageId now i.
Proof.
  intros Hr. destruct (reachable_invariant st Hr) as [Hu Hwf].
  split; [done|]. split; [done|].
  clear Hu Hwf.
  induction Hr as [|st st' _ IH Harr Hal|st _ IH
                  |cl st w _ IH|id' st _ IH
                  |id' newBase64 st _ IH]; intros id.
  - unfold images. simpl. by intros ?%elem_of_nil.
  - unfold images in *. rewrite Harr. apply IH.
  - unfold images. simpl. by intros ?%elem_of_nil.
  - destruct (baseImage cl) as [b|] eqn:Hb.
    + destruct (decide (variationPrompts (variations cl) = [])) as [E|E].
      * rewrite (executeGeneration_no_prompts b) by done. apply IH.
      * rewrite (executeGeneration_loop b) by done.
        rewrite (loop_images _ _ _ _ _ []) by apply loopEntry_images.
        simpl. intros (now & i & -> & _)%producedBy_ids. by exists now, i.
    + rewrite executeGeneration_no_base by done. apply IH.
  - unfold handleDeleteImage, images at 1. simpl. fold (images st).
    intros (img & -> & Hin)%list_elem_of_fmap.
    apply list_elem_of_filter in Hin as [_ Hin]. apply IH.
    by apply list_elem_of_fmap_2.
  - unfold handleUpdateImageBase64, images at 1. simpl. fold (images st).
    intros (img & -> & Hin)%list_elem_of_fmap.
    apply list_elem_of_fmap in Hin as (img' & -> & Hin).
    rewrite replaceBase64_id. apply IH. by apply list_elem_of_fmap_2.
Qed.

End BatchExtras.

(** ** More on the collection, the selection and the detail view *)

Section CollectionExtras.
Implicit Types (st app : AppState) (s : OutputArea.State).
Implicit Types (a b id : jsstring).

Lemma filter_fmap_replaceBase64 a b x (imgs : list GeneratedImage.t) :
  filter (fun img => GeneratedImage.id img ≠ a) (replaceBase64 b x <$> imgs)
  = replaceBase64 b x <$> filter (fun img => GeneratedImage.id img ≠ a) imgs.
Proof.
  induction imgs as [|img imgs IH]; [done|]. rewrite fmap_cons.
  destruct (decide (GeneratedImage.id img = a)) as [E|E].
  - rewrite !filter_cons_False; [done|by intros ?|].
    rewrite replaceBase64_id. by intros ?.
  - rewrite !filter_cons_True; [|done|by rewrite replaceBase64_id].
    by rewrite fmap_cons, IH.
Qed.

(** X9. How deletes and in-place updates compose on the contents of the
    collection: a delete done twice is a delete done once; two deletes
    commute; of two updates of one image the later one stands; an update
    followed by a delete of the same image is that delete; a delete
    commutes with an update; and updates of different images commute. *)
Theorem deletes_and_updates_compose a b x y st :
  images (handleDeleteImage a (handleDeleteImage a st))
  = images (handleDeleteImage a st)
  ∧ images (handleDeleteImage a (handleDeleteImage b st))
    = images (handleDeleteImage b (handleDeleteImage a st))
  ∧ images (handleUpdateImageBase64 a y (handleUpdateImageBase64 a x st))
    = images (handleUpdateImageBase64 a y st)
  ∧ images (handleDeleteImage a (handleUpdateImageBase64 a x st))
    = images (handleDeleteImage a st)
  ∧ images (handleDeleteImage a (handleUpdateImageBase64 b x st))
    = images (handleUpdateImageBase64 b x (handleDeleteImage a st))
  ∧ (a ≠ b →
     images (handleUpdateImageBase64 a x (handleUpdateImageBase64 b y st))
     = images (handleUpdateImageBase64 b y (handleUpdateImageBase64 a x st))).
Proof.
  unfold handleDeleteImage, handleUpdateImageBase64, images. simpl.
  generalize (ImageArray.items (generatedImages st)). intros imgs.
  split; [|split; [|split; [|split; [|split]]]].
  - rewrite list_filter_filter. apply list_filter_iff. tauto.
  - rewrite !list_filter_filter. apply list_filter_iff. tauto.
  - rewrite <-list_fmap_compose. apply list_fmap_ext. intros i img _.
    unfold replaceBase64. simpl. by repeat (case_bool_decide; simpl).
  - rewrite filter_fmap_replaceBase64.
    apply replaceBase64_absent.
    intros (img & -> & Hin)%list_elem_of_fmap.
    by apply list_elem_of_filter in Hin as [? _].
  - apply filter_fmap_replaceBase64.
  - intros Hab. rewrite <-!list_fmap_compose. apply list_fmap_ext.
    intros i img _. unfold replaceBase64. simpl.
    repeat (case_bool_decide; simpl in * ); simplify_eq; done.
Qed.

(** X10. Clicking the selection box of an entry twice leaves the component
    as it was; one click changes whether that entry is selected and leaves
    every other entry as it was. *)
Theorem selecting_twice_restores id s :
  OutputArea.handleSelectImage id (OutputArea.handleSelectImage id s) = s
  ∧ (id ∈ OutputArea.selectedImages (OutputArea.handleSelectImage id s)
     ↔ id ∉ OutputArea.selectedImages s)
  ∧ (∀ other, other ≠ id →
       (other ∈ OutputArea.selectedImages (OutputArea.handleSelectImage id s)
        ↔ other ∈ OutputArea.selectedImages s)).
Proof.
  destruct s as [sel idx deps].
  unfold OutputArea.handleSelectImage, OutputArea.setSelectedImages. simpl.
  destruct (decide (id ∈ sel)) as [Hin|Hin].
  - rewrite (bool_decide_eq_true_2 (id ∈ sel)) by done.
    rewrite bool_decide_eq_false_2
      by (rewrite elem_of_difference, elem_of_singleton; tauto).
    split; [|split].
    + f_equal. apply set_eq. intros x.
      rewrite elem_of_union, elem_of_difference, elem_of_singleton.
      destruct (decide (x = id)); naive_solver.
    + rewrite elem_of_difference, elem_of_singleton. tauto.
    + intros other Hne.
      rewrite elem_of_difference, elem_of_singleton. tauto.
  - rewrite (bool_decide_eq_false_2 (id ∈ sel)) by done.
    rewrite bool_decide_eq_true_2
      by (rewrite elem_of_union, elem_of_singleton; tauto).
    split; [|split].
    + f_equal. apply set_eq. intros x.
      rewrite elem_of_difference, elem_of_union, elem_of_singleton.
      destruct (decide (x = id)); naive_solver.
    + rewrite elem_of_union, elem_of_singleton. tauto.
    + intros other Hne.
      rewrite elem_of_union, elem_of_singleton. tauto.
Qed.

Lemma filter_ext_in {A} (P Q : A → Prop) `{∀ x, Decision (P x)}
  `{∀ x, Decision (Q x)} (l : list A) :
  (∀ x, x ∈ l → (P x ↔ Q x)) → filter P l = filter Q l.
Proof.
  induction l as [|x l IH]; intros Hext; [done|].
  rewrite !filter_cons.
  destruct (decide (P x)) as [HP|HP], (decide (Q x)) as [HQ|HQ].
  - f_equal. apply IH. intros y Hy. apply Hext. set_solver.
  - destruct HQ. apply Hext; [set_solver|done].
  - destruct HP. apply Hext; [set_solver|done].
  - apply IH. intros y Hy. apply Hext. set_solver.
Qed.

(** X11. What the export views are given. When the selection effect has
    run for the collection and the user has since clicked the selection box
    of one entry, the sprite-sheet and animation views are given the
    collection without the images of that identifier, in collection order;
    before the click they are given the whole collection. *)
Theorem deselected_entry_leaves_the_export app s id :
  inStep app s →
  id ∈ GeneratedImage.id <$> images app →
  OutputArea.selectedImageData app s = images app
  ∧ OutputArea.selectedImageData app (OutputArea.handleSelectImage id s)
    = filter (fun img => GeneratedImage.id img ≠ id) (images app).
Proof.
  intros Hstep Hid. split; [by apply inStep_selects_everything|].
  destruct Hstep as (_ & _ & Hsel).
  unfold OutputArea.selectedImageData, OutputArea.handleSelectImage. simpl.
  rewrite Hsel. rewrite bool_decide_eq_true_2 by (by apply elem_of_allIds).
  apply filter_ext_in. intros img Himg.
  rewrite elem_of_difference, elem_of_allIds, elem_of_singleton.
  split; [tauto|]. intros Hne. split; [|done].
  by apply list_elem_of_fmap_2.
Qed.

Lemma next_in_range len z :
  (0 ≤ z < Z.of_nat len)%Z →
  Navigation.next len (JsNumber.Int z)
  = JsNumber.Int ((z + 1) `mod` Z.of_nat len).
Proof.
  intros Hz. unfold Navigation.next, JsNumber.remainder.
  rewrite bool_decide_eq_false_2 by lia.
  by rewrite Z.rem_mod_nonneg by lia.
Qed.

Lemma previous_in_range len z :
  (0 ≤ z < Z.of_nat len)%Z →
  Navigation.previous len (JsNumber.Int z)
  = JsNumber.Int ((z - 1) `mod` Z.of_nat len).
Proof.
  intros Hz. unfold Navigation.previous, JsNumber.remainder.
  rewrite bool_decide_eq_false_2 by lia.
  rewrite Z.rem_mod_nonneg by lia. f_equal.
  rewrite <-(Z.mul_1_l (Z.of_nat len)) at 1.
  by rewrite Z.mod_add by lia.
Qed.

Lemma iter_next len z : ∀ k,
  (0 ≤ z < Z.of_nat len)%Z →
  Nat.iter k (Navigation.next len) (JsNumber.Int z)
  = JsNumber.Int ((z + Z.of_nat k) `mod` Z.of_nat len).
Proof.
  induction k as [|k IH]; intros Hz; simpl.
  - rewrite Z.add_0_r, Z.mod_small by lia. done.
  - rewrite IH by done. rewrite next_in_range.
    + f_equal. rewrite Zplus_mod_idemp_l. f_equal. lia.
    + apply Z.mod_pos_bound. lia.
Qed.

(** X12. With the detail view on an entry of the collection, next and
    previous keep it on an entry, undo each other, wrap around at the two
    ends, and next taken as many times as there are entries comes back to
    the same entry. *)
Theorem next_and_previous_cycle len i :
  Navigation.inRange len i →
  Navigation.inRange len (Navigation.next len i)
  ∧ Navigation.inRange len (Navigation.previous len i)
  ∧ Navigation.previous len (Navigation.next len i) = i
  ∧ Navigation.next len (Navigation.previous len i) = i
  ∧ Nat.iter len (Navigation.next len) i = i
  ∧ (i = JsNumber.Int (Z.of_nat len - 1) →
     Navigation.next len i = JsNumber.Int 0)
  ∧ (i = JsNumber.Int 0 →
     Navigation.previous len i = JsNumber.Int (Z.of_nat len - 1)).
Proof.
  destruct i as [z|]; [|done]. intros Hz. simpl in Hz.
  assert (Hwrap : ∀ u : Z, (0 ≤ u < Z.of_nat len)%Z →
            ((u + 1) `mod` Z.of_nat len
             = if decide (u + 1 = Z.of_nat len) then 0 else u + 1)%Z
            ∧ ((u - 1) `mod` Z.of_nat len
               = if decide (u = 0) then Z.of_nat len - 1 else u - 1)%Z).
  { intros u Hu. split.
    - destruct (decide (u + 1 = Z.of_nat len)%Z) as [E|E].
      + rewrite E. apply Z.mod_same. lia.
      + apply Z.mod_small. lia.
    - destruct (decide (u = 0)%Z) as [E|E].
      + subst u.
        replace (0 - 1)%Z with (Z.of_nat len - 1 + (-1) * Z.of_nat len)%Z
          by lia.
        rewrite Z.mod_add by lia. apply Z.mod_small. lia.
      + apply Z.mod_small. lia. }
  destruct (Hwrap z Hz) as [Hn Hp].
  rewrite next_in_range, previous_in_range by done.
  rewrite Hn, Hp.
  assert (Hnr : (0 ≤ (if decide (z + 1 = Z.of_nat len) then 0 else z + 1)
                 < Z.of_nat len)%Z)
    by (destruct (decide (z + 1 = Z.of_nat len)%Z); lia).
  assert (Hpr : (0 ≤ (if decide (z = 0) then Z.of_nat len - 1 else z - 1)
                 < Z.of_nat len)%Z)
    by (destruct (decide (z = 0)%Z); lia).
  split; [exact Hnr|]. split; [exact Hpr|].
  split.
  { rewrite previous_in_range by done. f_equal.
    destruct (Hwrap _ Hnr) as [_ ->]. clear Hn Hp Hnr Hpr Hwrap.
    repeat case_decide; lia. }
  split.
  { rewrite next_in_range by done. f_equal.
    destruct (Hwrap _ Hpr) as [-> _]. clear Hn Hp Hnr Hpr Hwrap.
    repeat case_decide; lia. }
  split.
  { rewrite iter_next by done. f_equal.
    rewrite <-(Z.mul_1_l (Z.of_nat len)) at 1.
    rewrite Z.mod_add by lia. apply Z.mod_small. lia. }
  clear Hn Hp Hnr Hpr Hwrap. split.
  - intros [= ->]. f_equal. by rewrite decide_True by lia.
  - intros [= ->]. by rewrite decide_True by lia.
Qed.

End CollectionExtras.

(** ** Downloads *)

Section DownloadFacts.
Import Downloads.

Lemma pngName_distinct (imgs : list GeneratedImage.t) :
  NoDup (Download.name <$> (zipItem <$> imgs))
  ↔ NoDup (GeneratedImage.prompt <$> imgs).
Proof.
  assert (Hinj : Inj (=) (=) (fun p : jsstring => p ++ lit ".png")).
  { intros p q E. by apply app_inv_tail in E. }
  rewrite <-(NoDup_fmap (fun p : jsstring => p ++ lit ".png")
               (GeneratedImage.prompt <$> imgs)).
  by rewrite <-!list_fmap_compose.
Qed.

(** X27. The download buttons after a render that follows a change of the
    collection, when everything is selected. With no image neither calls
    anything. With one image, the selection goes to [downloadFile], its
    name the prompt followed by [.png] and its content the whole data URL,
    while "all" still calls [createZip], with one item. With two or more
    images both call [createZip] with the same array: one item per image
    of the collection, in order, named after the prompts. The names in
    that array are pairwise distinct exactly when the prompts of the
    collection are: two images of one prompt are handed over under one
    name. *)
Theorem downloads_after_a_render app s :
  viewReady app s →
  let s' := OutputArea.render app s in
  match images app with
  | [] =>
      handleDownloadSelected app s' = Download.NoCall
      ∧ handleDownloadAll app = Download.NoCall
  | [img] =>
      handleDownloadSelected app s'
      = Download.DownloadFile (GeneratedImage.base64 img)
          (GeneratedImage.prompt img ++ lit ".png")
      ∧ handleDownloadAll app = Download.CreateZip [zipItem img]
  | _ =>
      handleDownloadSelected app s' = handleDownloadAll app
      ∧ ∃ items,
          handleDownloadAll app = Download.CreateZip items
          ∧ Download.name <$> items
            = (fun img => GeneratedImage.prompt img ++ lit ".png")
                <$> images app
          ∧ (NoDup (Download.name <$> items)
             ↔ NoDup (GeneratedImage.prompt <$> images app))
  end.
Proof.
  intros Hready s'.
  assert (Hsel : OutputArea.selectedImageData app s' = images app).
  { apply inStep_selects_everything. by apply render_inStep. }
  unfold handleDownloadSelected, handleDownloadAll. rewrite Hsel.
  destruct (images app) as [|img [|img' imgs]]; [done | done |].
  rewrite !bool_decide_eq_false_2 by (simpl; lia).
  split; [done|]. eexists. split; [done|]. split.
  - rewrite <-list_fmap_compose. by apply list_fmap_ext.
  - apply pngName_distinct.
Qed.

End DownloadFacts.

(** ** Upload, data URLs and post-hoc edits *)

Section RegExpFacts.

Lemma sameWord_nil u : sameWord [] u ↔ u = [].
Proof. unfold sameWord. destruct u; simpl; split; done. Qed.

Lemma sameWord_cons p word u :
  sameWord (p :: word) u
  ↔ ∃ c u', u = c :: u' ∧ RegExp.toUpperAscii c = RegExp.toUpperAscii p
            ∧ sameWord word u'.
Proof.
  unfold sameWord. split.
  - destruct u as [|c u']; [done|]. rewrite !fmap_cons. intros [= Hc Hu].
    by exists c, u'.
  - intros (c & u' & -> & Hc & Hu). rewrite !fmap_cons. by rewrite Hc, Hu.
Qed.

Lemma matchesAt_spec word : ∀ s,
  RegExp.matchesAt word s = true
  ↔ ∃ u post, s = u ++ post ∧ sameWord word u.
Proof.
  induction word as [|p word IH]; intros s.
  - destruct s; simpl; (split; [intros _|done]);
      eexists [], _; (split; [done|]); by apply sameWord_nil.
  - destruct s as [|c s]; simpl.
    + split; [done|]. intros (u & post & Hs & Hu).
      apply sameWord_cons in Hu as (c & u' & -> & _). done.
    + unfold RegExp.sameLetter.
      rewrite andb_true_iff, bool_decide_eq_true, IH. split.
      * intros (Hc & u & post & -> & Hu). exists (c :: u), post.
        split; [done|]. apply sameWord_cons. by exists c, u.
      * intros (u & post & Hs & Hu).
        apply sameWord_cons in Hu as (c' & u' & -> & Hc & Hu).
        simplify_eq/=. split; [done|]. by exists u', post.
Qed.

Lemma test_spec words name :
  RegExp.test words name = true
  ↔ ∃ pre u post word,
      name = pre ++ u ++ post ∧ word ∈ words ∧ sameWord word u.
Proof.
  induction name as [|c name IH].
  - simpl. rewrite orb_false_r, existsb_exists. split.
    + intros (word & Hin & Hm). apply matchesAt_spec in Hm
        as (u & post & Hs & Hu).
      exists [], u, post, word. split; [done|].
      split; [by apply list_elem_of_In | done].
    + intros (pre & u & post & word & Hs & Hin & Hu).
      exists word. split; [by apply list_elem_of_In|].
      apply matchesAt_spec. destruct pre; [|done]. by exists u, post.
  - simpl. rewrite orb_true_iff, existsb_exists, IH. split.
    + intros [(word & Hin & Hm)|(pre & u & post & word & -> & Hin & Hu)].
      * apply matchesAt_spec in Hm as (u & post & Hs & Hu).
        exists [], u, post, word. split; [done|].
        split; [by apply list_elem_of_In | done].
      * by exists (c :: pre), u, post, word.
    + intros (pre & u & post & word & Hs & Hin & Hu).
      destruct pre as [|c' pre].
      * left. exists word. split; [by apply list_elem_of_In|].
        apply matchesAt_spec. by exists u, post.
      * right. simplify_eq/=. by exists pre, u, post, word.
Qed.

(** X13. The file-name test of the upload handler holds exactly for the
    names in which one of the words occurs somewhere, whatever the case of
    its ASCII letters. *)
Theorem photo_name_test_is_a_caseless_search words name :
  RegExp.test words name = true
  ↔ ∃ pre u post word,
      name = pre ++ u ++ post ∧ word ∈ words ∧ sameWord word u.
Proof. exact (test_spec words name). Qed.

End RegExpFacts.

Section UploadFacts.
Context {World : Type} {B : Browser World}.
Implicit Types (st : AppState) (w : World) (file : Upload.t).

(** X14. An upload of a file whose type is not PNG, JPEG or WebP, or in
    whose name one of the words person, photo, selfie, portrait occurs in
    any letter case, is refused before the file is read: only the error
    slot changes, to the invalid-type message in the first case and
    otherwise to the real-person message. *)
Theorem refused_upload_changes_only_the_error file st w :
  File.type (Upload.file file) ∉ ACCEPTED_TYPES
  ∨ (∃ pre u post word,
       Upload.name file = pre ++ u ++ post
       ∧ word ∈ PHOTO_WORDS ∧ sameWord word u) →
  handleImageUpload file st w
  = UploadRun.mk
      (setError
         (Some (if bool_decide
                     (File.type (Upload.file file) ∈ ACCEPTED_TYPES)
                then MSG_REAL_PERSON else MSG_INVALID_FILE_TYPE)) st)
      w Fulfilled false
  ∧ baseImage (UploadRun.final (handleImageUpload file st w)) = baseImage st
  ∧ generatedImages (UploadRun.final (handleImageUpload file st w))
    = generatedImages st.
Proof.
  intros Hbad. unfold handleImageUpload, includes.
  case_bool_decide as Htype; simpl; [|done].
  destruct Hbad as [Hbad|Hname]; [done|].
  apply test_spec in Hname. by rewrite Hname.
Qed.

(** X15. An upload that passes both checks clears the error and reads the
    file. When the reader resolves, the file with its data URL becomes the
    base image and the collection becomes a new, empty array, everything
    else staying as it was, so that the next render selects nothing; when
    the reader rejects, the base image and the collection stay and the
    handler's promise is rejected. *)
Theorem accepted_upload_replaces_base_and_clears_collection file st w :
  File.type (Upload.file file) ∈ ACCEPTED_TYPES →
  RegExp.test PHOTO_WORDS (Upload.name file) = false →
  let run := handleImageUpload file st w in
  UploadRun.read run = true
  ∧ UploadRun.world run = (readAsDataURL file w).1
  ∧ match (readAsDataURL file w).2 with
    | Resolved base64 =>
        UploadRun.outcome run = Fulfilled
        ∧ UploadRun.final run
          = setGeneratedImages []
              (setBaseImage (Some (BaseImage.mk (Upload.file file) base64))
                 (setError None st))
        ∧ images (UploadRun.final run) = []
        ∧ (wellFormed st → wellFormed (UploadRun.final run))
        ∧ (∀ s, wellFormed st → synced st s →
             OutputArea.selectedImages
               (OutputArea.render (UploadRun.final run) s) = ∅)
    | Rejected _ =>
        UploadRun.outcome run = Failed
        ∧ UploadRun.final run = setError None st
    end.
Proof.
  intros Htype Hname run. unfold run, handleImageUpload, includes.
  rewrite bool_decide_eq_true_2 by done. simpl. rewrite Hname.
  unfold fileToBase64. destruct (readAsDataURL file w) as [w1 [base64|e]];
    simpl; [|done].
  do 5 (split; [done|]). split.
  - intros _. unfold wellFormed. simpl. lia.
  - intros s Hwf Hsync. by apply (render_fresh_selects st).
Qed.

End UploadFacts.

Section DataUrlFacts.
Context {World : Type} {P : Platform World}.
Implicit Types (st : AppState) (w : World).

Lemma lazyUntilSemicolon_plain (mime rest : jsstring) :
  Forall mediaTypeUnit mime →
  FileUtils.lazyUntilSemicolon (mime ++ SEMICOLON :: rest) = Some mime.
Proof.
  induction 1 as [|c mime (Hs & _ & Hl) _ IH]; simpl.
  - first [done | by rewrite bool_decide_eq_true_2].
  - rewrite bool_decide_eq_false_2 by done. rewrite Hl, IH. done.
Qed.

Lemma matchMime_after_scheme (scheme mime rest : jsstring) :
  COLON ∉ scheme → Forall mediaTypeUnit mime →
  FileUtils.matchMime (scheme ++ COLON :: mime ++ SEMICOLON :: rest)
  = Some mime.
Proof.
  intros Hscheme Hmime. induction scheme as [|c scheme IH]; simpl.
  - first [rewrite bool_decide_eq_true_2 by done | idtac].
    by rewrite lazyUntilSemicolon_plain.
  - rewrite bool_decide_eq_false_2 by set_solver. apply IH. set_solver.
Qed.

Lemma matchMime_no_colon (s : jsstring) :
  COLON ∉ s → FileUtils.matchMime s = None.
Proof.
  induction s as [|c s IH]; [done|]. intros Hnot. simpl.
  rewrite bool_decide_eq_false_2 by set_solver. apply IH. set_solver.
Qed.

Lemma base64ToFile_data_url scheme mime params payload name :
  COLON ∉ scheme → COMMA ∉ scheme → Forall mediaTypeUnit mime →
  COMMA ∉ params → COMMA ∉ payload →
  FileUtils.base64ToFile
    (scheme ++ [COLON] ++ mime ++ [SEMICOLON] ++ params ++ [COMMA] ++ payload)
    name
  = (if atob_ok payload then Returns (Some (File.mk (File_type mime)))
     else Throws)
  ∧ (∀ s, COMMA ∉ s → FileUtils.base64ToFile s name = Returns None)
  ∧ (∀ header rest,
       COMMA ∉ header → COLON ∉ header →
       FileUtils.base64ToFile (header ++ COMMA :: rest) name = Returns None).
Proof.
  intros Hcolon Hscheme Hmime Hparams Hpayload. split; [|split].
  - unfold FileUtils.base64ToFile.
    assert (Hheader : COMMA ∉ scheme ++ [COLON] ++ mime ++ [SEMICOLON]
                                 ++ params).
    { rewrite !not_elem_of_app. split; [done|]. split; [set_solver|].
      split; [|split; [set_solver|done]].
      intros Hin. rewrite Forall_forall in Hmime.
      by destruct (Hmime _ Hin) as (_ & ? & _). }
    replace (scheme ++ [COLON] ++ mime ++ [SEMICOLON] ++ params ++ [COMMA]
               ++ payload)
      with ((scheme ++ [COLON] ++ mime ++ [SEMICOLON] ++ params)
              ++ COMMA :: payload)
      by (by rewrite <-!app_assoc).
    rewrite split_app_sep by done. rewrite split_sep_free by done.
    simpl. rewrite matchMime_after_scheme by done. done.
  - intros s Hs. unfold FileUtils.base64ToFile.
    by rewrite split_sep_free.
  - intros header rest Hcomma Hcol. unfold FileUtils.base64ToFile.
    rewrite split_app_sep by done.
    pose proof (split_not_nil COMMA rest) as Hne.
    destruct (split COMMA rest) as [|seg segs]; [done|]. simpl.
    by rewrite matchMime_no_colon.
Qed.

(** X16. [base64ToFile] on a data URL. For a string made of a scheme
    without colon, a colon, a media type, a semicolon, parameters, a comma
    and a payload, none but the separators holding a comma, the file has
    the type built from that media type, or the call throws when [atob]
    refuses the payload. A string without comma, or whose part before the
    first comma holds no colon, gives [null]. *)
Theorem base64ToFile_reads_the_media_type scheme mime params payload name :
  COLON ∉ scheme → COMMA ∉ scheme → Forall mediaTypeUnit mime →
  COMMA ∉ params → COMMA ∉ payload →
  FileUtils.base64ToFile
    (scheme ++ [COLON] ++ mime ++ [SEMICOLON] ++ params ++ [COMMA] ++ payload)
    name
  = (if atob_ok payload then Returns (Some (File.mk (File_type mime)))
     else Throws)
  ∧ (∀ s, COMMA ∉ s → FileUtils.base64ToFile s name = Returns None)
  ∧ (∀ header rest,
       COMMA ∉ header → COLON ∉ header →
       FileUtils.base64ToFile (header ++ COMMA :: rest) name = Returns None).
Proof. exact (base64ToFile_data_url scheme mime params payload name). Qed.




End DataUrlFacts.

(** ** Sprite-sheet layout *)

Section SpriteFacts.
Import SpriteSheet.






Lemma ceilQuot_two (n : Z) : ceilQuot n 2 = ((n + 1) / 2)%Z.
Proof.
  unfold ceilQuot.
  pose proof (Z.div_mod (- n) 2). pose proof (Z.mod_pos_bound (- n) 2).
  pose proof (Z.div_mod (n + 1) 2). pose proof (Z.mod_pos_bound (n + 1) 2).
  lia.
Qed.

(** X19. The sheet of the sprite-sheet view: 4096 pixels wide, two frames
    of 2048 by 2048 per row, as many rows as half the number of images
    rounded up; image [i] is in column [i mod 2] of row [i / 2]. *)
Theorem view_sheet_has_two_frames_per_row n i :
  i < n →
  ∃ sheet,
    viewSheet n = Some sheet
    ∧ sheetWidth sheet = 4096%Z
    ∧ sheetHeight sheet = (2048 * ((Z.of_nat n + 1) / 2))%Z
    ∧ map sheet !! i
      = Some (lit "frame_" ++ ofNat i,
              mkFrame (2048 * (Z.of_nat i `mod` 2))
                (2048 * (Z.of_nat i / 2)) 2048 2048).
Proof.
  intros Hi. unfold viewSheet, createSpriteSheet, DEFAULT_MAX_SHEET_WIDTH.
  rewrite bool_decide_eq_false_2 by lia.
  change (4096 / 2048)%Z with 2%Z.
  rewrite bool_decide_eq_false_2 by lia.
  eexists. split; [done|]. simpl.
  split; [done|]. split; [rewrite ceilQuot_two; lia|].
  rewrite list_lookup_fmap, lookup_seq_lt by done. simpl.
  unfold frameOf. rewrite Z.rem_mod_nonneg by lia.
  do 3 f_equal; lia.
Qed.

End SpriteFacts.

(** ** The controls panel: preset toggles *)

Section ToggleFacts.
Import ControlsPanel.

Lemma linesOfBox_variationPrompts text : linesOfBox text = variationPrompts text.
Proof.
  unfold linesOfBox, variationPrompts. apply list_filter_iff.
  intros [|c l]; simpl; split; intros; first [done | lia].
Qed.

Lemma indexOf_None xs x : indexOf xs x = None ↔ x ∉ xs.
Proof.
  induction xs as [|y xs IH]; simpl.
  - split; [intros _; apply not_elem_of_nil | done].
  - rewrite not_elem_of_cons. destruct (decide (y = x)) as [->|Hne].
    + rewrite bool_decide_eq_true_2 by done. split; [done | by intros [? _]].
    + rewrite bool_decide_eq_false_2 by done.
      destruct (indexOf xs x) as [i|]; simpl.
      * split; [done|]. intros [_ Hx]. by apply IH in Hx.
      * split; [|done]. intros _. split; [done | by apply IH].
Qed.

Lemma indexOf_Some xs x i :
  indexOf xs x = Some i →
  xs !! i = Some x ∧ ∀ j, j < i → xs !! j ≠ Some x.
Proof.
  revert i. induction xs as [|y xs IH]; intros i; simpl; [done|].
  destruct (decide (y = x)) as [->|Hne].
  - rewrite bool_decide_eq_true_2 by done. intros [= <-].
    split; [done | intros; lia].
  - rewrite bool_decide_eq_false_2 by done.
    destruct (indexOf xs x) as [k|] eqn:Hk; simpl; [|done].
    intros [= <-]. destruct (IH k eq_refl) as [Hx Hfirst].
    split; [done|]. intros [|j] Hj; simpl; [congruence|].
    apply Hfirst. lia.
Qed.



Lemma Forall_delete_list {A} (Q : A → Prop) (xs : list A) i :
  Forall Q xs → Forall Q (delete i xs).
Proof.
  intros H. revert i. induction H as [|y xs Hy Hxs IH]; intros [|i]; simpl;
    [constructor | constructor | exact Hxs | constructor; [exact Hy | apply IH]].
Qed.



(** X21. A click on a preset that is among the requests of the variations
    box removes its first occurrence and nothing else: the requests of the
    new text are the old ones without the entry at the first index that
    holds the preset. *)
Theorem toggling_a_present_preset_removes_its_first_line p text :
  p ∈ variationPrompts text →
  ∃ i,
    variationPrompts text !! i = Some p
    ∧ (∀ j, j < i → variationPrompts text !! j ≠ Some p)
    ∧ togglePreset p text = join LF (delete i (variationPrompts text))
    ∧ variationPrompts (togglePreset p text)
      = delete i (variationPrompts text)
    ∧ length (variationPrompts (togglePreset p text)) + 1
      = length (variationPrompts text).
Proof.
  intros Hin.
  destruct (indexOf (variationPrompts text) p) as [i|] eqn:Hi;
    [|by apply indexOf_None in Hi].
  destruct (indexOf_Some _ _ _ Hi) as [Hat Hfirst].
  exists i. split; [done|]. split; [done|].
  assert (Hoff : togglePreset p text
                 = join LF (delete i (variationPrompts text))).
  { unfold togglePreset. rewrite linesOfBox_variationPrompts. by rewrite Hi. }
  split; [done|]. rewrite Hoff.
  rewrite variationPrompts_join
    by apply Forall_delete_list, variationPrompts_clean.
  split; [done|]. rewrite length_delete by done.
  apply lookup_lt_Some in Hat. lia.
Qed.

End ToggleFacts.

(** ** The controls panel: templates *)

Section TemplateFacts.
Import ControlsPanel.
Context {World : Type} {P : Platform World} {B : Browser World}.

Lemma trim_nonblank_nonempty (name : jsstring) : trim name ≠ [] → name ≠ [].
Proof. intros Hne ->. by apply Hne. Qed.

Lemma find_None_existsb {A} (f : A → bool) (l : list A) :
  find f l = None ↔ existsb f l = false.
Proof.
  induction l as [|x l IH]; simpl; [done|].
  destruct (f x); simpl; [split; done | exact IH].
Qed.

Lemma find_None_all {A} (f : A → bool) (l : list A) :
  find f l = None → ∀ x, x ∈ l → f x = false.
Proof.
  induction l as [|y l IH]; simpl; intros Hf x Hx;
    [by apply elem_of_nil in Hx|].
  destruct (f y) eqn:Hy; [done|].
  apply elem_of_cons in Hx as [->|Hx]; [done | by apply IH].
Qed.

Lemma find_Some_first {A} (f : A → bool) (l : list A) x :
  find f l = Some x → x ∈ l ∧ f x = true.
Proof.
  induction l as [|y l IH]; simpl; [done|].
  destruct (f y) eqn:Hy.
  - intros [= <-]. split; [apply elem_of_cons; by left | done].
  - intros Hx. destruct (IH Hx). split; [apply elem_of_cons; by right | done].
Qed.

Lemma same_lowered_same_template (ts : list SavedTemplate.t) a b :
  uniqueNames ts → a ∈ ts → b ∈ ts →
  toLowerCase (SavedTemplate.name a) = toLowerCase (SavedTemplate.name b) →
  a = b.
Proof.
  unfold uniqueNames. induction ts as [|t ts IH]; intros Hnd Ha Hb E;
    [by apply elem_of_nil in Ha|].
  rewrite fmap_cons in Hnd. apply NoDup_cons in Hnd as [Ht Hnd].
  apply elem_of_cons in Ha as [->|Ha]; apply elem_of_cons in Hb as [->|Hb].
  - done.
  - exfalso. apply Ht. rewrite E. apply list_elem_of_fmap. by exists b.
  - exfalso. apply Ht. rewrite <-E. apply list_elem_of_fmap. by exists a.
  - by apply IH.
Qed.

(** The list written by a save that returns. *)
Lemma handleSaveTemplate_Returns name app s w s' :
  trim name ≠ [] → handleSaveTemplate name app s w = Returns s' →
  setItem_ok w = true
  ∧ stored s' = Some (savedTemplates s')
  ∧ isSaveModalOpen s' = false
  ∧ isLoadModalOpen s' = isLoadModalOpen s
  ∧ savedTemplates s'
    = match find (sameName (trim name)) (savedTemplates s) with
      | Some existingTemplate =>
          (fun t =>
             if bool_decide (SavedTemplate.id t
                             = SavedTemplate.id existingTemplate)
             then overwrite (trim name) app t else t) <$> savedTemplates s
      | None =>
          savedTemplates s ++
          [SavedTemplate.mk (ofZ (Date_now w)) (trim name) (variations app)
             (primaryColor app) (secondaryColor app)]
      end.
Proof.
  intros Hne. unfold handleSaveTemplate, updateTemplatesInStorage.
  rewrite (bool_decide_eq_false_2 (name = []))
    by by apply trim_nonblank_nonempty.
  rewrite (bool_decide_eq_false_2 (trim name = [])) by done.
  cbv beta iota zeta. simpl orb. cbv beta iota.
  destruct (setItem_ok w); [|done]. intros [= <-]. done.
Qed.

(** X22. Saving a template. A name of white space only saves nothing.
    Otherwise, when the write to storage goes through, storage holds the
    list the panel holds and the save dialog is closed; when the dialog
    warned that the name exists, no template is added, the ids keep their
    order and a template that had the name up to letter case now carries
    the trimmed name and the current variations and colours; when it did
    not warn, one template with these is added at the end, with the
    current time as id. *)
Theorem saving_a_template_adds_or_overwrites name app s w :
  (trim name = [] → handleSaveTemplate name app s w = Returns s)
  ∧ (trim name ≠ [] → setItem_ok w = true →
     ∃ s',
       handleSaveTemplate name app s w = Returns s'
       ∧ stored s' = Some (savedTemplates s')
       ∧ isSaveModalOpen s' = false
       ∧ if nameExists name (savedTemplates s)
         then SavedTemplate.id <$> savedTemplates s'
              = SavedTemplate.id <$> savedTemplates s
              ∧ ∃ t, t ∈ savedTemplates s
                     ∧ sameName (trim name) t = true
                     ∧ overwrite (trim name) app t ∈ savedTemplates s'
         else savedTemplates s'
              = savedTemplates s ++
                [SavedTemplate.mk (ofZ (Date_now w)) (trim name)
                   (variations app) (primaryColor app) (secondaryColor app)]).
Proof.
  split.
  { intros Hblank. unfold handleSaveTemplate.
    rewrite (bool_decide_eq_true_2 (trim name = [])) by done.
    by rewrite orb_true_r. }
  intros Hne Hok.
  destruct (handleSaveTemplate name app s w) as [s'|] eqn:Hsave.
  2:{ exfalso. revert Hsave. unfold handleSaveTemplate, updateTemplatesInStorage.
      rewrite (bool_decide_eq_false_2 (name = []))
        by by apply trim_nonblank_nonempty.
      rewrite (bool_decide_eq_false_2 (trim name = [])) by done.
      simpl orb. cbv beta iota zeta. by rewrite Hok. }
  destruct (handleSaveTemplate_Returns _ _ _ _ _ Hne Hsave)
    as (_ & Hstored & Hclosed & _ & Hlist).
  exists s'. split; [done|]. split; [done|]. split; [done|].
  unfold nameExists. rewrite (bool_decide_eq_false_2 (trim name = [])) by done.
  destruct (find (sameName (trim name)) (savedTemplates s)) as [t0|] eqn:Hfind.
  - destruct (existsb _ _) eqn:Hex;
      [|by apply find_None_existsb in Hex; rewrite Hex in Hfind].
    destruct (find_Some_first _ _ _ Hfind) as [Hin Hsame].
    rewrite Hlist. split.
    + rewrite <-list_fmap_compose. apply list_fmap_ext. intros i t _. simpl.
      by destruct (bool_decide _).
    + exists t0. split; [done|]. split; [done|].
      apply list_elem_of_fmap. exists t0.
      by rewrite bool_decide_eq_true_2.
  - apply find_None_existsb in Hfind as Hex. by rewrite Hex.
Qed.

(** X23. Names that differ beyond letter case, and ids that differ, are
    kept by the template handlers: a save whose time stamp is not yet the
    id of a template, and any delete, leave both in place. *)
Theorem template_names_and_ids_stay_unique s w :
  uniqueNames (savedTemplates s) →
  NoDup (SavedTemplate.id <$> savedTemplates s) →
  (∀ name app s',
     ofZ (Date_now w) ∉ SavedTemplate.id <$> savedTemplates s →
     handleSaveTemplate name app s w = Returns s' →
     uniqueNames (savedTemplates s')
     ∧ NoDup (SavedTemplate.id <$> savedTemplates s'))
  ∧ (∀ templateId confirmed s',
       handleDeleteTemplate templateId confirmed s w = Returns s' →
       uniqueNames (savedTemplates s')
       ∧ NoDup (SavedTemplate.id <$> savedTemplates s')
       ∧ (confirmed = true →
          templateId ∉ SavedTemplate.id <$> savedTemplates s')).
Proof.
  intros Hnames Hids. split.
  - intros name app s' Hfresh Hsave.
    destruct (decide (trim name = [])) as [Hblank|Hne].
    { revert Hsave. unfold handleSaveTemplate.
      rewrite (bool_decide_eq_true_2 (trim name = [])) by done.
      rewrite orb_true_r. by intros [= <-]. }
    destruct (handleSaveTemplate_Returns _ _ _ _ _ Hne Hsave)
      as (_ & _ & _ & _ & Hlist).
    rewrite Hlist. clear Hlist Hsave.
    destruct (find (sameName (trim name)) (savedTemplates s)) as [t0|] eqn:Hfind.
    + destruct (find_Some_first _ _ _ Hfind) as [Hin Hsame].
      apply bool_decide_eq_true_1 in Hsame.
      split.
      * unfold uniqueNames.
        replace ((fun t => toLowerCase (SavedTemplate.name t))
                   <$> (_ <$> savedTemplates s))
          with ((fun t => toLowerCase (SavedTemplate.name t))
                  <$> savedTemplates s); [done|].
        rewrite <-list_fmap_compose. apply list_fmap_ext. intros i t Ht. simpl.
        destruct (bool_decide _) eqn:Hid; [|done]. simpl.
        apply bool_decide_eq_true_1 in Hid.
        assert (t = t0) as ->; [|done].
        apply list_elem_of_lookup_2 in Ht.
        clear Hnames Hfind Hsame. revert Hids Ht Hin Hid.
        generalize (savedTemplates s). intros ts.
        induction ts as [|x ts IH]; intros Hnd Ha Hb E;
          [by apply elem_of_nil in Ha|].
        rewrite fmap_cons in Hnd. apply NoDup_cons in Hnd as [Hx Hnd].
        apply elem_of_cons in Ha as [->|Ha];
          apply elem_of_cons in Hb as [->|Hb].
        -- done.
        -- exfalso. apply Hx. rewrite E. apply list_elem_of_fmap. by exists t0.
        -- exfalso. apply Hx. rewrite <-E. apply list_elem_of_fmap. by exists t.
        -- by apply IH.
      * replace (SavedTemplate.id <$> (_ <$> savedTemplates s))
          with (SavedTemplate.id <$> savedTemplates s); [done|].
        rewrite <-list_fmap_compose. apply list_fmap_ext. intros i t _. simpl.
        by destruct (bool_decide _).
    + pose proof (find_None_all _ _ Hfind) as Hnone. split.
      * unfold uniqueNames. rewrite fmap_app. apply NoDup_app.
        split; [done|]. split; [|apply NoDup_singleton].
        intros n Hn Hn'. apply list_elem_of_singleton in Hn'. simpl in Hn'.
        subst n. apply list_elem_of_fmap in Hn as (t & Ht & Hin).
        specialize (Hnone _ Hin). unfold sameName in Hnone.
        apply bool_decide_eq_false_1 in Hnone. by apply Hnone.
      * rewrite fmap_app. apply NoDup_app.
        split; [done|]. split; [|apply NoDup_singleton].
        intros n Hn Hn'. apply list_elem_of_singleton in Hn'. simpl in Hn'.
        by subst n.
  - intros templateId [|] s'; unfold handleDeleteTemplate; [|by intros [= <-]].
    unfold updateTemplatesInStorage.
    destruct (setItem_ok w); [|done]. intros [= <-]. simpl.
    assert (Hsub : filter (fun t => SavedTemplate.id t ≠ templateId)
                     (savedTemplates s) `sublist_of` savedTemplates s)
      by apply sublist_filter.
    split; [|split].
    + unfold uniqueNames.
      eapply sublist_NoDup; [exact Hnames | by apply fmap_sublist].
    + eapply sublist_NoDup; [exact Hids | by apply fmap_sublist].
    + intros _ Hin. apply list_elem_of_fmap in Hin as (t & -> & Ht).
      by apply list_elem_of_filter in Ht as [Hne _].
Qed.

(** X24. What is saved under a name is what loading that name gives
    back. After a save into a list with names unique up to letter case,
    the list holds a template with the name up to letter case; loading any
    such template, into whatever working state, sets the variations and
    both colours to those at the time of the save, closes the load dialog
    and leaves base image, collection and presets alone. *)
Theorem saved_template_loads_back name app s w s' :
  uniqueNames (savedTemplates s) →
  trim name ≠ [] →
  handleSaveTemplate name app s w = Returns s' →
  (∃ t, t ∈ savedTemplates s' ∧ sameName (trim name) t = true)
  ∧ ∀ t later panel,
      t ∈ savedTemplates s' → sameName (trim name) t = true →
      let loaded := handleLoadTemplate t later panel in
      SavedTemplate.name t = trim name
      ∧ variations loaded.1 = variations app
      ∧ primaryColor loaded.1 = primaryColor app
      ∧ secondaryColor loaded.1 = secondaryColor app
      ∧ baseImage loaded.1 = baseImage later
      ∧ generatedImages loaded.1 = generatedImages later
      ∧ presets loaded.1 = presets later
      ∧ isLoadModalOpen loaded.2 = false
      ∧ savedTemplates loaded.2 = savedTemplates panel.
Proof.
  intros Hnames Hne Hsave.
  destruct (handleSaveTemplate_Returns _ _ _ _ _ Hne Hsave)
    as (_ & _ & _ & _ & Hlist).
  assert (Hdata : ∀ t, t ∈ savedTemplates s' → sameName (trim name) t = true →
            SavedTemplate.name t = trim name
            ∧ SavedTemplate.variations t = variations app
            ∧ SavedTemplate.primaryColor t = primaryColor app
            ∧ SavedTemplate.secondaryColor t = secondaryColor app).
  { intros t Ht Hsame. rewrite Hlist in Ht.
    destruct (find (sameName (trim name)) (savedTemplates s)) as [t0|] eqn:Hfind.
    - destruct (find_Some_first _ _ _ Hfind) as [Hin0 Hsame0].
      apply list_elem_of_fmap in Ht as (u & -> & Hu).
      destruct (bool_decide (SavedTemplate.id u = SavedTemplate.id t0)) eqn:Hid;
        [done|].
      assert (u = t0) as ->.
      { apply (same_lowered_same_template (savedTemplates s)); try done.
        apply bool_decide_eq_true_1 in Hsame, Hsame0. congruence. }
      by rewrite bool_decide_eq_true_2 in Hid.
    - apply elem_of_app in Ht as [Ht|Ht].
      + by rewrite (find_None_all _ _ Hfind t Ht) in Hsame.
      + by apply list_elem_of_singleton in Ht as ->. }
  split.
  - rewrite Hlist.
    destruct (find (sameName (trim name)) (savedTemplates s)) as [t0|] eqn:Hfind.
    + destruct (find_Some_first _ _ _ Hfind) as [Hin0 Hsame0].
      exists (overwrite (trim name) app t0). split.
      * apply list_elem_of_fmap. exists t0. by rewrite bool_decide_eq_true_2.
      * unfold sameName, overwrite. simpl. by apply bool_decide_eq_true_2.
    + eexists. split; [apply elem_of_app; right; by apply list_elem_of_singleton|].
      unfold sameName. simpl. by apply bool_decide_eq_true_2.
  - intros t later panel Ht Hsame.
    destruct (Hdata t Ht Hsame) as (Hn & Hv & Hp & Hs).
    simpl. by rewrite Hv, Hp, Hs.
Qed.

End TemplateFacts.

(** ** The generation client *)

Section ServiceFacts.
Import GenAI Service.
Context {World : Type} {M : Models World}.

Lemma forParts_spec noImage ps :
  match forParts noImage ps with
  | Done value =>
      ∃ k part blob,
        ps !! k = Some part ∧ inlineData part = Some blob
        ∧ data blob = value
        ∧ ∀ j earlier, j < k → ps !! j = Some earlier →
                       inlineData earlier = None
  | Raised e =>
      e = Error noImage ∧ ∀ part, part ∈ ps → inlineData part = None
  end.
Proof.
  induction ps as [|part rest IH]; simpl.
  - split; [done|]. intros part Hin. by apply elem_of_nil in Hin.
  - destruct (inlineData part) as [blob|] eqn:Hpart.
    + exists 0, part, blob. split; [done|]. split; [done|]. split; [done|].
      intros j earlier Hj. lia.
    + destruct (forParts noImage rest) as [value|e].
      * destruct IH as (k & p & blob & Hk & Hp & Hd & Hfirst).
        exists (S k), p, blob. split; [done|]. split; [done|]. split; [done|].
        intros [|j] earlier Hj; simpl; [congruence|].
        apply Hfirst. lia.
      * destruct IH as [-> Hnone]. split; [done|].
        intros p Hin. apply elem_of_cons in Hin as [->|Hin]; [done|].
        by apply Hnone.
Qed.

Lemma catchAll_tryBody noImage failed answer :
  match catchAll failed (tryBody noImage answer) with
  | Resolves value =>
      ∃ response, answer = Some response ∧ firstImage response value
  | Rejects reason =>
      reason = failed
      ∧ ∀ response value,
          answer = Some response → ¬ firstImage response value
  end.
Proof.
  destruct answer as [response|]; simpl; [|done].
  unfold partsOf.
  destruct (candidates response) as [cs|] eqn:Hcs; simpl.
  2:{ split; [done|]. intros ? ? [= <-] (? & ? & ? & ? & ? & ? & ? & ? & _).
      congruence. }
  destruct cs as [|candidate others]; simpl.
  { split; [done|]. intros ? ? [= <-] (? & ? & ? & ? & ? & ? & ? & ? & _).
    congruence. }
  destruct (content candidate) as [c|] eqn:Hc; simpl.
  2:{ split; [done|]. intros ? ? [= <-] (? & ? & ? & ? & ? & ? & ? & ? & ? & _).
      congruence. }
  destruct (parts c) as [ps|] eqn:Hps; simpl.
  2:{ split; [done|].
      intros ? ? [= <-] (? & ? & ? & ? & ? & ? & ? & ? & ? & ? & _).
      congruence. }
  pose proof (forParts_spec noImage ps) as Hscan.
  destruct (forParts noImage ps) as [value|e]; simpl.
  - destruct Hscan as (k & part & blob & Hk & Hpart & Hd & Hfirst).
    exists response. split; [done|].
    by exists candidate, others, c, ps, k, part, blob.
  - destruct Hscan as [_ Hnone]. split; [done|].
    intros ? value [= <-]
      (cand' & others' & c' & ps' & k & part & blob
       & Hcs' & Hc' & Hps' & Hk & Hpart & _).
    assert (ps' = ps) as -> by congruence.
    apply list_elem_of_lookup_2 in Hk. apply Hnone in Hk. congruence.
Qed.

(** X25. How the three client functions settle. Each asks the model
    once, for the image followed by its text, and leaves the world as the
    model left it. It resolves exactly when the model answered and the
    parts of the first candidate hold a part with inline data, with the
    data of the first such part; in every other case (the call rejected, a
    candidate, content or part list missing, no part with inline data) it
    rejects with the one message of the function, never with the message
    thrown inside for a response without image. *)
Theorem client_resolves_with_the_first_inline_data params image color width w :
  answersTo
    (requestWith (GenerateVariationParams.baseImage params)
       (fullPrompt params))
    MSG_VARIATION_FAILED w (Service.generateVariation params w)
  ∧ answersTo (requestWith image removeBackgroundPrompt)
      MSG_BACKGROUND_FAILED w (Service.removeBackground image w)
  ∧ answersTo (requestWith image (addOutlinePrompt color width))
      MSG_OUTLINE_FAILED w (Service.addOutline image color width w)
  ∧ MSG_VARIATION_FAILED ≠ MSG_NO_IMAGE_VARIATION
  ∧ MSG_BACKGROUND_FAILED ≠ MSG_NO_IMAGE_BACKGROUND
  ∧ MSG_OUTLINE_FAILED ≠ MSG_NO_IMAGE_OUTLINE.
Proof.
  assert (Hgen : ∀ request noImage failed,
            answersTo request failed w
              (let (w', answer) := generateContent request w in
               (w', catchAll failed (tryBody noImage answer)))).
  { intros request noImage failed. unfold answersTo.
    destruct (generateContent request w) as [w' answer]. simpl.
    split; [done|]. apply catchAll_tryBody. }
  split; [apply Hgen|]. split; [apply Hgen|]. split; [apply Hgen|].
  split; [|split]; by vm_compute.
Qed.

Lemma concat_split_at (k : nat) (items : list jsstring) (x : jsstring) :
  items !! k = Some x →
  List.concat items
  = List.concat (take k items) ++ x ++ List.concat (drop (S k) items).
Proof.
  intros Hk. rewrite <-(take_drop_middle items k x Hk) at 1.
  by rewrite concat_app, concat_cons.
Qed.

(** The text for a variation is a part that does not depend on the
    prompt, then the prompt between double quotes, then a line feed. *)
Lemma fullPrompt_split image colors strict locks tuning :
  ∃ pre, ∀ prompt,
    fullPrompt
      (GenerateVariationParams.mk image prompt colors strict locks tuning)
    = pre ++ prompt ++ [DQUOTE; LF].
Proof.
  eexists. intros prompt. unfold fullPrompt. cbv zeta.
  cbn [GenerateVariationParams.prompt GenerateVariationParams.colors
       GenerateVariationParams.useStrictPalette
       GenerateVariationParams.consistencyLocks
       GenerateVariationParams.promptTuning].
  match goal with
  | |- List.concat ?items = _ =>
      rewrite (concat_split_at 73 items prompt eq_refl)
  end.
  apply (f_equal2 app); [cbn [take]; reflexivity | reflexivity].
Qed.

(** X26. The text sent for a variation tells the requests apart: with
    everything else equal, two different prompts give two different
    texts, hence two different requests to the model. *)
Theorem different_prompts_give_different_requests
  image colors strict locks tuning prompt1 prompt2 :
  prompt1 ≠ prompt2 →
  fullPrompt
    (GenerateVariationParams.mk image prompt1 colors strict locks tuning)
  ≠ fullPrompt
      (GenerateVariationParams.mk image prompt2 colors strict locks tuning)
  ∧ requestWith image
      (fullPrompt
         (GenerateVariationParams.mk image prompt1 colors strict locks tuning))
    ≠ requestWith image
        (fullPrompt
           (GenerateVariationParams.mk image prompt2 colors strict locks
              tuning)).
Proof.
  intros Hne.
  destruct (fullPrompt_split image colors strict locks tuning) as [pre Hpre].
  rewrite !Hpre.
  assert (Htext : pre ++ prompt1 ++ [DQUOTE; LF]
                  ≠ pre ++ prompt2 ++ [DQUOTE; LF]).
  { intros E. apply Hne.
    apply (app_inv_head pre) in E. by apply (app_inv_tail [DQUOTE; LF]) in E. }
  split; [exact Htext|]. intros E. apply Htext.
  exact (f_equal
           (fun r => match contents r with
                     | [_; Text t] => t
                     | _ => []
                     end) E).
Qed.

End ServiceFacts.

(** ** More examples on the scripted platform and browser *)

Section MoreExamples.
Import Scripted Staged.

Lemma example_blank_lines_give_no_request : variationPrompts blankLines = [].
Proof.
  destruct (variationPrompts_clean_and_stable blankLines) as (_ & Hblank & _).
  apply Hblank. apply (bool_decide_unpack _). vm_compute. exact I.
Defined.

Lemma example_repeated_phrase_is_asked_once :
  ∃ k,
    [newPhrase; lit "winking"; lit "dancing"; newPhrase] !! k = Some newPhrase
    ∧ lit "dancing"
      ∉ take (S k) [newPhrase; lit "winking"; lit "dancing"; newPhrase].
Proof.
  destruct (newVariations_are_the_new_phrases_once
              [newPhrase; lit "winking"; lit "dancing"; newPhrase]
              INITIAL_PRESETS) as (_ & _ & _ & _ & _ & Horder).
  apply (Horder 0 1 newPhrase (lit "dancing")).
  - reflexivity.
  - reflexivity.
  - lia.
Defined.

Lemma example_custom_preset_survives_a_reload :
  loadPresets
    (Some (customPresets
             (setPresets (INITIAL_PRESETS ++ [newPhrase]) (ready []))))
  = presets (setPresets (INITIAL_PRESETS ++ [newPhrase]) (ready [])).
Proof.
  apply (presets_survive_a_reload
           (setPresets (INITIAL_PRESETS ++ [newPhrase]) (ready []))).
  split.
  - exists [newPhrase]. reflexivity.
  - apply (bool_decide_unpack _). vm_compute. exact I.
Defined.

Lemma example_confirm_appends_the_new_phrase :
  presets (Run.final
             (handleConfirmSavePresets (P := platform)
                (Run.final (handleGenerate (P := platform)
                              (ready newPhrase) 0)) 0))
  = INITIAL_PRESETS ++ [newPhrase].
Proof.
  edestruct (confirm_appends_the_new_phrases (P := platform)
               (variationPrompts newPhrase)
               (Run.final (handleGenerate (P := platform)
                             (ready newPhrase) 0)) 0) as [Happended _].
  - apply (bool_decide_unpack _). vm_compute. exact I.
  - reflexivity.
  - rewrite Happended. reflexivity.
Defined.

Lemma example_second_call_shows_two_of_three :
  ∃ c,
    Run.calls (executeGeneration (P := platform)
                 (ready secondFails) (ready secondFails) 0) !! 1 = Some c
    ∧ progress (Call.shown c) = Some (Progress.mk 2 3)
    ∧ length (images (Call.shown c)) = 1.
Proof.
  edestruct (progress_is_shown_before_each_call (P := platform) base
               (ready secondFails) (ready secondFails) 0 1)
    as (Hprogress & _ & _ & _ & Hlength & _);
    [reflexivity | reflexivity |].
  eexists. split; [reflexivity|]. split; [exact Hprogress | exact Hlength].
Defined.

Lemma example_decline_runs_thirty_one_requests :
  length (Run.calls (handleDeclineSavePresets (P := platform)
                       (ready tooMany) 0)) = 31.
Proof.
  edestruct (dialog_handlers_do_not_recheck_the_ceiling (P := platform) base
               (ready tooMany) 0) as (Hcalls & _).
  - reflexivity.
  - vm_compute. discriminate.
  - vm_compute. repeat constructor.
  - rewrite Hcalls. reflexivity.
Defined.

Lemma example_ids_after_a_run_and_a_delete :
  uniqueIds
    (handleDeleteImage firstId
       (Run.final (executeGeneration (P := platform)
                     (ready blankMiddle) initialState 0))).
Proof.
  edestruct (reachable_collections_have_unique_ids (P := platform)
               (handleDeleteImage firstId
                  (Run.final (executeGeneration (P := platform)
                                (ready blankMiddle) initialState 0))))
    as (Hunique & _).
  - apply reach_delete, reach_run, reach_initial.
  - exact Hunique.
Defined.

Lemma example_updates_of_two_images_commute :
  images (handleUpdateImageBase64 firstId (lit "data:image/png;base64,AAAA")
            (handleUpdateImageBase64 secondId
               (lit "data:image/png;base64,BBBB") (holding [first; second])))
  = images (handleUpdateImageBase64 secondId
              (lit "data:image/png;base64,BBBB")
              (handleUpdateImageBase64 firstId
                 (lit "data:image/png;base64,AAAA")
                 (holding [first; second]))).
Proof.
  destruct (deletes_and_updates_compose firstId secondId
              (lit "data:image/png;base64,AAAA")
              (lit "data:image/png;base64,BBBB") (holding [first; second]))
    as (_ & _ & _ & _ & _ & Hcommute).
  apply Hcommute. vm_compute. discriminate.
Defined.

Lemma example_click_leaves_the_other_entry :
  secondId ∈ OutputArea.selectedImages
               (OutputArea.handleSelectImage firstId
                  (focused (holding [first; second]) 0)).
Proof.
  destruct (selecting_twice_restores firstId
              (focused (holding [first; second]) 0)) as (_ & _ & Hothers).
  apply Hothers.
  - vm_compute. discriminate.
  - apply (bool_decide_unpack _). vm_compute. exact I.
Defined.

Lemma example_deselected_first_leaves_the_export :
  OutputArea.selectedImageData (holding [first; second])
    (OutputArea.handleSelectImage firstId
       (focused (holding [first; second]) 0))
  = filter (fun img => GeneratedImage.id img ≠ firstId)
      (images (holding [first; second])).
Proof.
  edestruct (deselected_entry_leaves_the_export (holding [first; second])
               (focused (holding [first; second]) 0) firstId)
    as [_ Hexport].
  - split; [vm_compute; lia|]. split; reflexivity.
  - apply (bool_decide_unpack _). vm_compute. exact I.
  - exact Hexport.
Defined.

Lemma example_next_wraps_at_the_last_of_three :
  Navigation.next 3 (JsNumber.Int 2) = JsNumber.Int 0.
Proof.
  destruct (next_and_previous_cycle 3 (JsNumber.Int 2))
    as (_ & _ & _ & _ & _ & Hwrap & _).
  - unfold Navigation.inRange. lia.
  - apply Hwrap. reflexivity.
Defined.

Lemma example_download_of_two_images :
  Downloads.handleDownloadSelected (holding [first; second])
    (OutputArea.render (holding [first; second]) OutputArea.initial)
  = Downloads.handleDownloadAll (holding [first; second]).
Proof.
  pose proof (downloads_after_a_render (holding [first; second])
                OutputArea.initial) as Hdownloads.
  destruct Hdownloads as [Hsame _].
  - split; [vm_compute; lia | exact I].
  - exact Hsame.
Defined.

Lemma example_gif_upload_is_refused :
  error (UploadRun.final (handleImageUpload (B := browser) animation
                            (ready []) 0))
  = Some MSG_INVALID_FILE_TYPE
  ∧ baseImage (UploadRun.final (handleImageUpload (B := browser) animation
                                  (ready []) 0))
    = Some base.
Proof.
  edestruct (refused_upload_changes_only_the_error (B := browser) animation
               (ready []) 0) as (Hrun & Hbase & _).
  - left. apply (bool_decide_unpack _). vm_compute. exact I.
  - split; [rewrite Hrun; reflexivity | exact Hbase].
Defined.

Lemma example_png_upload_clears_the_collection :
  images (UploadRun.final (handleImageUpload (B := browser) mascot
                             (holding [first; second]) 0)) = [].
Proof.
  pose proof (accepted_upload_replaces_base_and_clears_collection
                (B := browser) mascot (holding [first; second]) 0)
    as Hupload.
  destruct Hupload as (_ & _ & _ & _ & Hempty & _).
  - apply (bool_decide_unpack _). vm_compute. exact I.
  - reflexivity.
  - exact Hempty.
Defined.

Lemma example_file_of_a_png_data_url :
  FileUtils.base64ToFile (P := platform)
    (lit "data" ++ [COLON] ++ lit "image/png" ++ [SEMICOLON] ++ lit "base64"
       ++ [COMMA] ++ lit "iVBORw0KGgo=") (lit "image.png")
  = Returns (Some (File.mk (lit "image/png"))).
Proof.
  edestruct (base64ToFile_reads_the_media_type (P := platform) (lit "data")
               (lit "image/png") (lit "base64") (lit "iVBORw0KGgo=")
               (lit "image.png")) as (Hfile & _).
  - apply (bool_decide_unpack _). vm_compute. exact I.
  - apply (bool_decide_unpack _). vm_compute. exact I.
  - apply (bool_decide_unpack _). vm_compute. exact I.
  - apply (bool_decide_unpack _). vm_compute. exact I.
  - apply (bool_decide_unpack _). vm_compute. exact I.
  - rewrite Hfile. reflexivity.
Defined.



Lemma example_third_frame_of_the_view_sheet :
  ∃ sheet,
    SpriteSheet.viewSheet 3 = Some sheet
    ∧ SpriteSheet.sheetHeight sheet = 4096%Z
    ∧ SpriteSheet.map sheet !! 2
      = Some (lit "frame_2", SpriteSheet.mkFrame 0 2048 2048 2048).
Proof.
  destruct (view_sheet_has_two_frames_per_row 3 2)
    as (sheet & Hsheet & _ & Hheight & Hframe).
  - lia.
  - exists sheet. split; [exact Hsheet|].
    split; [rewrite Hheight; reflexivity | etrans; [exact Hframe | reflexivity]].
Defined.


Lemma example_preset_toggled_off :
  length (variationPrompts
            (ControlsPanel.togglePreset (lit "winking") blankMiddle)) + 1
  = length (variationPrompts blankMiddle).
Proof.
  destruct (toggling_a_present_preset_removes_its_first_line (lit "winking")
              blankMiddle) as (i & _ & _ & _ & _ & Hlength).
  - apply (bool_decide_unpack _). vm_compute. exact I.
  - exact Hlength.
Defined.

Lemma example_saving_under_an_existing_name :
  ∃ s',
    ControlsPanel.handleSaveTemplate (P := platform) (B := browser)
      (lit " holiday ") (ready newPhrase) (panel [holiday; office]) 0
    = Returns s'
    ∧ SavedTemplate.id <$> ControlsPanel.savedTemplates s'
      = SavedTemplate.id <$> [holiday; office].
Proof.
  destruct (saving_a_template_adds_or_overwrites (P := platform)
              (B := browser) (lit " holiday ") (ready newPhrase)
              (panel [holiday; office]) 0) as [_ Hsave].
  destruct Hsave as (s' & Hs' & _ & _ & Hcase).
  - vm_compute. discriminate.
  - reflexivity.
  - exists s'. split; [exact Hs'|].
    assert (Hexists : ControlsPanel.nameExists (B := browser)
                        (lit " holiday ")
                        (ControlsPanel.savedTemplates
                           (panel [holiday; office])) = true)
      by reflexivity.
    rewrite Hexists in Hcase. destruct Hcase as [Hids _]. exact Hids.
Defined.

Lemma example_names_stay_unique_after_a_save :
  match ControlsPanel.handleSaveTemplate (P := platform) (B := browser)
          (lit "Winter") (ready newPhrase) (panel [holiday; office]) 0 with
  | Returns s' =>
      ControlsPanel.uniqueNames (B := browser)
        (ControlsPanel.savedTemplates s')
  | Throws => False
  end.
Proof.
  destruct (template_names_and_ids_stay_unique (P := platform)
              (B := browser) (panel [holiday; office]) 0) as [Hsave _].
  - unfold ControlsPanel.uniqueNames.
    apply (bool_decide_unpack _). vm_compute. exact I.
  - apply (bool_decide_unpack _). vm_compute. exact I.
  - destruct (ControlsPanel.handleSaveTemplate (P := platform)
                (B := browser) (lit "Winter") (ready newPhrase)
                (panel [holiday; office]) 0) as [s'|] eqn:Hs'.
    + destruct (Hsave (lit "Winter") (ready newPhrase) s') as [Hnames _].
      * apply (bool_decide_unpack _). vm_compute. exact I.
      * exact Hs'.
      * exact Hnames.
    + vm_compute in Hs'. discriminate.
Defined.

Lemma example_saved_template_loads_back :
  ∃ t,
    ControlsPanel.sameName (B := browser) (lit "Winter") t = true
    ∧ variations
        (ControlsPanel.handleLoadTemplate t (ready []) (panel [])).1
      = newPhrase.
Proof.
  edestruct (saved_template_loads_back (P := platform) (B := browser)
               (lit " Winter") (ready newPhrase) (panel [holiday; office]) 0)
    as [(t & Hin & Hsame) Hload].
  - unfold ControlsPanel.uniqueNames.
    apply (bool_decide_unpack _). vm_compute. exact I.
  - vm_compute. discriminate.
  - reflexivity.
  - exists t. split; [exact Hsame|].
    destruct (Hload t (ready []) (panel []) Hin Hsame) as (_ & Htext & _).
    exact Htext.
Defined.

Lemma example_two_prompts_two_texts :
  Service.fullPrompt
    (GenerateVariationParams.mk
       (ImageInput.mk (Some (lit "iVBORw0KGgo=")) (lit "image/png"))
       (lit "winking") (Colors.mk (lit "#4F46E5") (lit "#10B981")) true
       (ConsistencyLocks.mk true true true true true)
       (PromptTuning.mk 50 50))
  ≠ Service.fullPrompt
      (GenerateVariationParams.mk
         (ImageInput.mk (Some (lit "iVBORw0KGgo=")) (lit "image/png"))
         (lit "shocked") (Colors.mk (lit "#4F46E5") (lit "#10B981")) true
         (ConsistencyLocks.mk true true true true true)
         (PromptTuning.mk 50 50)).
Proof.
  destruct (different_prompts_give_different_requests
              (ImageInput.mk (Some (lit "iVBORw0KGgo=")) (lit "image/png"))
              (Colors.mk (lit "#4F46E5") (lit "#10B981")) true
              (ConsistencyLocks.mk true true true true true)
              (PromptTuning.mk 50 50) (lit "winking") (lit "shocked"))
    as [Htexts _].
  - vm_compute. discriminate.
  - exact Htexts.
Defined.

End MoreExamples.
